(** * Trace resolution (backward/resolve.cpp): a shallow embedding

    The development follows the layout of the source file:
    - [SourceLoc], [Trace], [ResolvedTrace]: the data model;
    - [Backend]: the virtual interface [TraceResolverImplBase];
    - [Facade]: the process-wide [backward::resolve] with its address cache;
    - [Dw]: the libdw resolver and its lazily opened session;
    - [Bfd]: the object loader of the libbfd resolver;
    - [Dwarf]: the libdwarf resolver: object loader, unit and line lookup,
      the search of the debug tree, inliners and function signatures.

    Addresses ([void*]) and every DWARF quantity are integers in [Z]; what
    the operating system and the debug libraries answer is a record of
    functions ([Env]) given to the resolver. Recursion that follows
    references between DIEs takes a [fuel] argument and returns [None] when
    it runs out. *)

From Stdlib Require Import ZArith List String Bool Lia.
From stdpp Require Import base option list gmap strings.
Import ListNotations.

Local Open Scope string_scope.
Local Open Scope list_scope.
Local Open Scope Z_scope.

(** ** Data model *)

(** Modelled from the spec: the declaration of [backward::SourceLoc] lives in
    backward/resolve.hpp; the spec gives
    [{ filename: string?, function: string?, line: u32, column: u32 }]
    with the empty string and 0 as the unknown sentinel. *)
Record SourceLoc := mkSourceLoc {
  sl_filename : string;
  sl_function : string;
  sl_line : Z;
  sl_col : Z;
}.

Definition unknown_loc : SourceLoc := mkSourceLoc "" "" 0 0.

(** Narrowing of a 64-bit [Dwarf_Unsigned] to the 32-bit line/column field. *)
Definition u32 (z : Z) : Z := z mod 2 ^ 32.

(** [struct ResolvedTrace : Trace]; [addr] and [idx] are the [Trace] part. *)
Record ResolvedTrace := mkResolvedTrace {
  addr : Z;
  idx : Z;
  object_filename : string;
  object_function : string;
  source : SourceLoc;
  inliners : list SourceLoc;
}.

(** [ResolvedTrace(Trace(addr, i))]: every field but the [Trace] part is
    default-constructed. *)
Definition mk_trace (a i : Z) : ResolvedTrace :=
  mkResolvedTrace a i "" "" unknown_loc [].

Definition set_object_filename (s : string) (t : ResolvedTrace) :=
  mkResolvedTrace (addr t) (idx t) s (object_function t) (source t) (inliners t).
Definition set_object_function (s : string) (t : ResolvedTrace) :=
  mkResolvedTrace (addr t) (idx t) (object_filename t) s (source t) (inliners t).
Definition set_source (s : SourceLoc) (t : ResolvedTrace) :=
  mkResolvedTrace (addr t) (idx t) (object_filename t) (object_function t) s (inliners t).
Definition set_inliners (l : list SourceLoc) (t : ResolvedTrace) :=
  mkResolvedTrace (addr t) (idx t) (object_filename t) (object_function t) (source t) l.

Definition set_source_filename (s : string) (t : ResolvedTrace) :=
  set_source (mkSourceLoc s (sl_function (source t)) (sl_line (source t)) (sl_col (source t))) t.
Definition set_source_function (s : string) (t : ResolvedTrace) :=
  set_source (mkSourceLoc (sl_filename (source t)) s (sl_line (source t)) (sl_col (source t))) t.
Definition set_source_line (z : Z) (t : ResolvedTrace) :=
  set_source (mkSourceLoc (sl_filename (source t)) (sl_function (source t)) z (sl_col (source t))) t.
Definition set_source_col (z : Z) (t : ResolvedTrace) :=
  set_source (mkSourceLoc (sl_filename (source t)) (sl_function (source t)) (sl_line (source t)) z) t.

(** [std::string::empty] *)
Definition str_empty (s : string) : bool :=
  match s with EmptyString => true | _ => false end.

(** ** The backend interface, [TraceResolverImplBase] *)

(** A backend is a state type with the two virtual methods; [resolve] takes
    and returns the trace by value and may update the backend's own caches. *)
Class Backend (B : Type) := {
  load_addresses : B -> list Z -> B;
  backend_resolve : B -> ResolvedTrace -> B * ResolvedTrace;
}.

(** The base class itself: [load_addresses] ignores its arguments and
    [resolve] returns the trace unchanged (the unknown-platform backend). *)
#[export] Instance base_backend : Backend unit := {
  load_addresses b _ := b;
  backend_resolve b t := (b, t);
}.

(** ** The facade [backward::resolve] and its address cache *)

Module Facade.
Section WithBackend.
Context {B : Type} `{Backend B}.

(** The function-local statics: [resolver] and [locs]. [calls] is not
    program state: it records, in order, the addresses for which
    [resolver.resolve] was invoked, so that the at-most-once property can be
    stated. The mutex is held from before [load_addresses] until return. *)
Record State := mkState {
  resolver : B;
  locs : gmap Z SourceLoc;
  calls : list Z;
}.

Definition init (b : B) : State := mkState b ∅ [].

(** One iteration of the [for] loop: look the address up; on a miss resolve
    it with index [i] and [emplace] the result's [source]. *)
Definition resolve_one (st : State) (i : nat) (a : Z) : State * SourceLoc :=
  match locs st !! a with
  | Some loc => (st, loc)
  | None =>
      let '(b', res) := backend_resolve (resolver st) (mk_trace a (Z.of_nat i)) in
      (mkState b' (<[a := source res]> (locs st)) (calls st ++ [a]), source res)
  end.

(** The loop over [addresses], from index [i] on. The counter of the source
    is a 32-bit unsigned compared with [addresses.size()]; a batch is a call
    stack and is shorter than 2^32 entries, so no wrap-around is written. *)
Fixpoint resolve_loop (st : State) (i : nat) (addresses : list Z)
  : State * list SourceLoc :=
  match addresses with
  | [] => (st, [])
  | a :: rest =>
      let '(st1, loc) := resolve_one st i a in
      let '(st2, ret) := resolve_loop st1 (S i) rest in
      (st2, loc :: ret)
  end.

(** [std::vector<SourceLoc> resolve(alloc, addresses)] *)
Definition resolve (st : State) (addresses : list Z) : State * list SourceLoc :=
  let st0 := mkState (load_addresses (resolver st) addresses) (locs st) (calls st) in
  resolve_loop st0 0 addresses.

(** A process run: the batches resolved so far, oldest first. *)
Fixpoint run (st : State) (batches : list (list Z)) : State :=
  match batches with
  | [] => st
  | b :: rest => run (fst (resolve st b)) rest
  end.

(** *** The cache only grows *)

Lemma resolve_one_keeps st i a b v :
  locs st !! b = Some v -> locs (fst (resolve_one st i a)) !! b = Some v.
Proof.
  intros Hb. unfold resolve_one.
  destruct (locs st !! a) as [loc|] eqn:Ha; [exact Hb|].
  destruct (backend_resolve _ _) as [b' res]. cbn.
  destruct (decide (a = b)) as [->|Hne]; [congruence|].
  by rewrite lookup_insert_ne.
Qed.

Lemma resolve_one_result st i a :
  locs (fst (resolve_one st i a)) !! a = Some (snd (resolve_one st i a)).
Proof.
  unfold resolve_one.
  destruct (locs st !! a) as [loc|] eqn:Ha; [exact Ha|].
  destruct (backend_resolve _ _) as [b' res]. cbn.
  by rewrite lookup_insert_eq.
Qed.

Lemma resolve_one_hit st i a v :
  locs st !! a = Some v -> resolve_one st i a = (st, v).
Proof. intros Ha. unfold resolve_one. by rewrite Ha. Qed.

Lemma resolve_loop_keeps addresses : forall st i b v,
  locs st !! b = Some v -> locs (fst (resolve_loop st i addresses)) !! b = Some v.
Proof.
  induction addresses as [|a rest IH]; intros st i b v Hb; [exact Hb|].
  cbn [resolve_loop].
  pose proof (resolve_one_keeps st i a b v Hb) as H1.
  destruct (resolve_one st i a) as [st1 loc]. cbn in H1.
  specialize (IH st1 (S i) b v H1).
  destruct (resolve_loop st1 (S i) rest) as [st2 ret]. exact IH.
Qed.

Lemma resolve_loop_length addresses : forall st i,
  length (snd (resolve_loop st i addresses)) = length addresses.
Proof.
  induction addresses as [|a rest IH]; intros st i; [reflexivity|].
  cbn [resolve_loop].
  destruct (resolve_one st i a) as [st1 loc].
  specialize (IH st1 (S i)).
  destruct (resolve_loop st1 (S i) rest) as [st2 ret]. cbn in *. lia.
Qed.

Lemma resolve_loop_lookup addresses : forall st i (k : nat) a,
  addresses !! k = Some a ->
  snd (resolve_loop st i addresses) !! k
    = locs (fst (resolve_loop st i addresses)) !! a
  /\ is_Some (locs (fst (resolve_loop st i addresses)) !! a).
Proof.
  induction addresses as [|a0 rest IH]; intros st i k a Hk; [done|].
  cbn [resolve_loop].
  pose proof (resolve_one_result st i a0) as H1.
  destruct (resolve_one st i a0) as [st1 loc]. cbn in H1.
  pose proof (resolve_loop_keeps rest st1 (S i)) as Hkeep.
  specialize (IH st1 (S i)).
  destruct (resolve_loop st1 (S i) rest) as [st2 ret]. cbn in *.
  destruct k as [|k]; cbn in *.
  - injection Hk as <-. rewrite (Hkeep _ _ H1). eauto.
  - exact (IH k a Hk).
Qed.

(** *** The log of backend calls mirrors the cache's key set *)

Definition inv (st : State) : Prop :=
  NoDup (calls st) /\ forall a, a ∈ calls st <-> is_Some (locs st !! a).

Lemma inv_init b : inv (init b).
Proof.
  split; [constructor|]. intros a. cbn. rewrite lookup_empty.
  split; [by intros ?%elem_of_nil | by intros [? ?]].
Qed.

Lemma resolve_one_inv st i a : inv st -> inv (fst (resolve_one st i a)).
Proof.
  intros [Hnd Hdom]. unfold resolve_one.
  destruct (locs st !! a) as [loc|] eqn:Ha; [by split|].
  destruct (backend_resolve _ _) as [b' res]. cbn. split; cbn.
  - apply NoDup_app. split; [exact Hnd|]. split; [|apply NoDup_singleton].
    intros x Hx ->%list_elem_of_singleton.
    apply Hdom in Hx. rewrite Ha in Hx. by destruct Hx.
  - intros x. rewrite elem_of_app, list_elem_of_singleton, Hdom.
    destruct (decide (a = x)) as [->|Hne].
    + rewrite lookup_insert_eq. split; eauto.
    + rewrite lookup_insert_ne by done. split; [intros [?| ->]; [done|congruence] | eauto].
Qed.

Lemma resolve_loop_inv addresses : forall st i,
  inv st -> inv (fst (resolve_loop st i addresses)).
Proof.
  induction addresses as [|a rest IH]; intros st i Hinv; [exact Hinv|].
  cbn [resolve_loop].
  pose proof (resolve_one_inv st i a Hinv) as H1.
  destruct (resolve_one st i a) as [st1 loc]. cbn in H1.
  specialize (IH st1 (S i) H1).
  destruct (resolve_loop st1 (S i) rest) as [st2 ret]. exact IH.
Qed.

Lemma resolve_inv st addresses : inv st -> inv (fst (resolve st addresses)).
Proof. intros [Hnd Hdom]. unfold resolve. apply resolve_loop_inv. by split. Qed.

Lemma run_inv batches : forall st, inv st -> inv (run st batches).
Proof.
  induction batches as [|b rest IH]; intros st Hinv; [exact Hinv|].
  cbn. apply IH, resolve_inv, Hinv.
Qed.

Lemma resolve_one_calls st i a :
  exists new, calls (fst (resolve_one st i a)) = calls st ++ new.
Proof.
  unfold resolve_one. destruct (locs st !! a).
  - exists []. cbn. by rewrite app_nil_r.
  - destruct (backend_resolve _ _). by exists [a].
Qed.

Lemma resolve_loop_calls addresses : forall st i,
  exists new, calls (fst (resolve_loop st i addresses)) = calls st ++ new.
Proof.
  induction addresses as [|a rest IH]; intros st i.
  - exists []. cbn. by rewrite app_nil_r.
  - cbn [resolve_loop].
    destruct (resolve_one_calls st i a) as [n1 H1].
    destruct (resolve_one st i a) as [st1 loc]. cbn in H1.
    destruct (IH st1 (S i)) as [n2 H2].
    destruct (resolve_loop st1 (S i) rest) as [st2 ret]. cbn in *.
    exists (n1 ++ n2). by rewrite H2, H1, app_assoc.
Qed.

Lemma resolve_loop_hits addresses : forall st i (k : nat) a v,
  locs st !! a = Some v -> addresses !! k = Some a ->
  snd (resolve_loop st i addresses) !! k = Some v.
Proof.
  intros st i k a v Ha Hk.
  destruct (resolve_loop_lookup addresses st i k a Hk) as [-> _].
  by apply resolve_loop_keeps.
Qed.

(** The first position of [a] in a batch: where the loop meets it first. *)
Fixpoint index_of (a : Z) (addresses : list Z) : nat :=
  match addresses with
  | [] => 0
  | x :: rest => if decide (x = a) then 0 else S (index_of a rest)
  end.

Lemma resolve_one_other st i a b :
  a <> b -> locs (fst (resolve_one st i a)) !! b = locs st !! b.
Proof.
  intros Hne. unfold resolve_one.
  destruct (locs st !! a) as [loc|] eqn:Ha; [reflexivity|].
  destruct (backend_resolve _ _) as [b' res]. cbn.
  by rewrite lookup_insert_ne.
Qed.

Lemma resolve_one_value st i a :
  snd (resolve_one st i a)
  = match locs st !! a with
    | Some v => v
    | None => source (snd (backend_resolve (resolver st) (mk_trace a (Z.of_nat i))))
    end.
Proof.
  unfold resolve_one. destruct (locs st !! a) as [loc|]; [reflexivity|].
  by destruct (backend_resolve _ _).
Qed.

(** The k-th answer of the loop: the value cached on entry, or else what the
    backend answers when the loop meets the address for the first time. *)
Lemma resolve_loop_first addresses : forall st i (k : nat) a,
  addresses !! k = Some a ->
  snd (resolve_loop st i addresses) !! k
  = Some (match locs st !! a with
          | Some v => v
          | None =>
              source (snd (backend_resolve
                (resolver (fst (resolve_loop st i (take (index_of a addresses) addresses))))
                (mk_trace a (Z.of_nat (i + index_of a addresses)))))
          end).
Proof.
  induction addresses as [|a0 rest IH]; intros st i k a Hk; [done|].
  cbn [resolve_loop index_of].
  pose proof (resolve_one_value st i a0) as Hval.
  pose proof (resolve_one_result st i a0) as Hres.
  pose proof (resolve_one_other st i a0 a) as Hoth.
  destruct (decide (a0 = a)) as [->|Hne].
  - cbn [take resolve_loop fst]. rewrite Nat.add_0_r.
    destruct (resolve_one st i a) as [st1 loc]. cbn [fst snd] in *.
    destruct k as [|k].
    + destruct (resolve_loop st1 (S i) rest) as [st2 ret]. cbn. by rewrite Hval.
    + specialize (IH st1 (S i) k a Hk). rewrite Hres in IH.
      destruct (resolve_loop st1 (S i) rest) as [st2 ret]. cbn in *.
      by rewrite <- Hval.
  - destruct k as [|k]; [cbn in Hk; congruence|].
    cbn [take resolve_loop].
    destruct (resolve_one st i a0) as [st1 loc]. cbn [fst snd] in *.
    specialize (IH st1 (S i) k a Hk). rewrite (Hoth Hne) in IH.
    replace (i + S (index_of a rest))%nat with (S i + index_of a rest)%nat by lia.
    destruct (resolve_loop st1 (S i) (take (index_of a rest) rest)) as [st3 ret3].
    destruct (resolve_loop st1 (S i) rest) as [st2 ret]. cbn in *. exact IH.
Qed.

(** C1. For every batch, the sequence returned by the facade has the length
    of the input, and its i-th element is the resolution of the i-th input
    address: the location cached for that address when the call starts, or
    else the [source] of what the backend's [resolve] returns for the trace
    made of that address and the index of its first occurrence in the batch,
    asked of the backend as the loop has left it on reaching that occurrence.
    In particular, when the backend's answer is a function of the address
    alone and the cache holds such answers, the result is that function
    mapped over the batch. An empty batch gives an empty result, and
    duplicates are answered position by position. *)
Theorem C1_resolve_length_order (st : State) (addresses : list Z) :
  let st0 := mkState (load_addresses (resolver st) addresses) (locs st) (calls st) in
  length (snd (resolve st addresses)) = length addresses
  /\ (forall (i : nat) a, addresses !! i = Some a ->
        snd (resolve st addresses) !! i
        = Some (match locs st !! a with
                | Some v => v
                | None =>
                    source (snd (backend_resolve
                      (resolver (fst (resolve_loop st0 0 (take (index_of a addresses) addresses))))
                      (mk_trace a (Z.of_nat (index_of a addresses)))))
                end))
  /\ (forall f : Z -> SourceLoc,
        (forall b a i, source (snd (backend_resolve b (mk_trace a i))) = f a) ->
        (forall a v, locs st !! a = Some v -> v = f a) ->
        snd (resolve st addresses) = map f addresses).
Proof.
  intros st0.
  assert (Hith : forall (i : nat) a, addresses !! i = Some a ->
    snd (resolve st addresses) !! i
    = Some (match locs st !! a with
            | Some v => v
            | None =>
                source (snd (backend_resolve
                  (resolver (fst (resolve_loop st0 0 (take (index_of a addresses) addresses))))
                  (mk_trace a (Z.of_nat (index_of a addresses)))))
            end)).
  { intros i a Hi. unfold resolve. fold st0.
    exact (resolve_loop_first addresses st0 0%nat i a Hi). }
  split; [unfold resolve; apply resolve_loop_length|]. split; [exact Hith|].
  intros f Hf Hcache. apply list_eq. intros i.
  change (map f addresses) with (f <$> addresses). rewrite list_lookup_fmap.
  destruct (addresses !! i) as [a|] eqn:Hi; cbn.
  - rewrite (Hith i a Hi). f_equal.
    destruct (locs st !! a) as [v|] eqn:Ha; [by apply Hcache|].
    by rewrite Hf.
  - apply lookup_ge_None_2. unfold resolve. rewrite resolve_loop_length.
    by apply lookup_ge_None_1.
Qed.

(** C2. Across all batches of a process run, the backend's per-address
    resolve is invoked at most once per address (the call log has no
    duplicates); two occurrences of an address in one batch get the same
    result; no cache entry is removed or overwritten by a later batch; every
    later occurrence of a cached address returns the cached value; and a
    later batch does not call the backend for it again. *)
Theorem C2_cache_at_most_once (b : B) (batches : list (list Z)) (addresses : list Z) :
  let st := run (init b) batches in
  let st' := fst (resolve st addresses) in
  let ret := snd (resolve st addresses) in
  NoDup (calls st')
  /\ (forall (i j : nat) a, addresses !! i = Some a -> addresses !! j = Some a ->
        ret !! i = ret !! j)
  /\ (forall a v, locs st !! a = Some v ->
        locs st' !! a = Some v
        /\ (forall i : nat, addresses !! i = Some a -> ret !! i = Some v)
        /\ exists new, calls st' = calls st ++ new /\ a ∉ new).
Proof.
  intros st st' ret.
  assert (Hinv : inv st) by apply run_inv, inv_init.
  assert (Hinv' : inv st') by apply resolve_inv, Hinv.
  split; [apply Hinv'|]. split.
  { intros i j a Hi Hj. unfold ret, resolve.
    destruct (resolve_loop_lookup addresses
                (mkState (load_addresses (resolver st) addresses) (locs st) (calls st))
                0%nat i a Hi) as [-> _].
    destruct (resolve_loop_lookup addresses
                (mkState (load_addresses (resolver st) addresses) (locs st) (calls st))
                0%nat j a Hj) as [-> _].
    reflexivity. }
  intros a v Ha. split; [|split].
  - unfold st', resolve. by apply resolve_loop_keeps.
  - intros i Hi. unfold ret, resolve. by eapply resolve_loop_hits.
  - destruct (resolve_loop_calls addresses
                (mkState (load_addresses (resolver st) addresses) (locs st) (calls st)) 0%nat)
      as [new Hnew].
    exists new. split; [exact Hnew|].
    intros Hin. destruct Hinv as [_ Hdom], Hinv' as [Hnd' _].
    unfold st', resolve in Hnd'. rewrite Hnew in Hnd'. cbn in Hnd'.
    apply NoDup_app in Hnd' as (_ & Hdisj & _).
    apply (Hdisj a); [|exact Hin]. apply Hdom. eauto.
Qed.

End WithBackend.

(** A backend for examples: it reports the address as the source line. *)
Definition echo_backend : Backend unit := {|
  load_addresses b _ := b;
  backend_resolve b t := (b, set_source_line (addr t) t);
|}.

Lemma C1_resolve_length_order_witness :
  length (snd (@resolve unit echo_backend (init tt) [4096; 8192; 4096])) = 3%nat
  /\ snd (@resolve unit echo_backend (init tt) [4096; 8192; 4096]) !! 2%nat
     = Some (source (snd (@backend_resolve unit echo_backend tt (mk_trace 4096 0))))
  /\ snd (@resolve unit echo_backend (init tt) [4096; 8192; 4096])
     = map (fun a => mkSourceLoc "" "" a 0) [4096; 8192; 4096].
Proof.
  destruct (@C1_resolve_length_order unit echo_backend (init tt) [4096; 8192; 4096])
    as (Hlen & Hith & Hmap).
  split; [exact Hlen|]. split; [exact (Hith 2%nat 4096 eq_refl)|].
  apply Hmap; [intros b a i; reflexivity|]. intros a v Ha. cbn in Ha. by rewrite lookup_empty in Ha.
Defined.

Lemma C2_cache_at_most_once_witness :
  let st := @run unit echo_backend (init tt) [[4096; 8192]] in
  NoDup (calls (fst (@resolve unit echo_backend st [8192; 12288; 8192])))
  /\ calls (fst (@resolve unit echo_backend st [8192; 12288; 8192])) = [4096; 8192; 12288]
  /\ locs (fst (@resolve unit echo_backend st [8192; 12288; 8192])) !! 8192
     = locs st !! 8192.
Proof.
  destruct (@C2_cache_at_most_once unit echo_backend tt [[4096; 8192]] [8192; 12288; 8192])
    as (Hnd & _ & Hkeep).
  destruct (Hkeep 8192 (mkSourceLoc "" "" 8192 0) eq_refl) as (Hsame & _ & _).
  cbv zeta. split; [exact Hnd|]. split; [reflexivity|].
  rewrite Hsame. reflexivity.
Defined.

End Facade.

(** ** DWARF debug trees

    A debug information entry (DIE) is a node with attributes and an ordered
    list of children; [dwarf_child] gives the first child and
    [dwarf_siblingof] the next one. Both backends read the same tree. *)

Inductive Tag :=
| DW_TAG_compile_unit | DW_TAG_subprogram | DW_TAG_inlined_subroutine
| DW_TAG_namespace | DW_TAG_class_type | DW_TAG_structure_type
| DW_TAG_union_type | DW_TAG_enumeration_type | DW_TAG_const_type
| DW_TAG_pointer_type | DW_TAG_reference_type | DW_TAG_restrict_type
| DW_TAG_rvalue_reference_type | DW_TAG_volatile_type | DW_TAG_typedef
| DW_TAG_base_type | DW_TAG_formal_parameter
| DW_TAG_other (code : Z).

(** Form class of [DW_AT_high_pc]: an address (DWARF 2/3) or an offset from
    [DW_AT_low_pc] (DWARF 4+). *)
Inductive FormClass := DW_FORM_CLASS_ADDRESS | DW_FORM_CLASS_CONSTANT.

(** The attributes the resolvers read. An attribute that is absent, or whose
    value cannot be read, is [None]. A DIE lives at offset [die_cu_off]
    inside the unit that starts at [die_cu_base]; references are unit-relative
    ([dwarf_formref]) and are made global by adding the unit's base
    ([dwarf_global_formref]). [sibling_err] says that [dwarf_siblingof] on
    this DIE reports [DW_DLV_ERROR]. *)
Record DieAttrs := mkDieAttrs {
  die_tag : Tag;
  die_cu_base : Z;
  die_cu_off : Z;
  at_name : option string;
  at_low_pc : option Z;
  at_high_pc : option (Z * FormClass);
  at_ranges : option (list (Z * Z));
  at_declaration : option bool;
  at_artificial : option bool;
  at_type : option Z;
  at_abstract_origin : option Z;
  at_specification : option Z;
  at_signature : option (option (list Z));
  at_call_file : option Z;
  at_call_line : option Z;
  at_call_column : option Z;
  at_linkage_name : option string;
  at_MIPS_linkage_name : option string;
  sibling_err : bool;
}.

#[local] Unset Elimination Schemes.
Inductive Die := Die_mk (a : DieAttrs) (children : list Die).
#[local] Set Elimination Schemes.

Definition attrs (d : Die) : DieAttrs := let 'Die_mk a _ := d in a.
Definition children (d : Die) : list Die := let 'Die_mk _ cs := d in cs.
Definition tag (d : Die) : Tag := die_tag (attrs d).

(** [dwarf_dieoffset]: the offset in the whole section. *)
Definition dieoffset (d : Die) : Z := die_cu_base (attrs d) + die_cu_off (attrs d).

Definition is_subprogram (t : Tag) : bool :=
  match t with DW_TAG_subprogram => true | _ => false end.
Definition is_inlined_subroutine (t : Tag) : bool :=
  match t with DW_TAG_inlined_subroutine => true | _ => false end.
Definition is_class_type (t : Tag) : bool :=
  match t with DW_TAG_class_type => true | _ => false end.
Definition is_namespace (t : Tag) : bool :=
  match t with DW_TAG_namespace => true | _ => false end.
Definition is_formal_parameter (t : Tag) : bool :=
  match t with DW_TAG_formal_parameter => true | _ => false end.
Definition is_compile_unit (t : Tag) : bool :=
  match t with DW_TAG_compile_unit => true | _ => false end.

(** The [declaration] flag as both searches compute it: false unless
    [DW_AT_declaration] is present, readable and set. *)
Definition flag_set (o : option bool) : bool :=
  match o with Some b => b | None => false end.

(** ** The libdw backend, [TraceResolverLinuxImpl<libdw>] *)

Module Dw.

(** A row of the line table, as [dwarf_linesrc], [dwarf_lineno] and
    [dwarf_linecol] read it. *)
Record Dwarf_Line := mkLine {
  linesrc : option string;
  lineno : Z;
  linecol : Z;
}.

(** What elfutils reports for one loaded module. [nextcu] lists the units
    with their bias in the order [dwfl_module_nextcu] yields them;
    [srcfiles] is the file table of a unit, [None] if it cannot be read. *)
Record Dwfl_Module := mkModule {
  module_name : option string;
  addrname : Z -> option string;
  addrdie : Z -> option (Die * Z);
  nextcu : list (Die * Z);
  getsrc_die : Die -> Z -> option Dwarf_Line;
  srcfiles : Die -> option (Z -> option string);
}.

(** A session handle: [dwfl_addrmodule]. *)
Record Dwfl := mkDwfl {
  addrmodule : Z -> option Dwfl_Module;
}.

(** The process as the libraries see it when [resolve] runs: what
    [dwfl_begin] returns (null is [None]), the status of
    [dwfl_linux_proc_report], and the demangler. *)
Record Env := mkEnv {
  dwfl_begin : option Dwfl;
  dwfl_linux_proc_report : Z;
  demangle : string -> string;
}.

(** The members [_dwfl_handle] and [_dwfl_handle_initialized]. *)
Record State := mkState {
  dwfl_handle : option Dwfl;
  dwfl_handle_initialized : bool;
}.

(** The constructor: [_dwfl_handle_initialized(false)], an empty handle. *)
Definition init : State := mkState None false.

Definition in_range (pc low high : Z) : bool := (low <=? pc) && (pc <? high).

(** [die_has_pc]. [dwarf_highpc] of the older elfutils answers only for an
    address-class attribute; for a constant the source reads the offset with
    [dwarf_formudata] and adds it to the low pc. A 64-bit sum wraps. *)
Definition die_has_pc (d : Die) (pc : Z) : bool :=
  match at_low_pc (attrs d), at_high_pc (attrs d) with
  | Some low, Some (v, DW_FORM_CLASS_ADDRESS) => in_range pc low v
  | Some low, Some (v, DW_FORM_CLASS_CONSTANT) => in_range pc low ((low + v) mod 2 ^ 64)
  | _, _ =>
      match at_ranges (attrs d) with
      | Some rs => existsb (fun r => in_range pc (fst r) (snd r)) rs
      | None => false
      end
  end.

(** [find_fundie_by_pc]: is there a function DIE below [parent] whose range
    holds [pc]? (The source returns the DIE; its only caller tests it for
    null.) *)
Fixpoint find_fundie_by_pc (parent : Die) (pc : Z) : bool :=
  let fix siblings (ds : list Die) : bool :=
    match ds with
    | [] => false
    | d :: rest =>
        if (is_subprogram (tag d) || is_inlined_subroutine (tag d)) && die_has_pc d pc
        then true
        else if negb (flag_set (at_declaration (attrs d))) && find_fundie_by_pc d pc
        then true
        else if sibling_err (attrs d) then false
        else siblings rest
    end in
  match parent with Die_mk _ cs => siblings cs end.

(** [die_call_file] *)
Definition die_call_file (files : option (Z -> option string)) (d : Die) : option string :=
  match at_call_file (attrs d) with
  | None | Some 0 => None
  | Some file_idx =>
      match files with
      | None => None
      | Some f => f file_idx
      end
  end.

Definition or_default {A} (o : option A) (x : A) : A :=
  match o with Some y => y | None => x end.

(** [inliners_search_cb::operator()] *)
Definition inliners_search_cb (files : option (Z -> option string))
    (d : Die) (trace : ResolvedTrace) : ResolvedTrace :=
  match tag d with
  | DW_TAG_subprogram =>
      match at_name (attrs d) with
      | Some name => set_source_function name trace
      | None => trace
      end
  | DW_TAG_inlined_subroutine =>
      let sloc := mkSourceLoc
        (or_default (die_call_file files d) "")
        (or_default (at_name (attrs d)) "")
        (u32 (or_default (at_call_line (attrs d)) 0))
        (u32 (or_default (at_call_column (attrs d)) 0)) in
      set_inliners (inliners trace ++ [sloc]) trace
  | _ => trace
  end.

(** [deep_first_search_by_pc]: the callback runs after the children of a DIE
    have been searched. [branch_has_pc] is declared outside the loop and is
    carried from one sibling to the next. *)
Fixpoint deep_first_search_by_pc {S : Type} (cb : Die -> S -> S)
    (parent : Die) (pc : Z) (s : S) : bool * S :=
  let fix siblings (ds : list Die) (branch_has_pc : bool) (s : S) : bool * S :=
    match ds with
    | [] => (branch_has_pc, s)
    | d :: rest =>
        let '(b1, s1) :=
          if negb (flag_set (at_declaration (attrs d)))
          then deep_first_search_by_pc cb d pc s
          else (branch_has_pc, s) in
        let b2 := if b1 then true else die_has_pc d pc in
        let s2 := if b2 then cb d s1 else s1 in
        if sibling_err (attrs d) then (b2, s2) else siblings rest b2 s2
    end in
  match parent with
  | Die_mk _ [] => (false, s)
  | Die_mk _ cs => siblings cs false s
  end.

(** The unit holding [trace_addr]: [dwfl_module_addrdie], and when that
    fails the first unit of [dwfl_module_nextcu] in which
    [find_fundie_by_pc] finds the biased address. *)
Definition find_cudie (m : Dwfl_Module) (trace_addr : Z) : option (Die * Z) :=
  match addrdie m trace_addr with
  | Some r => Some r
  | None =>
      List.find (fun cu => find_fundie_by_pc (fst cu) ((trace_addr - snd cu) mod 2 ^ 64))
                (nextcu m)
  end.

(** The part of [resolve] after the session is known to be live. *)
Definition resolve_with (env : Env) (h : Dwfl) (trace : ResolvedTrace) : ResolvedTrace :=
  let trace_addr := addr trace in
  let md := addrmodule h trace_addr in
  let trace :=
    match md with
    | Some m =>
        let trace := match module_name m with
                     | Some n => set_object_filename n trace
                     | None => trace
                     end in
        match addrname m trace_addr with
        | Some sym => set_object_function (demangle env sym) trace
        | None => trace
        end
    | None => trace
    end in
  match md with
  | None => trace
  | Some m =>
      match find_cudie m trace_addr with
      | None => trace
      | Some (cudie, mod_bias) =>
          let pc := (trace_addr - mod_bias) mod 2 ^ 64 in
          let trace :=
            match getsrc_die m cudie pc with
            | Some srcloc =>
                let trace := match linesrc srcloc with
                             | Some f => set_source_filename f trace
                             | None => trace
                             end in
                set_source_col (u32 (linecol srcloc))
                  (set_source_line (u32 (lineno srcloc)) trace)
            | None => trace
            end in
          let trace :=
            snd (deep_first_search_by_pc (inliners_search_cb (srcfiles m cudie))
                   cudie pc trace) in
          if str_empty (sl_function (source trace))
          then set_source_function (object_function trace) trace
          else trace
      end
  end.

(** [resolve]: the session is opened on the first call only. The flag is
    set before the handle is tested, so a failed [dwfl_begin] is final. *)
Definition resolve (env : Env) (st : State) (trace : ResolvedTrace)
  : State * ResolvedTrace :=
  if negb (dwfl_handle_initialized st) then
    let st' := mkState (dwfl_begin env) true in
    match dwfl_begin env with
    | None => (st', trace)
    | Some h =>
        if dwfl_linux_proc_report env <? 0 then (st', trace)
        else (st', resolve_with env h trace)
    end
  else
    match dwfl_handle st with
    | None => (st, trace)
    | Some h => (st, resolve_with env h trace)
    end.

(** A run of the backend: each call sees the process as it is then. *)
Fixpoint resolve_all (st : State) (calls : list (Env * ResolvedTrace))
  : State * list ResolvedTrace :=
  match calls with
  | [] => (st, [])
  | (env, t) :: rest =>
      let '(st1, t1) := resolve env st t in
      let '(st2, ts) := resolve_all st1 rest in
      (st2, t1 :: ts)
  end.

Lemma resolve_initialized env st trace :
  dwfl_handle_initialized (fst (resolve env st trace)) = true.
Proof.
  unfold resolve. destruct (dwfl_handle_initialized st) eqn:Hi; cbn.
  - destruct (dwfl_handle st); exact Hi.
  - destruct (dwfl_begin env); [destruct (_ <? 0)|]; reflexivity.
Qed.

Lemma resolve_no_retry env st trace :
  dwfl_handle_initialized st = true -> fst (resolve env st trace) = st.
Proof.
  intros Hi. unfold resolve. rewrite Hi. cbn. by destruct (dwfl_handle st).
Qed.

Lemma resolve_dead_session env st trace :
  dwfl_handle_initialized st = true -> dwfl_handle st = None ->
  resolve env st trace = (st, trace).
Proof. intros Hi Hh. unfold resolve. by rewrite Hi, Hh. Qed.

Lemma resolve_all_dead_session calls : forall st,
  dwfl_handle_initialized st = true -> dwfl_handle st = None ->
  resolve_all st calls = (st, map snd calls).
Proof.
  induction calls as [|[env t] rest IH]; intros st Hi Hh; [reflexivity|].
  cbn [resolve_all]. rewrite (resolve_dead_session env st t Hi Hh).
  by rewrite (IH st Hi Hh).
Qed.

(** C10. The session is opened on the first call to resolve only. If
    [dwfl_begin] fails there, the first call returns its trace unchanged and
    leaves the flag set with a null handle; from any state with the flag set
    the session state is never changed again, whatever [dwfl_begin] would
    answer later; and every later call returns its input trace unchanged. *)
Theorem C10_failed_init_is_final (env0 : Env) (t0 : ResolvedTrace)
    (later : list (Env * ResolvedTrace)) :
  dwfl_begin env0 = None ->
  let st1 := fst (resolve env0 init t0) in
  resolve env0 init t0 = (mkState None true, t0)
  /\ (forall env st t, dwfl_handle_initialized st = true ->
        fst (resolve env st t) = st)
  /\ resolve_all st1 later = (st1, map snd later).
Proof.
  intros Hfail st1.
  assert (H0 : resolve env0 init t0 = (mkState None true, t0)).
  { unfold resolve, init. cbn. by rewrite Hfail. }
  split; [exact H0|]. split.
  - intros env st t. apply resolve_no_retry.
  - unfold st1. rewrite H0. cbn. by apply resolve_all_dead_session.
Qed.

Definition env_no_session : Env := mkEnv None 0 (fun s => s).
Definition env_live_session : Env := mkEnv (Some (mkDwfl (fun _ => None))) 0 (fun s => s).

Lemma C10_failed_init_is_final_witness :
  resolve env_no_session init (mk_trace 4096 0) = (mkState None true, mk_trace 4096 0)
  /\ resolve_all (fst (resolve env_no_session init (mk_trace 4096 0)))
       [(env_live_session, mk_trace 4096 0); (env_live_session, mk_trace 8192 1)]
     = (mkState None true, [mk_trace 4096 0; mk_trace 8192 1]).
Proof.
  destruct (C10_failed_init_is_final env_no_session (mk_trace 4096 0)
              [(env_live_session, mk_trace 4096 0); (env_live_session, mk_trace 8192 1)]
              eq_refl) as (H0 & _ & Hall).
  split; [exact H0|exact Hall].
Defined.

End Dw.

(** What [dladdr] reports: the path of the object holding an address and
    the name of the nearest symbol; a null pointer is [None]. *)
Record Dl_info := mkDlInfo {
  dli_fname : option string;
  dli_sname : option string;
}.

(** ** The libbfd backend: the object loader *)

Module Bfd.

(** A descriptor opened by [bfd_fdopenr], with what the queries of
    [load_object_with_bfd] answer on it: the format check, the [HAS_SYMS]
    flag, the storage bounds, and the two tables with the counts that
    canonicalizing them returns. *)
Record bfd := mkBfd {
  check_format : bool;
  has_syms : bool;
  symtab_upper_bound : Z;
  dynamic_symtab_upper_bound : Z;
  canonicalize_symtab : Z * list string;
  canonicalize_dynamic_symtab : Z * list string;
}.

Record bfd_fileobject := mkFobj {
  handle : option bfd;
  symtab : option (list string);
  dynamic_symtab : option (list string);
}.

Definition empty_fobj : bfd_fileobject := mkFobj None None None.

Record Env := mkEnv {
  dladdr : Z -> option Dl_info;
  argv0_ : string;
  exec_path_ : string;
  demangle : string -> string;
  stat_ino : string -> option Z;
  open_ : string -> Z;
  bfd_fdopenr : string -> Z -> option bfd;
}.

(** The members of the resolver; [opened] lists the paths passed to [open]
    and is not program state. *)
Record State := mkState {
  bfd_loaded : bool;
  fobj_bfd_map : gmap string bfd_fileobject;
  opened : list string;
}.

Definition init : State := mkState false ∅ [].

(** The body of [load_object_with_bfd] after the cache miss. *)
Definition parse_object (env : Env) (filename_object : string) : bfd_fileobject :=
  let r := empty_fobj in
  let fd := open_ env filename_object in
  match bfd_fdopenr env filename_object fd with
  | None => r
  | Some bfd_handle =>
      if negb (check_format bfd_handle) then r
      else if negb (has_syms bfd_handle) then r
      else
        let symtab_storage_size := symtab_upper_bound bfd_handle in
        let dyn_symtab_storage_size := dynamic_symtab_upper_bound bfd_handle in
        if (symtab_storage_size <=? 0) && (dyn_symtab_storage_size <=? 0) then r
        else
          let '(symcount, symtab) :=
            if 0 <? symtab_storage_size
            then (fst (canonicalize_symtab bfd_handle),
                  Some (snd (canonicalize_symtab bfd_handle)))
            else (0, None) in
          let '(dyn_symcount, dynamic_symtab) :=
            if 0 <? dyn_symtab_storage_size
            then (fst (canonicalize_dynamic_symtab bfd_handle),
                  Some (snd (canonicalize_dynamic_symtab bfd_handle)))
            else (0, None) in
          if (symcount <=? 0) && (dyn_symcount <=? 0) then r
          else mkFobj (Some bfd_handle) symtab dynamic_symtab
  end.

(** [load_object_with_bfd] *)
Definition load_object_with_bfd (env : Env) (st : State) (filename_object : string)
  : State * bfd_fileobject :=
  match fobj_bfd_map st !! filename_object with
  | Some fobj => (mkState true (fobj_bfd_map st) (opened st), fobj)
  | None =>
      let r := parse_object env filename_object in
      (mkState true (<[filename_object := r]> (fobj_bfd_map st))
               (opened st ++ [filename_object]), r)
  end.

(** [resolve_exec_path] *)
Definition resolve_exec_path (env : Env) (fname : string) : string * string :=
  if String.eqb fname (argv0_ env) then ("/proc/self/exe", exec_path_ env)
  else (fname, fname).

(** [resolve] up to the choice of the object file: either the trace is
    returned as it stands, or the search goes on in a loaded object. *)
Inductive located :=
| Returned (trace : ResolvedTrace)
| InObject (fobj : bfd_fileobject) (trace : ResolvedTrace).

Definition locate_object (env : Env) (st : State) (trace : ResolvedTrace)
  : State * located :=
  match dladdr env (addr trace) with
  | None => (st, Returned trace)
  | Some symbol_info =>
      let trace := match dli_sname symbol_info with
                   | Some sname => set_object_function (demangle env sname) trace
                   | None => trace
                   end in
      match dli_fname symbol_info with
      | None => (st, Returned trace)
      | Some fname =>
          let '(to_open, display) := resolve_exec_path env fname in
          let trace := set_object_filename display trace in
          let same_file :=
            match stat_ino env display, stat_ino env to_open with
            | Some obj_ino, Some dli_ino => obj_ino =? dli_ino
            | _, _ => false
            end in
          let '(st, first) :=
            if same_file
            then let '(st, fobj) := load_object_with_bfd env st display in (st, Some fobj)
            else (st, None) in
          match first with
          | Some (mkFobj (Some h) s d) => (st, InObject (mkFobj (Some h) s d) trace)
          | _ =>
              let '(st, fobj) := load_object_with_bfd env st to_open in
              match handle fobj with
              | None => (st, Returned trace)
              | Some _ => (st, InObject fobj trace)
              end
          end
      end
  end.

End Bfd.

(** ** Ordered maps, [std::map<Dwarf_Addr, V>]

    The line index and the symbol cache are searched with [lower_bound], so
    the order of the keys matters: a map is the list of its entries in
    strictly ascending key order. *)

Module OrdMap.
Section WithValue.
Context {V : Type}.

(** [m.insert({k, v})]: an existing entry is kept. *)
Fixpoint insert (k : Z) (v : V) (m : list (Z * V)) : list (Z * V) :=
  match m with
  | [] => [(k, v)]
  | (k', v') :: rest =>
      if k <? k' then (k, v) :: m
      else if k =? k' then m
      else (k', v') :: insert k v rest
  end.

(** [m[k] = v]: an existing entry is overwritten. *)
Fixpoint assign (k : Z) (v : V) (m : list (Z * V)) : list (Z * V) :=
  match m with
  | [] => [(k, v)]
  | (k', v') :: rest =>
      if k <? k' then (k, v) :: m
      else if k =? k' then (k, v) :: rest
      else (k', v') :: assign k v rest
  end.

(** [m.lower_bound(k)] as a position: the index of the first entry whose key
    is not below [k]; the length of the map stands for [m.end()]. *)
Fixpoint lower_bound (k : Z) (m : list (Z * V)) : nat :=
  match m with
  | [] => 0%nat
  | (k', _) :: rest => if k' <? k then S (lower_bound k rest) else 0%nat
  end.

End WithValue.
End OrdMap.

(** ** The libdwarf backend, [TraceResolverLinuxImpl<libdwarf>] *)

Module Dwarf.

(** One row of the line table, read with [dwarf_lineaddr], [dwarf_linesrc],
    [dwarf_lineno] and [dwarf_lineoff_b]; a failed read is [None]. *)
Record Dwarf_Line := mkLine {
  lineaddr : option Z;
  linesrc : option string;
  lineno : option Z;
  lineoff : option Z;
}.

(** One entry of [.debug_aranges]. *)
Record Dwarf_Arange := mkArange {
  ar_address : Z;
  ar_length : Z;
  ar_cu_die_offset : option Z;
}.

(** What libdwarf serves for one object ([Dwarf_Debug]): the unit DIEs of
    [.debug_info] in header order, the type units of [.debug_types] with
    their signatures, the address ranges, and per unit (by DIE offset) the
    line table and the file table. The line table is [None] when
    [dwarf_srclines_b] fails and [Some None] when the context is there but
    [dwarf_srclines_from_linecontext] fails. *)
Record Dwarf_Debug := mkDebug {
  cu_dies : list Die;
  type_units : list (list Z * option Die);
  aranges : option (list Dwarf_Arange);
  srclines : Z -> option (option (list Dwarf_Line));
  srcfiles : Z -> option (list string);
}.

(** The first answer of [f] along a list. *)
Fixpoint first_some {A B : Type} (f : A -> option B) (l : list A) : option B :=
  match l with
  | [] => None
  | x :: rest =>
      match f x with
      | Some y => Some y
      | None => first_some f rest
      end
  end.

(** [dwarf_offdie]: the DIE at a section offset, searched in document
    order. *)
Fixpoint find_off (off : Z) (d : Die) : option Die :=
  match d with
  | Die_mk a cs =>
      if die_cu_base a + die_cu_off a =? off then Some d
      else first_some (find_off off) cs
  end.

Definition offdie (dbg : Dwarf_Debug) (off : Z) : option Die :=
  first_some (find_off off) (cu_dies dbg).

(** [die_cache_entry]. [spec_section] is only searched by key and is a
    finite map; [line_section] is searched with [lower_bound] and keeps its
    order. [line_context] says that the line context is not null. *)
Record die_cache_entry := mkEntry {
  spec_section : gmap Z Z;
  line_section : list (Z * nat);
  line_buffer : option (list Dwarf_Line);
  line_count : Z;
  line_context : bool;
}.

Definition empty_entry : die_cache_entry := mkEntry ∅ [] None 0 false.

(** [die_cache_entry::isEmpty] *)
Definition isEmpty (e : die_cache_entry) : bool :=
  match line_buffer e with
  | None => true
  | Some _ =>
      (line_count e =? 0) || negb (line_context e)
      || match line_section e with [] => true | _ => false end
  end.

(** One ELF image as libelf reads it. A symbol carries its name as
    [elf_strptr] gives it from the string table: [None] is the null pointer
    of an offset that cannot be read. *)
Record Elf_Sym := mkSym {
  st_type : Z;
  st_value : Z;
  st_name : option string;
}.

Record Elf_Shdr := mkShdr {
  sh_name : option string;
  sh_type : Z;
  sh_size : Z;
  sh_entsize : Z;
  sh_link : Z;
}.

(** A section: its header ([None] when [elf_getshdr] fails), its data as
    [elf_getdata] gives it ([None] for the null pointer; else the size and,
    read as a C string, the contents), and for a symbol table the entries
    that the data buffer holds. *)
Record Elf_Scn := mkScn {
  shdr : option Elf_Shdr;
  scn_data : option (Z * string);
  scn_symbols : list Elf_Sym;
}.

Record Elf := mkElf {
  e_ident_class : option Z;
  getshdrnum_ok : bool;
  getshdrstrndx_ok : bool;
  sections : list Elf_Scn;
  dwarf_elf_init : option Dwarf_Debug;
}.

Definition ELFCLASS32 : Z := 1.
Definition ELFCLASS64 : Z := 2.
Definition SHT_SYMTAB : Z := 2.
Definition SHT_DYNSYM : Z := 11.
Definition STT_FUNC : Z := 2.

(** [dwarf_fileobject]. A handle is [None] while empty. [current_cu] points
    into [die_cache]; it is kept as the key of the entry. *)
Record dwarf_fileobject := mkFobj {
  file_handle : option Z;
  elf_handle : option Elf;
  dwarf_handle : option Dwarf_Debug;
  symbol_cache : list (Z * string);
  die_cache : gmap Z die_cache_entry;
  current_cu : option Z;
}.

Definition empty_fobj : dwarf_fileobject := mkFobj None None None [] ∅ None.

Definition set_current_cu (k : Z) (f : dwarf_fileobject) : dwarf_fileobject :=
  mkFobj (file_handle f) (elf_handle f) (dwarf_handle f) (symbol_cache f)
         (die_cache f) (Some k).

Definition with_entry (k : Z) (e : die_cache_entry) (f : dwarf_fileobject) :=
  mkFobj (file_handle f) (elf_handle f) (dwarf_handle f) (symbol_cache f)
         (<[k := e]> (die_cache f)) (Some k).

(** The specification map the file object currently points at. *)
Definition current_specs (f : dwarf_fileobject) : option (gmap Z Z) :=
  match current_cu f with
  | Some k =>
      match die_cache f !! k with
      | Some e => Some (spec_section e)
      | None => None
      end
  | None => None
  end.

(** [get_referenced_die]: follow a reference attribute whose form value is
    [ref]; [global] selects [dwarf_global_formref]. *)
Definition get_referenced_die (dbg : Dwarf_Debug) (d : Die) (ref : option Z)
    (global : bool) : option Die :=
  match ref with
  | Some r => offdie dbg (if global then die_cu_base (attrs d) + r else r)
  | None => None
  end.

(** [get_referenced_die_name]: the empty string when there is no name. *)
Definition get_referenced_die_name (dbg : Dwarf_Debug) (d : Die) (ref : option Z)
    (global : bool) : string :=
  match get_referenced_die dbg d ref global with
  | Some found => Dw.or_default (at_name (attrs found)) ""
  | None => ""
  end.

(** [get_spec_die]: the DIE completing [d] according to the specification
    map of the current unit, else its abstract origin. *)
Definition get_spec_die (specs : option (gmap Z Z)) (dbg : Dwarf_Debug) (d : Die)
  : option Die :=
  let cached :=
    match specs with
    | Some sm =>
        match sm !! die_cu_off (attrs d) with
        | Some off => offdie dbg off
        | None => None
        end
    | None => None
    end in
  match cached with
  | Some spec_die => Some spec_die
  | None => get_referenced_die dbg d (at_abstract_origin (attrs d)) true
  end.

Definition wrap64 (z : Z) : Z := z mod 2 ^ 64.

(** [die_has_pc]. The recursion follows specification links from DIE to DIE;
    [fuel] bounds its depth and [None] means the bound was reached. *)
Fixpoint die_has_pc (fuel : nat) (specs : option (gmap Z Z)) (dbg : Dwarf_Debug)
    (d : Die) (pc : Z) : option bool :=
  match fuel with
  | O => None
  | S fuel' =>
      match at_low_pc (attrs d), at_high_pc (attrs d) with
      | Some low_pc, Some (high_pc, cls) =>
          let high_pc := match cls with
                         | DW_FORM_CLASS_CONSTANT => wrap64 (low_pc + high_pc)
                         | DW_FORM_CLASS_ADDRESS => high_pc
                         end in
          Some ((low_pc <=? pc) && (pc <? high_pc))
      | o_low, _ =>
          let has_lowpc := match o_low with Some _ => true | None => false end in
          let low_pc := Dw.or_default o_low 0 in
          let has_ranges := match at_ranges (attrs d) with
                            | Some (_ :: _) => true
                            | _ => false
                            end in
          let in_ranges :=
            match at_ranges (attrs d) with
            | Some rs =>
                existsb (fun r => negb (fst r =? 0)
                                  && (wrap64 (fst r + low_pc) <=? pc)
                                  && (pc <? wrap64 (snd r + low_pc))) rs
            | None => false
            end in
          let result := in_ranges || (negb (low_pc =? 0) && (pc =? low_pc)) in
          if negb result && negb has_lowpc && negb has_ranges then
            match get_spec_die specs dbg d with
            | Some spec_die => die_has_pc fuel' specs dbg spec_die pc
            | None => Some false
            end
          else Some result
      end
  end.

(** [get_type]: the qualified name below a type unit, built along the first
    children. *)
Fixpoint get_type (d : Die) (type : string) : string :=
  match d with
  | Die_mk a cs =>
      let type := match cs with
                  | child :: _ => "::" +:+ get_type child type
                  | [] => type
                  end in
      match at_name a with
      | Some name => name +:+ type
      | None => "<unknown>" +:+ type
      end
  end.

(** [strncmp(a, b, 8) == 0] on two signatures: bytes are compared up to and
    including the first NUL. *)
Fixpoint strncmp_eq (n : nat) (a b : list Z) : bool :=
  match n with
  | O => true
  | S n' =>
      let x := hd 0 a in
      let y := hd 0 b in
      if x =? y then (if x =? 0 then true else strncmp_eq n' (tl a) (tl b))
      else false
  end.

Definition hex_digit (z : Z) : string :=
  match z with
  | 0 => "0" | 1 => "1" | 2 => "2" | 3 => "3" | 4 => "4" | 5 => "5"
  | 6 => "6" | 7 => "7" | 8 => "8" | 9 => "9" | 10 => "a" | 11 => "b"
  | 12 => "c" | 13 => "d" | 14 => "e" | _ => "f"
  end.

(** [setw(2) << setfill('0') << hex << (int)(unsigned char)b] *)
Definition hex_byte (b : Z) : string :=
  let u := b mod 256 in hex_digit (u / 16) +:+ hex_digit (u mod 16).

Fixpoint hex_bytes (n : nat) (bs : list Z) : string :=
  match n with
  | O => ""
  | S n' => hex_byte (hd 0 bs) +:+ hex_bytes n' (tl bs)
  end.

(** [get_type_by_signature], for a DIE whose [DW_AT_signature] is present;
    [sig] is what [dwarf_formsig8] reads. *)
Definition get_type_by_signature (dbg : Dwarf_Debug) (sig : option (list Z)) : string :=
  match sig with
  | None => "<no type signature>"
  | Some signature =>
      let step (acc : string * bool) (tu : list Z * option Die) :=
        if strncmp_eq 8 signature (fst tu) then
          match snd tu with
          | Some (Die_mk _ (child_die :: _)) =>
              let result := get_type child_die (fst acc) in
              (result, negb (str_empty result))
          | _ => acc
          end
        else acc in
      let '(result, found) := fold_left step (type_units dbg) ("", false) in
      if found then result
      else "<0x" +:+ hex_bytes 8 signature +:+ ">"
  end.

(** [type_context_t] *)
Record type_context_t := mkCtx {
  is_const : bool;
  is_typedef : bool;
  has_type : bool;
  has_name : bool;
  text : string;
}.

Definition new_context : type_context_t := mkCtx false false false false "".

(** [s.insert(0, " ")] when [s] is not empty. *)
Definition space_before (s : string) : string :=
  if str_empty s then s else " " +:+ s.

Definition prefix_text (p : string) (c : type_context_t) : type_context_t :=
  mkCtx (is_const c) (is_typedef c) (has_type c) (has_name c) (p +:+ text c).

(** The first part of [set_parameter_string]: the name of the DIE goes in
    front of the text, unless the DIE is the base type of a typedef just
    printed. *)
Definition apply_name (d : Die) (context : type_context_t) : type_context_t :=
  if negb (is_typedef context) then
    match at_name (attrs d) with
    | Some name =>
        mkCtx (is_const context) (is_typedef context) (has_type context)
              (has_name context) (name +:+ space_before (text context))
    | None => context
    end
  else
    mkCtx false false true (has_name context)
          (if is_const context then "const " +:+ text context else text context).

(** The [switch] on the tag: the context, [next_type_is_const] and
    [is_keyword]. *)
Definition apply_tag (dbg : Dwarf_Debug) (d : Die) (c1 : type_context_t)
  : type_context_t * bool * bool :=
  match tag d with
  | DW_TAG_structure_type | DW_TAG_union_type
  | DW_TAG_class_type | DW_TAG_enumeration_type =>
      let txt :=
        match at_signature (attrs d) with
        | Some sig =>
            let type := get_type_by_signature dbg sig in
            let type := if is_const c1 then "const " +:+ type else type in
            type +:+ space_before (text c1)
        | None => text c1
        end in
      (mkCtx (is_const c1)
             (match tag d with DW_TAG_enumeration_type => true | _ => false end)
             true (has_name c1) txt, false, true)
  | DW_TAG_const_type => (c1, true, true)
  | DW_TAG_pointer_type => (prefix_text "*" c1, false, true)
  | DW_TAG_reference_type => (prefix_text "&" c1, false, true)
  | DW_TAG_restrict_type => (prefix_text "restrict " c1, false, true)
  | DW_TAG_rvalue_reference_type => (prefix_text "&&" c1, false, true)
  | DW_TAG_volatile_type => (prefix_text "volatile " c1, false, true)
  | DW_TAG_typedef =>
      (mkCtx (is_const c1) true true (has_name c1) (text c1), is_const c1, true)
  | DW_TAG_base_type =>
      (mkCtx (is_const c1) (is_typedef c1) true (has_name c1) (text c1), false, true)
  | DW_TAG_formal_parameter =>
      (mkCtx (is_const c1) (is_typedef c1) (has_type c1) true (text c1), false, true)
  | _ => (c1, false, false)
  end.

(** What [set_parameter_string] does on the DIE itself, before it follows
    [DW_AT_type]. *)
Definition apply_die (dbg : Dwarf_Debug) (d : Die) (context : type_context_t)
  : type_context_t :=
  let '(c2, next_type_is_const, is_keyword) := apply_tag dbg d (apply_name d context) in
  let c3 := if negb is_keyword && is_const c2 then prefix_text "const " c2 else c2 in
  mkCtx next_type_is_const (is_typedef c3) (has_type c3) (has_name c3) (text c3).

(** The last statement: a parameter without any type is [void]. *)
Definition void_if_untyped (c : type_context_t) : type_context_t :=
  if negb (has_type c) && has_name c
  then mkCtx (is_const c) (is_typedef c) true (has_name c) ("void " +:+ text c)
  else c.

(** [set_parameter_string]: one step for the DIE itself, then the DIE its
    [DW_AT_type] refers to. [fuel] bounds the length of the type chain. *)
Fixpoint set_parameter_string (fuel : nat) (dbg : Dwarf_Debug) (d : Die)
    (context : type_context_t) : option type_context_t :=
  match fuel with
  | O => None
  | S fuel' =>
      let c4 := apply_die dbg d context in
      c5 ← match get_referenced_die dbg d (at_type (attrs d)) true with
           | Some ref => set_parameter_string fuel' dbg ref c4
           | None => Some c4
           end;
      Some (void_if_untyped c5)
  end.

(** The parameter list of [set_function_parameters]: the loop over the
    children of the specification DIE. *)
Fixpoint collect_parameters (fuel : nat) (dbg : Dwarf_Debug) (ds : list Die)
    (parameters : string) : option string :=
  match ds with
  | [] => Some parameters
  | current_die :: rest =>
      p ← (if is_formal_parameter (tag current_die)
              && negb (flag_set (at_artificial (attrs current_die)))
           then
             context ← set_parameter_string fuel dbg current_die new_context;
             Some ((if str_empty parameters then "(" else parameters +:+ ", ")
                   +:+ text context)
           else Some parameters);
      if sibling_err (attrs current_die) then Some p
      else collect_parameters fuel dbg rest p
  end.

(** [ns_name]: every enclosing scope followed by ["::"]. *)
Fixpoint ns_prefix (ns : list string) : string :=
  match ns with
  | [] => ""
  | n :: rest => n +:+ "::" +:+ ns_prefix rest
  end.

Definition close_parameters (parameters : string) : string :=
  (if str_empty parameters then "(" else parameters) +:+ ")".

(** [set_function_parameters]: the function name with its return type,
    scopes and parameters. *)
Definition set_function_parameters (fuel : nat) (specs : option (gmap Z Z))
    (dbg : Dwarf_Debug) (function_name : string) (ns : list string) (d : Die)
  : option string :=
  let spec_die := Dw.or_default (get_spec_die specs dbg d) d in
  let function_name := ns_prefix ns +:+ function_name in
  let return_type := get_referenced_die_name dbg d (at_type (attrs d)) true in
  let return_type :=
    if str_empty return_type
    then get_referenced_die_name dbg spec_die (at_type (attrs spec_die)) true
    else return_type in
  let function_name :=
    if str_empty return_type then function_name
    else return_type +:+ " " +:+ function_name in
  parameters ← collect_parameters fuel dbg (children spec_die) "";
  Some (function_name +:+ close_parameters parameters).

(** [die_call_file] *)
Definition die_call_file (dbg : Dwarf_Debug) (d cu_die : Die) : string :=
  match at_call_file (attrs d) with
  | None => ""
  | Some file_index =>
      if file_index =? 0 then ""
      else match srcfiles dbg (dieoffset cu_die) with
           | Some files =>
               if (0 <? Z.of_nat (length files)) && (file_index <=? Z.of_nat (length files))
               then Dw.or_default (files !! Z.to_nat (file_index - 1)) ""
               else ""
           | None => ""
           end
  end.

(** The location pushed for a [DW_TAG_inlined_subroutine]. *)
Definition inliner_loc (fuel : nat) (specs : option (gmap Z Z)) (dbg : Dwarf_Debug)
    (cu_die d : Die) (ns : list string) : option SourceLoc :=
  let name :=
    match at_name (attrs d) with
    | Some name => name
    | None => get_referenced_die_name dbg d (at_abstract_origin (attrs d)) true
    end in
  function ← set_function_parameters fuel specs dbg name ns d;
  Some (mkSourceLoc (die_call_file dbg d cu_die) function
          (u32 (Dw.or_default (at_call_line (attrs d)) 0))
          (u32 (Dw.or_default (at_call_column (attrs d)) 0))).

(** [inliners_search_cb::operator()] *)
Definition inliners_search_cb (fuel : nat) (demangle : string -> string)
    (specs : option (gmap Z Z)) (dbg : Dwarf_Debug) (cu_die : Die)
    (d : Die) (ns : list string) (trace : ResolvedTrace) : option ResolvedTrace :=
  match tag d with
  | DW_TAG_subprogram =>
      if negb (str_empty (sl_function (source trace))) then Some trace
      else
        let name :=
          match at_name (attrs d) with
          | Some name => name
          | None =>
              let n := get_referenced_die_name dbg d (at_abstract_origin (attrs d)) true in
              if str_empty n
              then get_referenced_die_name dbg d (at_specification (attrs d)) true
              else n
          end in
        function ← set_function_parameters fuel specs dbg name ns d;
        let trace := set_source_function function trace in
        if str_empty (object_function trace) then
          match at_linkage_name (attrs d), at_MIPS_linkage_name (attrs d) with
          | Some linkage, _ | None, Some linkage =>
              Some (set_object_function (demangle linkage) trace)
          | None, None => Some trace
          end
        else Some trace
  | DW_TAG_inlined_subroutine =>
      sloc ← inliner_loc fuel specs dbg cu_die d ns;
      Some (set_inliners (inliners trace ++ [sloc]) trace)
  | _ => Some trace
  end.

(** One turn of the loop of [find_fundie_by_pc] on [current_die]; [search]
    is the recursive call. Inside the fuel option, [Some r] is [return r]
    (with [None] the null DIE) and [None] goes on to the next sibling. The
    recursive call receives its [result] slot by value, so the DIE it finds
    cannot come back through [die_mem]: a match found below a child makes the
    caller return [die_mem], which is null. *)
Definition fundie_visit (fuel : nat) (specs : option (gmap Z Z)) (dbg : Dwarf_Debug)
    (pc : Z) (search : Die -> option (option Die)) (current_die : Die)
  : option (option (option Die)) :=
  has ← (if is_subprogram (tag current_die) || is_inlined_subroutine (tag current_die)
         then die_has_pc fuel specs dbg current_die pc
         else Some false);
  if has : bool then Some (Some (Some current_die))
  else
    indie ← (if negb (flag_set (at_declaration (attrs current_die)))
             then search current_die
             else Some None);
    match indie with
    | Some _ => Some (Some None)
    | None =>
        if sibling_err (attrs current_die) then Some (Some None) else Some None
    end.

Fixpoint fundie_walk (visit : Die -> option (option (option Die))) (ds : list Die)
  : option (option Die) :=
  match ds with
  | [] => Some None
  | current_die :: rest =>
      r ← visit current_die;
      match r with
      | Some ret => Some ret
      | None => fundie_walk visit rest
      end
  end.

(** [find_fundie_by_pc] *)
Fixpoint find_fundie_by_pc (fuel : nat) (specs : option (gmap Z Z))
    (dbg : Dwarf_Debug) (parent : Die) (pc : Z) {struct parent} : option (option Die) :=
  match parent with
  | Die_mk _ cs =>
      fundie_walk (fundie_visit fuel specs dbg pc
                     (fun d => find_fundie_by_pc fuel specs dbg d pc)) cs
  end.

(** The scope name pushed for a namespace or class DIE. *)
Definition scope_name (d : Die) : string := Dw.or_default (at_name (attrs d)) "<unknown>".

Definition opens_scope (d : Die) : bool :=
  is_namespace (tag d) || is_class_type (tag d).

(** The [declaration] flag of [deep_first_search_by_pc]: class types are
    always entered. *)
Definition is_declaration (d : Die) : bool :=
  negb (is_class_type (tag d)) && flag_set (at_declaration (attrs d)).

(** One turn of the loop of [deep_first_search_by_pc] on [current_die];
    [search] is the recursive call. The first component of the result says
    that [dwarf_siblingof] reported [DW_DLV_ERROR]: the function then returns
    false without popping the scope it pushed. [branch_has_pc] lives outside
    the loop: a declaration, which is not searched, inherits the value left
    by its previous sibling. *)
Definition dfs_visit {S : Type} (fuel : nat) (specs : option (gmap Z Z))
    (dbg : Dwarf_Debug) (cb : Die -> list string -> S -> option S) (pc : Z)
    (search : Die -> list string -> S -> option (bool * list string * S))
    (current_die : Die) (branch_has_pc : bool) (ns : list string) (s : S)
  : option (bool * bool * list string * S) :=
  let has_namespace := opens_scope current_die in
  let ns := if has_namespace then ns ++ [scope_name current_die] else ns in
  '(b1, ns, s) ← (if negb (is_declaration current_die)
                  then search current_die ns s
                  else Some (branch_has_pc, ns, s));
  b2 ← (if b1 : bool then Some true else die_has_pc fuel specs dbg current_die pc);
  s ← (if b2 : bool then cb current_die ns s else Some s);
  if sibling_err (attrs current_die) then Some (true, false, ns, s)
  else Some (false, b2, if has_namespace then removelast ns else ns, s).

(** The loop over the siblings. *)
Fixpoint dfs_walk {S : Type}
    (visit : Die -> bool -> list string -> S -> option (bool * bool * list string * S))
    (ds : list Die) (branch_has_pc : bool) (ns : list string) (s : S)
  : option (bool * list string * S) :=
  match ds with
  | [] => Some (branch_has_pc, ns, s)
  | current_die :: rest =>
      '(err, b, ns, s) ← visit current_die branch_has_pc ns s;
      if err : bool then Some (false, ns, s) else dfs_walk visit rest b ns s
  end.

(** [deep_first_search_by_pc], for any callback [cb]. The state [s] stands
    for what the callback holds by reference; [ns] is the scope stack, also
    held by reference. A DIE's callback runs after its children were
    searched. *)
Fixpoint deep_first_search_by_pc {S : Type} (fuel : nat) (specs : option (gmap Z Z))
    (dbg : Dwarf_Debug) (cb : Die -> list string -> S -> option S)
    (parent : Die) (pc : Z) (ns : list string) (s : S) {struct parent}
  : option (bool * list string * S) :=
  match parent with
  | Die_mk _ [] => Some (false, ns, s)
  | Die_mk _ cs =>
      dfs_walk (dfs_visit fuel specs dbg cb pc
                  (fun d => deep_first_search_by_pc fuel specs dbg cb d pc))
               cs false ns s
  end.

(** [dwarf_get_arange]: the first range holding the address. *)
Definition get_arange (ars : list Dwarf_Arange) (a : Z) : option Dwarf_Arange :=
  List.find (fun ar => (ar_address ar <=? a) && (a <? wrap64 (ar_address ar + ar_length ar))) ars.

(** The first unit DIE accepted by a test that may run out of fuel. *)
Fixpoint first_cu (test : Die -> option bool) (cus : list Die) : option (option Die) :=
  match cus with
  | [] => Some None
  | cu :: rest =>
      ok ← test cu;
      if ok : bool then Some (Some cu) else first_cu test rest
  end.

(** [find_die]: the unit of an address, from [.debug_aranges] if it answers,
    else the first unit whose own range holds the address, else the first
    unit in which [find_fundie_by_pc] returns a DIE. *)
Definition find_die (fuel : nat) (specs : option (gmap Z Z)) (dbg : Dwarf_Debug)
    (a : Z) : option (option Die) :=
  let by_aranges :=
    match aranges dbg with
    | Some ars =>
        match get_arange ars a with
        | Some arange =>
            match ar_cu_die_offset arange with
            | Some cu_die_offset => offdie dbg cu_die_offset
            | None => None
            end
        | None => None
        end
    | None => None
    end in
  match by_aranges with
  | Some returnDie => Some (Some returnDie)
  | None =>
      by_range ← first_cu (fun cu => if is_compile_unit (tag cu)
                                     then die_has_pc fuel specs dbg cu a
                                     else Some false) (cu_dies dbg);
      match by_range with
      | Some returnDie => Some (Some returnDie)
      | None =>
          first_cu (fun cu => r ← find_fundie_by_pc fuel specs dbg cu a;
                              Some (match r with Some _ => true | None => false end))
                   (cu_dies dbg)
      end
  end.

(** The address index of [get_die_cache]: row [i] is entered under its
    address (0 if unreadable) unless the address is already there. *)
Fixpoint index_lines (lines : list Dwarf_Line) (i : nat) (m : list (Z * nat))
  : list (Z * nat) :=
  match lines with
  | [] => m
  | l :: rest =>
      index_lines rest (S i) (OrdMap.insert (Dw.or_default (lineaddr l) 0) i m)
  end.

(** The specification map of [get_die_cache]: for each function DIE directly
    below the unit that carries [DW_AT_specification], the referenced
    (unit-relative) offset is mapped to the DIE's own offset. *)
Fixpoint index_specs (ds : list Die) (m : gmap Z Z) : gmap Z Z :=
  match ds with
  | [] => m
  | current_die :: rest =>
      let m :=
        if is_subprogram (tag current_die) || is_inlined_subroutine (tag current_die)
        then match at_specification (attrs current_die) with
             | Some spec_offset => <[spec_offset := dieoffset current_die]> m
             | None => m
             end
        else m in
      if sibling_err (attrs current_die) then m else index_specs rest m
  end.

Definition build_entry (dbg : Dwarf_Debug) (d : Die) : die_cache_entry :=
  let specs := index_specs (children d) ∅ in
  match srclines dbg (dieoffset d) with
  | None => mkEntry specs [] None 0 false
  | Some None => mkEntry specs [] None 0 true
  | Some (Some lines) =>
      mkEntry specs (index_lines lines 0 []) (Some lines) (Z.of_nat (length lines)) true
  end.

(** [get_die_cache] *)
Definition get_die_cache (dbg : Dwarf_Debug) (fobj : dwarf_fileobject) (d : Die)
  : dwarf_fileobject * die_cache_entry :=
  let die_offset := dieoffset d in
  match die_cache fobj !! die_offset with
  | Some e => (set_current_cu die_offset fobj, e)
  | None =>
      let de := build_entry dbg d in
      (with_entry die_offset de fobj, de)
  end.

(** The loader uses three values unchecked: it divides by [sh_entsize],
    reads through the pointer that [elf_getdata] returns for the symbol
    section, and builds a [std::string] from the pointer that [elf_strptr]
    returns for a symbol name. With a zero or a null pointer there the
    behaviour is undefined and the call does not return: [Crash]. *)
Inductive outcome (A : Type) :=
| Done (a : A)
| Crash.
Arguments Done {A} a.
Arguments Crash {A}.

#[export] Instance outcome_bind : MBind outcome := fun A B k o =>
  match o with
  | Done a => k a
  | Crash => Crash
  end.

(** [ELF_GET_DATA]: the loop over the sections. *)
Record scan := mkScan {
  debuglink : string;
  symbol_section : option Elf_Scn;
  symbol_count : Z;
  symbol_strings : Z;
}.

(** [symbol_section = elf_section] and the two assignments after it. *)
Definition take_table (elf_section : Elf_Scn) (section_header : Elf_Shdr) (acc : scan)
  : outcome scan :=
  if sh_entsize section_header =? 0 then Crash
  else Done (mkScan (debuglink acc) (Some elf_section)
                    (sh_size section_header / sh_entsize section_header)
                    (sh_link section_header)).

(** [Done None] is one of the [return r] inside the loop. *)
Fixpoint scan_sections (scns : list Elf_Scn) (acc : scan) : outcome (option scan) :=
  match scns with
  | [] => Done (Some acc)
  | elf_section :: rest =>
      match shdr elf_section with
      | None => Done None
      | Some section_header =>
          match sh_name section_header with
          | None => Done None
          | Some section_name =>
              let acc :=
                if String.eqb section_name ".gnu_debuglink" then
                  match scn_data elf_section with
                  | Some (d_size, d_buf) =>
                      if 0 <? d_size
                      then mkScan d_buf (symbol_section acc) (symbol_count acc)
                                  (symbol_strings acc)
                      else acc
                  | None => acc
                  end
                else acc in
              acc ← (if sh_type section_header =? SHT_SYMTAB
                     then take_table elf_section section_header acc
                     else if sh_type section_header =? SHT_DYNSYM then
                       match symbol_section acc with
                       | None => take_table elf_section section_header acc
                       | Some _ => Done acc
                       end
                     else Done acc);
              scan_sections rest acc
          end
      end
  end.

(** The function symbols entered into the cache, a later one replacing an
    earlier one at the same address. *)
Fixpoint cache_symbols (syms : list Elf_Sym) (m : list (Z * string))
  : outcome (list (Z * string)) :=
  match syms with
  | [] => Done m
  | symbol :: rest =>
      if (st_type symbol =? STT_FUNC) && (0 <? st_value symbol) then
        match st_name symbol with
        | Some name => cache_symbols rest (OrdMap.assign (st_value symbol) name m)
        | None => Crash
        end
      else cache_symbols rest m
  end.

(** The loop over the [symbol_count] entries of the symbol section. The
    entries are read from the buffer of [elf_getdata]; a count beyond the
    entries of the buffer reads past its end. *)
Definition symbols_of_scan (sc : scan) : outcome (list (Z * string)) :=
  match symbol_section sc with
  | Some symbol_section =>
      if negb (symbol_count sc =? 0) && negb (symbol_strings sc =? 0) then
        match scn_data symbol_section with
        | None => Crash
        | Some _ =>
            if Z.of_nat (length (scn_symbols symbol_section)) <? symbol_count sc
            then Crash
            else cache_symbols
                   (firstn (Z.to_nat (symbol_count sc)) (scn_symbols symbol_section)) []
        end
      else Done []
  | None => Done []
  end.

(** What the section pass yields for an image: [Done None] for an early
    return, else the debug link (empty if none) and the symbol cache. An
    image that is neither 32- nor 64-bit is not scanned. *)
Definition elf_get_data (elf : Elf) (e_ident : Z)
  : outcome (option (string * list (Z * string))) :=
  if (e_ident =? ELFCLASS32) || (e_ident =? ELFCLASS64) then
    sc ← scan_sections (sections elf) (mkScan "" None 0 0);
    match sc with
    | None => Done None
    | Some sc =>
        symbols ← symbols_of_scan sc;
        Done (Some (debuglink sc, symbols))
    end
  else Done (Some ("", [])).

(** The process and the file system as [resolve] meets them. [dladdr1]
    gives the symbol information and the load address [l_addr] of the
    object holding an address; [open_] gives a descriptor, negative on
    failure; [elf_begin] is [None] when libelf rejects the descriptor. *)
Record Env := mkEnv {
  dladdr1 : Z -> option (Dl_info * Z);
  argv0_ : string;
  exec_path_ : string;
  demangle : string -> string;
  elf_version_ok : bool;
  open_ : string -> Z;
  elf_begin : Z -> option Elf;
}.

(** The members of the resolver. [opened] is not program state: it lists the
    paths passed to [open], in order. *)
Record State := mkState {
  dwarf_loaded : bool;
  fobj_dwarf_map : gmap string dwarf_fileobject;
  opened : list string;
}.

Definition init : State := mkState false ∅ [].

(** The body of [load_object_with_dwarf] for a path that is not cached yet:
    the object to be stored, and the paths opened on the way. *)
Definition parse_object (env : Env) (filename_object : string)
  : outcome (dwarf_fileobject * list string) :=
  let r := empty_fobj in
  let fd := open_ env filename_object in
  if fd <? 0 then Done (r, [filename_object]) else
  match elf_begin env fd with
  | None => Done (r, [filename_object])
  | Some elf =>
      match e_ident_class elf with
      | None => Done (r, [filename_object])
      | Some e_ident =>
          if negb (getshdrnum_ok elf) || negb (getshdrstrndx_ok elf)
          then Done (r, [filename_object]) else
          data ← elf_get_data elf e_ident;
          match data with
          | None => Done (r, [filename_object])
          | Some (debuglink, symbols) =>
              let r := mkFobj None None None symbols ∅ None in
              let '(file_handle, elf_handle, log) :=
                if str_empty debuglink then (fd, elf, [filename_object])
                else
                  let debuglink_file := open_ env debuglink in
                  let log := [filename_object; debuglink] in
                  if 0 <? debuglink_file then
                    match elf_begin env debuglink_file with
                    | Some debuglink_elf => (debuglink_file, debuglink_elf, log)
                    | None => (fd, elf, log)
                    end
                  else (fd, elf, log) in
              match dwarf_elf_init elf_handle with
              | None => Done (r, log)
              | Some dwarf_debug =>
                  Done (mkFobj (Some file_handle) (Some elf_handle) (Some dwarf_debug)
                               symbols ∅ None, log)
              end
          end
      end
  end.

(** [load_object_with_dwarf] *)
Definition load_object_with_dwarf (env : Env) (st : State) (filename_object : string)
  : outcome (State * dwarf_fileobject) :=
  let loaded := if dwarf_loaded st then true else elf_version_ok env in
  match fobj_dwarf_map st !! filename_object with
  | Some fobj => Done (mkState loaded (fobj_dwarf_map st) (opened st), fobj)
  | None =>
      '(r, log) ← parse_object env filename_object;
      Done (mkState loaded (<[filename_object := r]> (fobj_dwarf_map st))
                    (opened st ++ log), r)
  end.

(** [resolve_exec_path]: the path to open and the path to display. *)
Definition resolve_exec_path (env : Env) (fname : string) : string * string :=
  if String.eqb fname (argv0_ env) then ("/proc/self/exe", exec_path_ env)
  else (fname, fname).

(** The symbol-table fallback for [object_function]: the entry at
    [lower_bound(address)], stepped back once when its key differs and it is
    not the first; nothing when [lower_bound] is [end()]. *)
Definition lookup_symbol (symbols : list (Z * string)) (address : Z) : option string :=
  let i := OrdMap.lower_bound address symbols in
  match symbols !! i with
  | None => None
  | Some (k, name) =>
      if k =? address then Some name
      else match i with
           | O => Some name
           | S j => snd <$> symbols !! j
           end
  end.

(** The row of the line table for an address: [None] when [lower_bound] is
    [end()], or is the first entry with a different key. *)
Definition lookup_line (line_section : list (Z * nat)) (address : Z) : option nat :=
  let i := OrdMap.lower_bound address line_section in
  match line_section !! i with
  | None => None
  | Some (k, row) =>
      if k =? address then Some row
      else match i with
           | O => None
           | S j => snd <$> line_section !! j
           end
  end.

Definition unreadable_line : Dwarf_Line := mkLine None None None None.

(** The source fields read from a row: [dwarf_linesrc], [dwarf_lineno],
    [dwarf_lineoff_b]. *)
Definition set_line_info (line : Dwarf_Line) (trace : ResolvedTrace) : ResolvedTrace :=
  let trace := match linesrc line with
               | Some filename => set_source_filename filename trace
               | None => trace
               end in
  let trace := set_source_line (u32 (Dw.or_default (lineno line) 0)) trace in
  set_source_col (u32 (Dw.or_default (lineoff line) 0)) trace.

Definition store_fobj (path : string) (fobj : dwarf_fileobject) (st : State) : State :=
  mkState (dwarf_loaded st) (<[path := fobj]> (fobj_dwarf_map st)) (opened st).

(** The steps of [resolve] that need the debug data of the loaded object:
    everything after the test of [fobj.dwarf_handle]. The file object is
    used by reference, so its updated caches are returned with the trace. *)
Definition resolve_in_object (fuel : nat) (env : Env) (dbg : Dwarf_Debug)
    (fobj : dwarf_fileobject) (address : Z) (trace : ResolvedTrace)
  : option (dwarf_fileobject * ResolvedTrace) :=
  let trace :=
    if str_empty (object_function trace) then
      match lookup_symbol (symbol_cache fobj) address with
      | Some name => set_object_function (demangle env name) trace
      | None => trace
      end
    else trace in
  found ← find_die fuel (current_specs fobj) dbg address;
  match found with
  | None => Some (fobj, trace)
  | Some die =>
      let '(fobj, die_object) := get_die_cache dbg fobj die in
      if isEmpty die_object then Some (fobj, trace) else
      match lookup_line (line_section die_object) address with
      | None => Some (fobj, trace)
      | Some row =>
          let line := Dw.or_default
                        (Dw.or_default (line_buffer die_object) [] !! row)
                        unreadable_line in
          let trace := set_line_info line trace in
          let specs := current_specs fobj in
          '(_, _, trace) ← deep_first_search_by_pc fuel specs dbg
                             (inliners_search_cb fuel (demangle env) specs dbg die)
                             die address [] trace;
          Some (fobj, trace)
      end
  end.

(** [resolve]. [None] only when [fuel] did not cover a chain of DIE
    references; [Some Crash] when the loader does not return. *)
Definition resolve (fuel : nat) (env : Env) (st : State) (trace : ResolvedTrace)
  : option (outcome (State * ResolvedTrace)) :=
  match dladdr1 env (addr trace) with
  | None => Some (Done (st, trace))
  | Some (symbol_info, l_addr) =>
      let trace := match dli_sname symbol_info with
                   | Some sname => set_object_function (demangle env sname) trace
                   | None => trace
                   end in
      match dli_fname symbol_info with
      | None => Some (Done (st, trace))
      | Some fname =>
          let '(to_open, display) := resolve_exec_path env fname in
          let trace := set_object_filename display trace in
          match load_object_with_dwarf env st to_open with
          | Crash => Some Crash
          | Done (st, fobj) =>
              match dwarf_handle fobj with
              | None => Some (Done (st, trace))
              | Some dbg =>
                  let address := wrap64 (addr trace - l_addr) in
                  '(fobj, trace) ← resolve_in_object fuel env dbg fobj address trace;
                  Some (Done (store_fobj to_open fobj st, trace))
              end
          end
      end
  end.

(** ** Fixtures *)

Module Fixture.

Definition plain (t : Tag) (off : Z) (name : option string) : DieAttrs :=
  mkDieAttrs t 0 off name None None None None None None None None None None None None
             None None false.

Definition with_pc (low size : Z) (a : DieAttrs) : DieAttrs :=
  mkDieAttrs (die_tag a) (die_cu_base a) (die_cu_off a) (at_name a)
    (Some low) (Some (size, DW_FORM_CLASS_CONSTANT)) (at_ranges a) (at_declaration a)
    (at_artificial a) (at_type a) (at_abstract_origin a) (at_specification a)
    (at_signature a) (at_call_file a) (at_call_line a) (at_call_column a)
    (at_linkage_name a) (at_MIPS_linkage_name a) (sibling_err a).

Definition with_type (ref : Z) (a : DieAttrs) : DieAttrs :=
  mkDieAttrs (die_tag a) (die_cu_base a) (die_cu_off a) (at_name a)
    (at_low_pc a) (at_high_pc a) (at_ranges a) (at_declaration a)
    (at_artificial a) (Some ref) (at_abstract_origin a) (at_specification a)
    (at_signature a) (at_call_file a) (at_call_line a) (at_call_column a)
    (at_linkage_name a) (at_MIPS_linkage_name a) (sibling_err a).

Definition with_call (file line col : Z) (a : DieAttrs) : DieAttrs :=
  mkDieAttrs (die_tag a) (die_cu_base a) (die_cu_off a) (at_name a)
    (at_low_pc a) (at_high_pc a) (at_ranges a) (at_declaration a)
    (at_artificial a) (at_type a) (at_abstract_origin a) (at_specification a)
    (at_signature a) (Some file) (Some line) (Some col)
    (at_linkage_name a) (at_MIPS_linkage_name a) (sibling_err a).

Definition with_artificial (a : DieAttrs) : DieAttrs :=
  mkDieAttrs (die_tag a) (die_cu_base a) (die_cu_off a) (at_name a)
    (at_low_pc a) (at_high_pc a) (at_ranges a) (at_declaration a)
    (Some true) (at_type a) (at_abstract_origin a) (at_specification a)
    (at_signature a) (at_call_file a) (at_call_line a) (at_call_column a)
    (at_linkage_name a) (at_MIPS_linkage_name a) (sibling_err a).

(** [int foo(const char*, MyClass&)], compiled from a declaration without
    parameter names, at addresses 0x1000..0x10ff of its unit. *)
Definition foo_die : Die :=
  Die_mk (with_type 20 (with_pc 4096 256 (plain DW_TAG_subprogram 80 (Some "foo"))))
    [ Die_mk (with_type 50 (plain DW_TAG_formal_parameter 81 None)) [];
      Die_mk (with_type 70 (plain DW_TAG_formal_parameter 82 None)) [] ].

Definition foo_cu : Die :=
  Die_mk (plain DW_TAG_compile_unit 11 (Some "foo.cpp"))
    [ Die_mk (plain DW_TAG_base_type 20 (Some "int")) [];
      Die_mk (plain DW_TAG_base_type 30 (Some "char")) [];
      Die_mk (with_type 30 (plain DW_TAG_const_type 40 None)) [];
      Die_mk (with_type 40 (plain DW_TAG_pointer_type 50 None)) [];
      Die_mk (plain DW_TAG_class_type 60 (Some "MyClass")) [];
      Die_mk (with_type 60 (plain DW_TAG_reference_type 70 None)) [];
      foo_die ].

Definition foo_dbg : Dwarf_Debug :=
  mkDebug [foo_cu] [] None (fun _ => None) (fun _ => None).

(** A function [outer_fn] at 0x1000..0x10ff into which [mid] was inlined at
    line 10, into which [inner] was inlined at line 20. *)
Definition inner_die : Die :=
  Die_mk (with_call 1 20 7 (with_pc 4128 32 (plain DW_TAG_inlined_subroutine 130 (Some "inner")))) [].
Definition mid_die : Die :=
  Die_mk (with_call 1 10 3 (with_pc 4112 112 (plain DW_TAG_inlined_subroutine 120 (Some "mid"))))
    [inner_die].
Definition outer_die : Die :=
  Die_mk (with_pc 4096 256 (plain DW_TAG_subprogram 110 (Some "outer_fn"))) [mid_die].
Definition chain_cu : Die :=
  Die_mk (with_pc 4096 256 (plain DW_TAG_compile_unit 100 (Some "main.cpp"))) [outer_die].

Definition chain_lines : list Dwarf_Line :=
  [ mkLine (Some 4100) (Some "main.cpp") (Some 30) (Some 1);
    mkLine (Some 4128) (Some "main.cpp") (Some 42) (Some 5);
    mkLine (Some 4160) (Some "main.cpp") (Some 11) (Some 2) ].

Definition chain_dbg : Dwarf_Debug :=
  mkDebug [chain_cu] [] None
    (fun off => if off =? 100 then Some (Some chain_lines) else None)
    (fun off => if off =? 100 then Some ["main.cpp"] else None).

Definition chain_elf : Elf := mkElf (Some ELFCLASS64) true true [] (Some chain_dbg).

(** The same function inside [namespace app]. *)
Definition app_die : Die := Die_mk (plain DW_TAG_namespace 105 (Some "app")) [outer_die].
Definition app_cu : Die :=
  Die_mk (with_pc 4096 256 (plain DW_TAG_compile_unit 100 (Some "main.cpp"))) [app_die].
Definition app_dbg : Dwarf_Debug :=
  mkDebug [app_cu] [] None
    (fun off => if off =? 100 then Some (Some chain_lines) else None)
    (fun off => if off =? 100 then Some ["main.cpp"] else None).
Definition app_elf : Elf := mkElf (Some ELFCLASS64) true true [] (Some app_dbg).

(** A process whose only object is [/bin/app], loaded at address 0; the
    dynamic symbol of every address in it is [outer_fn]. *)
Definition chain_env : Env :=
  mkEnv (fun a => if (4096 <=? a) && (a <? 4352)
                  then Some (mkDlInfo (Some "/bin/app") (Some "outer_fn"), 0)
                  else None)
        "app" "/bin/app" (fun s => s) true
        (fun path => if String.eqb path "/bin/app" then 3 else -1)
        (fun fd => if fd =? 3 then Some chain_elf else None).

Definition app_env : Env :=
  mkEnv (fun a => if (4096 <=? a) && (a <? 4352)
                  then Some (mkDlInfo (Some "/bin/app") (Some "outer_fn"), 0)
                  else None)
        "app" "/bin/app" (fun s => s) true
        (fun path => if String.eqb path "/bin/app" then 3 else -1)
        (fun fd => if fd =? 3 then Some app_elf else None).

End Fixture.

(** ** The object loaders *)

(** An entry without handles: what a failed load leaves in the cache. The
    symbol cache may already be filled when the failure is a missing debug
    section, but no lookup reaches it without [dwarf_handle]. *)
Definition unloaded (f : dwarf_fileobject) : Prop :=
  file_handle f = None /\ elf_handle f = None /\ dwarf_handle f = None
  /\ die_cache f = ∅ /\ current_cu f = None.

Lemma parse_object_cases env path r log :
  parse_object env path = Done (r, log) ->
  unloaded r
  \/ exists fd elf dbg syms, r = mkFobj (Some fd) (Some elf) (Some dbg) syms ∅ None.
Proof.
  unfold parse_object, unloaded.
  destruct (open_ env path <? 0); [intros [= <- _]; left; done|].
  destruct (elf_begin env (open_ env path)) as [elf|]; [|intros [= <- _]; left; done].
  destruct (e_ident_class elf) as [cls|]; [|intros [= <- _]; left; done].
  destruct (negb (getshdrnum_ok elf) || negb (getshdrstrndx_ok elf));
    [intros [= <- _]; left; done|].
  destruct (elf_get_data elf cls) as [[[dl syms]|]|]; cbn;
    [|intros [= <- _]; left; done|done].
  destruct (str_empty dl).
  - destruct (dwarf_elf_init elf); intros [= <- _]; [right; eauto 6|left; done].
  - destruct (0 <? open_ env dl).
    + destruct (elf_begin env (open_ env dl)) as [elf2|].
      * destruct (dwarf_elf_init elf2); intros [= <- _]; [right; eauto 6|left; done].
      * destruct (dwarf_elf_init elf); intros [= <- _]; [right; eauto 6|left; done].
    + destruct (dwarf_elf_init elf); intros [= <- _]; [right; eauto 6|left; done].
Qed.

Lemma parse_object_failed env path r log :
  parse_object env path = Done (r, log) ->
  dwarf_handle r = None ->
  unloaded r.
Proof.
  intros Hp Hnone.
  destruct (parse_object_cases env path r log Hp) as [H|(fd & elf & dbg & syms & H)];
    [exact H|].
  rewrite H in Hnone. discriminate.
Qed.

Lemma load_stores env st path st1 f1 :
  load_object_with_dwarf env st path = Done (st1, f1) ->
  fobj_dwarf_map st1 !! path = Some f1.
Proof.
  unfold load_object_with_dwarf.
  destruct (fobj_dwarf_map st !! path) as [f|] eqn:Hf; [by intros [= <- <-]|].
  destruct (parse_object env path) as [[r log]|]; cbn; [|done].
  intros [= <- <-]. cbn. apply lookup_insert_eq.
Qed.

Lemma load_cached env st path f :
  fobj_dwarf_map st !! path = Some f ->
  load_object_with_dwarf env st path
  = Done (mkState (if dwarf_loaded st then true else elf_version_ok env)
                  (fobj_dwarf_map st) (opened st), f).
Proof. intros Hf. unfold load_object_with_dwarf. by rewrite Hf. Qed.

Lemma load_uncached env st path :
  fobj_dwarf_map st !! path = None ->
  load_object_with_dwarf env st path
  = '(r, log) ← parse_object env path;
    Done (mkState (if dwarf_loaded st then true else elf_version_ok env)
                  (<[path := r]> (fobj_dwarf_map st)) (opened st ++ log), r).
Proof. intros Hf. unfold load_object_with_dwarf. by rewrite Hf. Qed.

Lemma load_failed env st path st1 f1 :
  fobj_dwarf_map st !! path = None ->
  load_object_with_dwarf env st path = Done (st1, f1) ->
  dwarf_handle f1 = None ->
  unloaded f1.
Proof.
  intros Hf. rewrite (load_uncached _ _ _ Hf).
  destruct (parse_object env path) as [[r log]|] eqn:Hp; cbn; [|done].
  intros [= _ <-]. by apply (parse_object_failed env path r log).
Qed.

(** A load crashes only on a path that is not cached, inside the parse. *)
Lemma load_crash env st path :
  load_object_with_dwarf env st path = Crash ->
  fobj_dwarf_map st !! path = None /\ parse_object env path = Crash.
Proof.
  unfold load_object_with_dwarf.
  destruct (fobj_dwarf_map st !! path) as [f|]; [done|].
  by destruct (parse_object env path) as [[r log]|].
Qed.

(** An address whose object is cached without a debug handle gets the
    object-level names and nothing else; no file is opened. *)
Lemma resolve_unloaded fuel env st trace info l_addr fname f :
  dladdr1 env (addr trace) = Some (info, l_addr) ->
  dli_fname info = Some fname ->
  fobj_dwarf_map st !! fst (resolve_exec_path env fname) = Some f ->
  dwarf_handle f = None ->
  exists st' trace',
    resolve fuel env st trace = Some (Done (st', trace'))
    /\ fobj_dwarf_map st' = fobj_dwarf_map st /\ opened st' = opened st
    /\ source trace' = source trace /\ inliners trace' = inliners trace.
Proof.
  intros Hdl Hfn Hmap Hh. unfold resolve. rewrite Hdl, Hfn.
  destruct (resolve_exec_path env fname) as [to_open display]. cbn in Hmap.
  rewrite (load_cached _ _ _ _ Hmap), Hh.
  eexists _, _. split; [reflexivity|].
  destruct (dli_sname info); cbn; done.
Qed.

Lemma bfd_parse_object_cases env path :
  Bfd.parse_object env path = Bfd.empty_fobj
  \/ exists h, Bfd.handle (Bfd.parse_object env path) = Some h.
Proof.
  unfold Bfd.parse_object.
  destruct (Bfd.bfd_fdopenr env path _) as [h|]; [|by left].
  destruct (Bfd.check_format h); cbn; [|by left].
  destruct (Bfd.has_syms h); cbn; [|by left].
  destruct (_ && _); [by left|].
  destruct (0 <? Bfd.symtab_upper_bound h), (0 <? Bfd.dynamic_symtab_upper_bound h);
    destruct (_ && _); (by left) || (right; eauto).
Qed.

Lemma bfd_load_cached env st path f :
  Bfd.fobj_bfd_map st !! path = Some f ->
  Bfd.load_object_with_bfd env st path
  = (Bfd.mkState true (Bfd.fobj_bfd_map st) (Bfd.opened st), f).
Proof. intros Hf. unfold Bfd.load_object_with_bfd. by rewrite Hf. Qed.

Lemma bfd_load_stores env st path :
  Bfd.fobj_bfd_map (fst (Bfd.load_object_with_bfd env st path)) !! path
  = Some (snd (Bfd.load_object_with_bfd env st path)).
Proof.
  unfold Bfd.load_object_with_bfd.
  destruct (Bfd.fobj_bfd_map st !! path) as [f|] eqn:Hf; cbn; [exact Hf|].
  apply lookup_insert_eq.
Qed.

(** With the objects of an address cached as failed, the libbfd resolver
    returns the trace without opening a file. *)
Lemma bfd_locate_unloaded env st trace info fname f1 f2 :
  Bfd.dladdr env (addr trace) = Some info ->
  dli_fname info = Some fname ->
  Bfd.fobj_bfd_map st !! snd (Bfd.resolve_exec_path env fname) = Some f1 ->
  Bfd.fobj_bfd_map st !! fst (Bfd.resolve_exec_path env fname) = Some f2 ->
  Bfd.handle f1 = None -> Bfd.handle f2 = None ->
  exists st' trace',
    Bfd.locate_object env st trace = (st', Bfd.Returned trace')
    /\ Bfd.opened st' = Bfd.opened st
    /\ source trace' = source trace /\ inliners trace' = inliners trace.
Proof.
  intros Hdl Hfn H1 H2 Hh1 Hh2. unfold Bfd.locate_object. rewrite Hdl, Hfn.
  destruct (Bfd.resolve_exec_path env fname) as [to_open display]. cbn in H1, H2.
  assert (Hsrc : forall t : ResolvedTrace,
            source (set_object_filename display t) = source t
            /\ inliners (set_object_filename display t) = inliners t) by done.
  assert (Hsn : source (match dli_sname info with
                        | Some sname => set_object_function (Bfd.demangle env sname) trace
                        | None => trace end) = source trace
                /\ inliners (match dli_sname info with
                        | Some sname => set_object_function (Bfd.demangle env sname) trace
                        | None => trace end) = inliners trace)
    by (destruct (dli_sname info); done).
  destruct (match Bfd.stat_ino env display with Some _ => _ | None => _ end).
  - rewrite (bfd_load_cached _ _ _ _ H1).
    destruct f1 as [h1 s1 d1]. cbn in Hh1. subst h1.
    rewrite (bfd_load_cached env (Bfd.mkState true _ _) to_open f2 H2), Hh2.
    eexists _, _. split; [reflexivity|]. cbn. split; [done|]. exact Hsn.
  - rewrite (bfd_load_cached _ _ _ _ H2), Hh2.
    eexists _, _. split; [reflexivity|]. cbn. split; [done|]. exact Hsn.
Qed.

(** C6. Loading is idempotent per path and caches failures, in both
    loaders. After a load the path is in the cache with the object returned;
    loading the path again, whatever the file system has become, returns that
    same object, leaves the cache as it is and opens no file. A first load
    that ends without a debug handle (libdwarf) or without a bfd handle
    (libbfd) leaves an entry without any handle, and a later resolve of an
    address of that object returns with the source fields and the inliners
    untouched and opens nothing. The only libdwarf load that does not
    return is a first load of a path whose parse meets an unreadable symbol
    table; a load of a cached path always returns. *)
Theorem C6_load_idempotent_failure_cached :
  (forall env st path,
     match load_object_with_dwarf env st path with
     | Done (st1, f1) =>
         fobj_dwarf_map st1 !! path = Some f1
         /\ (forall env', exists st2,
               load_object_with_dwarf env' st1 path = Done (st2, f1)
               /\ fobj_dwarf_map st2 = fobj_dwarf_map st1
               /\ opened st2 = opened st1)
         /\ (fobj_dwarf_map st !! path = None -> dwarf_handle f1 = None ->
             unloaded f1
             /\ forall fuel env' trace info l_addr fname,
                  dladdr1 env' (addr trace) = Some (info, l_addr) ->
                  dli_fname info = Some fname ->
                  fst (resolve_exec_path env' fname) = path ->
                  exists st' trace',
                    resolve fuel env' st1 trace = Some (Done (st', trace'))
                    /\ fobj_dwarf_map st' = fobj_dwarf_map st1
                    /\ opened st' = opened st1
                    /\ source trace' = source trace
                    /\ inliners trace' = inliners trace)
     | Crash => fobj_dwarf_map st !! path = None /\ parse_object env path = Crash
     end)
  /\ (forall env st path,
        let st1 := fst (Bfd.load_object_with_bfd env st path) in
        let f1 := snd (Bfd.load_object_with_bfd env st path) in
        Bfd.fobj_bfd_map st1 !! path = Some f1
        /\ (forall env', Bfd.load_object_with_bfd env' st1 path
                         = (Bfd.mkState true (Bfd.fobj_bfd_map st1) (Bfd.opened st1), f1))
        /\ (Bfd.fobj_bfd_map st !! path = None -> Bfd.handle f1 = None ->
            f1 = Bfd.empty_fobj
            /\ forall env' trace info fname,
                 Bfd.dladdr env' (addr trace) = Some info ->
                 dli_fname info = Some fname ->
                 Bfd.resolve_exec_path env' fname = (path, path) ->
                 exists st' trace',
                   Bfd.locate_object env' st1 trace = (st', Bfd.Returned trace')
                   /\ Bfd.opened st' = Bfd.opened st1
                   /\ source trace' = source trace /\ inliners trace' = inliners trace)).
Proof.
  split.
  - intros env st path.
    destruct (load_object_with_dwarf env st path) as [[st1 f1]|] eqn:Hload;
      [|by apply load_crash].
    assert (Hst : fobj_dwarf_map st1 !! path = Some f1) by (by eapply load_stores).
    split; [exact Hst|]. split.
    + intros env'. rewrite (load_cached env' st1 path f1 Hst). by eexists.
    + intros Hmiss Hfail. split; [by eapply load_failed|].
      intros fuel env' trace info l_addr fname Hdl Hfn Hpath.
      eapply resolve_unloaded; eauto. by rewrite Hpath.
  - intros env st path st1 f1.
    assert (Hst : Bfd.fobj_bfd_map st1 !! path = Some f1) by apply bfd_load_stores.
    split; [exact Hst|]. split.
    + intros env'. by apply bfd_load_cached.
    + intros Hmiss Hfail.
      assert (Hf1 : f1 = Bfd.empty_fobj).
      { unfold f1, Bfd.load_object_with_bfd in *. rewrite Hmiss in *. cbn in *.
        destruct (bfd_parse_object_cases env path) as [H|[h H]]; [exact H|congruence]. }
      split; [exact Hf1|].
      intros env' trace info fname Hdl Hfn Hpath.
      eapply bfd_locate_unloaded; eauto; rewrite Hpath; exact Hst.
Qed.

(** ** Split debug files *)

(** A stripped executable [/bin/app] whose symbol table names [orig_fn] and
    whose debug link points at [app.debug]; the external file carries the
    debug data and a symbol table of its own, naming [ext_fn]. *)
Module SplitDebug.

Definition symtab_scn (name : string) (value : Z) : Elf_Scn :=
  mkScn (Some (mkShdr (Some ".symtab") SHT_SYMTAB 24 24 1)) (Some (24, ""))
        [mkSym STT_FUNC value (Some name)].

Definition debuglink_scn : Elf_Scn :=
  mkScn (Some (mkShdr (Some ".gnu_debuglink") 1 16 0 0)) (Some (16, "app.debug")) [].

Definition orig_elf : Elf :=
  mkElf (Some ELFCLASS64) true true [symtab_scn "orig_fn" 4096; debuglink_scn] None.

Definition ext_elf : Elf :=
  mkElf (Some ELFCLASS64) true true [symtab_scn "ext_fn" 8192] (Some Fixture.chain_dbg).

Definition env : Env :=
  mkEnv (fun _ => None) "app" "/bin/app" (fun s => s) true
        (fun path => if String.eqb path "/bin/app" then 3
                     else if String.eqb path "app.debug" then 4 else -1)
        (fun fd => if fd =? 3 then Some orig_elf
                   else if fd =? 4 then Some ext_elf else None).

End SplitDebug.

(** C7, as stated, fails: after the switch to the external file the symbol
    cache is still the one of the original file, not what the same
    extraction yields on the external file. *)
Lemma C7_counterexample :
  exists st f,
    load_object_with_dwarf SplitDebug.env init "/bin/app" = Done (st, f)
    /\ elf_handle f = Some SplitDebug.ext_elf
    /\ elf_get_data SplitDebug.ext_elf ELFCLASS64 = Done (Some ("", [(8192, "ext_fn")]))
    /\ symbol_cache f = [(4096, "orig_fn")]
    /\ symbol_cache f <> [(8192, "ext_fn")].
Proof.
  eexists _, _. split; [reflexivity|]. repeat split; try reflexivity.
  intros H. discriminate H.
Qed.

(** C7, amended. When the section pass over a newly loaded ELF object finds
    a debug link and that file opens (descriptor above 0) as an ELF
    container, the debug data is opened from the external file and its
    descriptor and ELF handle are the ones kept; when it does not open, the
    original file's handles are used. In both cases the load returns and the
    symbol cache is the one extracted from the original file. *)
Theorem C7_debuglink env st path elf cls dl syms :
  fobj_dwarf_map st !! path = None ->
  0 <= open_ env path ->
  elf_begin env (open_ env path) = Some elf ->
  e_ident_class elf = Some cls ->
  getshdrnum_ok elf = true -> getshdrstrndx_ok elf = true ->
  elf_get_data elf cls = Done (Some (dl, syms)) ->
  str_empty dl = false ->
  exists st1 f,
    load_object_with_dwarf env st path = Done (st1, f)
    /\ symbol_cache f = syms
    /\ (forall elf2, 0 < open_ env dl -> elf_begin env (open_ env dl) = Some elf2 ->
          dwarf_handle f = dwarf_elf_init elf2
          /\ (is_Some (dwarf_elf_init elf2) ->
              file_handle f = Some (open_ env dl) /\ elf_handle f = Some elf2))
    /\ (open_ env dl <= 0 \/ elf_begin env (open_ env dl) = None ->
          dwarf_handle f = dwarf_elf_init elf
          /\ (is_Some (dwarf_elf_init elf) ->
              file_handle f = Some (open_ env path) /\ elf_handle f = Some elf)).
Proof.
  intros Hmiss Hfd Helf Hcls Hn Hs Hdata Hdl.
  rewrite (load_uncached env st path Hmiss).
  unfold parse_object.
  replace (open_ env path <? 0) with false by (symmetry; apply Z.ltb_ge; lia).
  rewrite Helf, Hcls, Hn, Hs, Hdata. cbn [negb orb mbind outcome_bind]. rewrite Hdl.
  destruct (0 <? open_ env dl) eqn:Hopen;
    [destruct (elf_begin env (open_ env dl)) as [e2|] eqn:He2|].
  - destruct (dwarf_elf_init e2) as [dbg|] eqn:Hdbg; cbn;
      (eexists _, _; split; [reflexivity|]; cbn; split; [done|]; split).
    + intros elf2 _ [= <-]. rewrite Hdbg. done.
    + intros [Hle|Hnone]; [apply Z.ltb_lt in Hopen; lia|done].
    + intros elf2 _ [= <-]. rewrite Hdbg. split; [done|]. by intros [? ?].
    + intros [Hle|Hnone]; [apply Z.ltb_lt in Hopen; lia|done].
  - destruct (dwarf_elf_init elf) as [dbg|] eqn:Hdbg; cbn;
      (eexists _, _; split; [reflexivity|]; cbn; split; [done|]; split).
    + by intros elf2 _ [=].
    + intros _. done.
    + by intros elf2 _ [=].
    + intros _. split; [done|]. by intros [? ?].
  - destruct (dwarf_elf_init elf) as [dbg|] eqn:Hdbg; cbn;
      (eexists _, _; split; [reflexivity|]; cbn; split; [done|]; split).
    + intros elf2 Hpos. apply Z.ltb_ge in Hopen. lia.
    + intros _. done.
    + intros elf2 Hpos. apply Z.ltb_ge in Hopen. lia.
    + intros _. split; [done|]. by intros [? ?].
Qed.

Lemma C7_debuglink_witness :
  exists st f,
    load_object_with_dwarf SplitDebug.env init "/bin/app" = Done (st, f)
    /\ symbol_cache f = [(4096, "orig_fn")]
    /\ dwarf_handle f = Some Fixture.chain_dbg
    /\ file_handle f = Some 4 /\ elf_handle f = Some SplitDebug.ext_elf.
Proof.
  destruct (C7_debuglink SplitDebug.env init "/bin/app" SplitDebug.orig_elf ELFCLASS64
              "app.debug" [(4096, "orig_fn")]
              eq_refl ltac:(vm_compute; discriminate) eq_refl eq_refl eq_refl eq_refl
              eq_refl eq_refl) as (st1 & f & Hload & Hsyms & Hext & _).
  destruct (Hext SplitDebug.ext_elf eq_refl eq_refl) as [Hdbg Hh].
  destruct (Hh ltac:(eexists; reflexivity)) as [Hfd Helf].
  exists st1, f. split; [exact Hload|].
  split; [exact Hsyms|]. split; [exact Hdbg|]. split; [exact Hfd|exact Helf].
Defined.

(** ** Line lookup *)

Lemma lookup_line_empty address : lookup_line [] address = None.
Proof. reflexivity. Qed.

Lemma lookup_line_before_first k row rest address :
  address < k -> lookup_line ((k, row) :: rest) address = None.
Proof.
  intros Hlt. unfold lookup_line. cbn.
  replace (k <? address) with false by (symmetry; apply Z.ltb_ge; lia).
  cbn. replace (k =? address) with false by (symmetry; apply Z.eqb_neq; lia).
  reflexivity.
Qed.

Lemma lookup_symbol_keeps (o : option string) (d : string -> string) trace :
  source (match o with Some n => set_object_function (d n) trace | None => trace end)
  = source trace
  /\ inliners (match o with Some n => set_object_function (d n) trace | None => trace end)
     = inliners trace.
Proof. by destruct o. Qed.

(** The symbol-table fallback of [resolve]: the step before [find_die]. *)
Definition with_symbol (env : Env) (fobj : dwarf_fileobject) (address : Z)
    (trace : ResolvedTrace) : ResolvedTrace :=
  if str_empty (object_function trace) then
    match lookup_symbol (symbol_cache fobj) address with
    | Some name => set_object_function (demangle env name) trace
    | None => trace
    end
  else trace.

(** When the unit is found but its line table does not cover the address,
    the search in the object ends there. *)
Lemma resolve_in_object_line_not_found fuel env dbg fobj address trace die :
  find_die fuel (current_specs fobj) dbg address = Some (Some die) ->
  isEmpty (snd (get_die_cache dbg fobj die)) = true
  \/ lookup_line (line_section (snd (get_die_cache dbg fobj die))) address = None ->
  resolve_in_object fuel env dbg fobj address trace
  = Some (fst (get_die_cache dbg fobj die), with_symbol env fobj address trace).
Proof.
  intros Hdie Hline. unfold resolve_in_object, with_symbol. rewrite Hdie. cbn.
  destruct (get_die_cache dbg fobj die) as [fobj' de]. cbn in *.
  destruct Hline as [He|Hl].
  - by rewrite He.
  - rewrite Hl. by destruct (isEmpty de).
Qed.

(** C8, as stated, fails. In the process of the inlining fixture the address
    0x1002 lies in [outer_fn], its unit is found, and it precedes the first
    row (0x1004) of the line table. The search of the debug tree would name
    the function, but resolve has returned before it: the function of the
    source location stays empty like file, line and column. *)
Lemma C8_counterexample :
  find_die 10 None Fixture.chain_dbg 4098 = Some (Some Fixture.chain_cu)
  /\ lookup_line (line_section (build_entry Fixture.chain_dbg Fixture.chain_cu)) 4098 = None
  /\ (sl_function ∘ source ∘ snd <$>
        deep_first_search_by_pc 10 None Fixture.chain_dbg
          (inliners_search_cb 10 (fun s => s) None Fixture.chain_dbg Fixture.chain_cu)
          Fixture.chain_cu 4098 [] (mk_trace 4098 0)) = Some "outer_fn()"
  /\ exists st' trace',
       resolve 10 Fixture.chain_env init (mk_trace 4098 0) = Some (Done (st', trace'))
       /\ source trace' = unknown_loc.
Proof.
  split; [reflexivity|]. split; [reflexivity|]. split; [reflexivity|].
  eexists _, _. split; reflexivity.
Qed.

(** C8, amended. When the unit of an address is found but the address
    precedes the first row of the unit's line table, or the table is empty or
    could not be read, resolve returns at that step: source file, line and
    column stay unknown, and so do the function of the source location and
    the inliners, since the debug tree is not searched. What was resolved
    before stays: the object file name, and the object-level function name,
    which is the demangled dynamic symbol of the address or, when there is
    none or it demangles to the empty string, the demangled name that the
    symbol table of the object gives for the address. *)
Theorem C8_line_not_found fuel env st st1 fobj trace info l_addr fname dbg die :
  dladdr1 env (addr trace) = Some (info, l_addr) ->
  dli_fname info = Some fname ->
  let to_open := fst (resolve_exec_path env fname) in
  let address := wrap64 (addr trace - l_addr) in
  let entry := snd (get_die_cache dbg fobj die) in
  load_object_with_dwarf env st to_open = Done (st1, fobj) ->
  dwarf_handle fobj = Some dbg ->
  find_die fuel (current_specs fobj) dbg address = Some (Some die) ->
  (isEmpty entry = true
   \/ line_section entry = []
   \/ exists k row rest, line_section entry = (k, row) :: rest /\ address < k) ->
  exists trace',
    resolve fuel env st trace
    = Some (Done (store_fobj to_open (fst (get_die_cache dbg fobj die)) st1, trace'))
    /\ addr trace' = addr trace /\ idx trace' = idx trace
    /\ source trace' = source trace
    /\ inliners trace' = inliners trace
    /\ object_filename trace' = snd (resolve_exec_path env fname)
    /\ object_function trace'
       = (let dynamic := match dli_sname info with
                         | Some sname => demangle env sname
                         | None => object_function trace
                         end in
          if str_empty dynamic then
            match lookup_symbol (symbol_cache fobj) address with
            | Some name => demangle env name
            | None => dynamic
            end
          else dynamic).
Proof.
  intros Hdl Hfn to_open address entry Hload Hdbg Hdie Hline.
  assert (Hline' : isEmpty entry = true \/ lookup_line (line_section entry) address = None).
  { destruct Hline as [H|[H|(k & row & rest & H & Hlt)]]; [by left|right..].
    - rewrite H. apply lookup_line_empty.
    - rewrite H. by apply lookup_line_before_first. }
  unfold resolve. rewrite Hdl, Hfn.
  subst entry address to_open.
  destruct (resolve_exec_path env fname) as [to_open display]. cbn [fst snd] in *.
  rewrite Hload, Hdbg. cbn [addr set_object_filename].
  set (t0 := match dli_sname info with
             | Some sname => set_object_function (demangle env sname) trace
             | None => trace end).
  assert (Ht0 : addr t0 = addr trace) by (unfold t0; by destruct (dli_sname info)).
  rewrite Ht0.
  rewrite (resolve_in_object_line_not_found fuel env dbg fobj
             (wrap64 (addr trace - l_addr)) (set_object_filename display t0) die Hdie Hline').
  cbn [mbind option_bind]. eexists. split; [reflexivity|].
  unfold with_symbol, t0.
  destruct (dli_sname info) as [sname|]; cbn [object_function set_object_filename
    set_object_function];
    (destruct (str_empty _); [destruct (lookup_symbol _ _)|]; done).
Qed.

(** The process of the inlining fixture without dynamic symbols: the names
    come from the symbol table of [/bin/app], which lists [outer_fn] at
    0x1000 and [next_fn] at 0x1100. *)
Definition symtab_elf : Elf :=
  mkElf (Some ELFCLASS64) true true
    [ mkScn (Some (mkShdr (Some ".symtab") SHT_SYMTAB 48 24 1)) (Some (48, ""))
        [ mkSym STT_FUNC 4096 (Some "outer_fn"); mkSym STT_FUNC 4352 (Some "next_fn") ] ]
    (Some Fixture.chain_dbg).

Definition symtab_env : Env :=
  mkEnv (fun a => if (4096 <=? a) && (a <? 4352)
                  then Some (mkDlInfo (Some "/bin/app") None, 0)
                  else None)
        "app" "/bin/app" (fun s => s) true
        (fun path => if String.eqb path "/bin/app" then 3 else -1)
        (fun fd => if fd =? 3 then Some symtab_elf else None).

Lemma C8_line_not_found_witness :
  exists st' trace',
    resolve 10 symtab_env init (mk_trace 4098 0) = Some (Done (st', trace'))
    /\ source trace' = unknown_loc /\ inliners trace' = []
    /\ object_filename trace' = "/bin/app"
    /\ object_function trace' = "outer_fn".
Proof.
  pose (fobj := mkFobj (Some 3) (Some symtab_elf) (Some Fixture.chain_dbg)
                       [(4096, "outer_fn"); (4352, "next_fn")] ∅ None).
  assert (Hrow : exists k row rest,
            line_section (snd (get_die_cache Fixture.chain_dbg fobj Fixture.chain_cu))
            = (k, row) :: rest
            /\ wrap64 (4098 - 0) < k).
  { exists 4100, 0%nat, [(4128, 1%nat); (4160, 2%nat)]. split; reflexivity. }
  destruct (C8_line_not_found 10 symtab_env init
              (mkState true (<["/bin/app" := fobj]> ∅) ["/bin/app"]) fobj
              (mk_trace 4098 0) (mkDlInfo (Some "/bin/app") None) 0 "/bin/app"
              Fixture.chain_dbg Fixture.chain_cu eq_refl eq_refl eq_refl eq_refl eq_refl
              (or_intror (or_intror Hrow)))
    as (trace' & Hres & _ & _ & Hsrc & Hinl & Hfile & Hfn).
  eexists _, trace'. split; [exact Hres|]. split; [exact Hsrc|]. split; [exact Hinl|].
  split; [exact Hfile|exact Hfn].
Defined.

(** ** The search of the debug tree *)

Lemma Die_ind' (P : Die -> Prop) :
  (forall a cs, Forall P cs -> P (Die_mk a cs)) -> forall d, P d.
Proof.
  intros H. fix IH 1. intros [a cs]. apply H.
  induction cs as [|c cs IHcs]; constructor; [apply IH|exact IHcs].
Qed.

Section Search.
Context {S : Type}.
Variables (fuel : nat) (specs : option (gmap Z Z)) (dbg : Dwarf_Debug).
Variable cb : Die -> list string -> S -> option S.
Variable pc : Z.

(** The loop of [deep_first_search_by_pc] over given siblings. *)
Definition dfs_siblings :=
  dfs_walk (dfs_visit fuel specs dbg cb pc
              (fun d => deep_first_search_by_pc fuel specs dbg cb d pc)).

Lemma dfs_unfold a cs ns s :
  deep_first_search_by_pc fuel specs dbg cb (Die_mk a cs) pc ns s
  = match cs with
    | [] => Some (false, ns, s)
    | _ => dfs_siblings cs false ns s
    end.
Proof. destruct cs; reflexivity. Qed.

(** A subtree in which nothing holds the address and no sibling walk
    fails. *)
Fixpoint quietb (d : Die) : bool :=
  match d with
  | Die_mk a cs =>
      negb (sibling_err a)
      && match die_has_pc fuel specs dbg d pc with
         | Some false => true
         | _ => false
         end
      && forallb quietb cs
  end.

Lemma quietb_inv d :
  quietb d = true ->
  sibling_err (attrs d) = false /\ die_has_pc fuel specs dbg d pc = Some false
  /\ forallb quietb (children d) = true.
Proof.
  destruct d as [a cs]. cbn [quietb attrs children].
  intros H. apply andb_prop in H as [H Hcs]. apply andb_prop in H as [Herr Hpc].
  split; [by destruct (sibling_err a)|]. split; [|exact Hcs].
  destruct (die_has_pc fuel specs dbg (Die_mk a cs) pc) as [[|]|]; done.
Qed.

Lemma removelast_snoc {A} (l : list A) x : removelast (l ++ [x]) = l.
Proof. by rewrite removelast_last. Qed.

(** One turn on a quiet DIE, given that the search below it is silent. *)
Lemma dfs_visit_quiet d b ns s :
  quietb d = true ->
  (forall ns', deep_first_search_by_pc fuel specs dbg cb d pc ns' s = Some (false, ns', s)) ->
  b = false \/ is_declaration d = false ->
  dfs_visit fuel specs dbg cb pc
    (fun d => deep_first_search_by_pc fuel specs dbg cb d pc) d b ns s
  = Some (false, false, ns, s).
Proof.
  intros Hq Hrec Hb. destruct (quietb_inv d Hq) as (Herr & Hpc & _).
  unfold dfs_visit.
  assert (H1 : forall ns', (if negb (is_declaration d)
                 then deep_first_search_by_pc fuel specs dbg cb d pc ns' s
                 else Some (b, ns', s)) = Some (false, ns', s)).
  { intros ns'. destruct (is_declaration d) eqn:Hd; cbn; [|by apply Hrec].
    destruct Hb as [->|?]; [reflexivity|discriminate]. }
  rewrite H1. cbn. rewrite Hpc. cbn. rewrite Herr.
  destruct (opens_scope d); [by rewrite removelast_snoc|reflexivity].
Qed.

(** One turn on a DIE that is searched: [b1] is what the search below it
    answers, [b2] whether the branch holds the address, [s2] the state after
    the callback, if it runs. The scope the DIE opens is closed again. *)
Lemma dfs_visit_path c b b1 b2 ns s s1 s2 :
  is_declaration c = false ->
  sibling_err (attrs c) = false ->
  deep_first_search_by_pc fuel specs dbg cb c pc
    (if opens_scope c then ns ++ [scope_name c] else ns) s
  = Some (b1, if opens_scope c then ns ++ [scope_name c] else ns, s1) ->
  (if b1 then Some true else die_has_pc fuel specs dbg c pc) = Some b2 ->
  (if b2 then cb c (if opens_scope c then ns ++ [scope_name c] else ns) s1 else Some s1)
  = Some s2 ->
  dfs_visit fuel specs dbg cb pc
    (fun d => deep_first_search_by_pc fuel specs dbg cb d pc) c b ns s
  = Some (false, b2, ns, s2).
Proof.
  intros Hnd Herr Hsearch Hb2 Hcb. unfold dfs_visit.
  rewrite Hnd. cbn [negb]. rewrite Hsearch. cbn. rewrite Hb2. cbn.
  rewrite Hcb. cbn. rewrite Herr.
  destruct (opens_scope c); [by rewrite removelast_snoc|reflexivity].
Qed.

(** The search leaves a quiet subtree as it found it. *)
Lemma dfs_quiet d :
  quietb d = true ->
  forall ns s, deep_first_search_by_pc fuel specs dbg cb d pc ns s = Some (false, ns, s).
Proof.
  induction d as [a cs IH] using Die_ind'. intros Hq ns s.
  apply quietb_inv in Hq as (_ & _ & Hcs). cbn [children] in Hcs.
  rewrite dfs_unfold. destruct cs as [|c0 cs0]; [reflexivity|].
  revert ns s. generalize dependent (c0 :: cs0). clear c0 cs0.
  intros ds IH Hcs. induction ds as [|d ds IHds]; intros ns s; [reflexivity|].
  cbn [forallb] in Hcs. apply andb_prop in Hcs as [Hd Hds].
  apply Forall_cons in IH as [IHd IH].
  unfold dfs_siblings. cbn [dfs_walk].
  rewrite dfs_visit_quiet; [|exact Hd|intros; by apply IHd|by left].
  cbn. by apply IHds.
Qed.

Lemma dfs_siblings_quiet ds :
  forallb quietb ds = true ->
  forall ns s, dfs_siblings ds false ns s = Some (false, ns, s).
Proof.
  induction ds as [|d ds IH]; intros Hq ns s; [reflexivity|].
  cbn [forallb] in Hq. apply andb_prop in Hq as [Hd Hds].
  unfold dfs_siblings. cbn [dfs_walk].
  rewrite dfs_visit_quiet; [|exact Hd|intros; by apply dfs_quiet|by left].
  cbn. by apply IH.
Qed.

(** Quiet siblings after a match: the first one must be searched (not a
    declaration) for the flag of the match not to leak into it. *)
Definition first_searched (ds : list Die) : bool :=
  match ds with
  | [] => true
  | d :: _ => negb (is_declaration d)
  end.

Lemma dfs_siblings_after ds b :
  forallb quietb ds = true -> first_searched ds = true ->
  forall ns s, exists b', dfs_siblings ds b ns s = Some (b', ns, s).
Proof.
  destruct ds as [|d ds]; intros Hq Hfirst ns s; [by exists b|].
  cbn [forallb] in Hq. apply andb_prop in Hq as [Hd Hds].
  cbn in Hfirst. apply negb_true_iff in Hfirst.
  exists false. unfold dfs_siblings. cbn [dfs_walk].
  rewrite dfs_visit_quiet; [|exact Hd|intros; by apply dfs_quiet|by right].
  cbn. by apply dfs_siblings_quiet.
Qed.

Lemma dfs_siblings_before before ds :
  forallb quietb before = true ->
  forall ns s, dfs_siblings (before ++ ds) false ns s = dfs_siblings ds false ns s.
Proof.
  induction before as [|d before IH]; intros Hq ns s; [reflexivity|].
  cbn [forallb] in Hq. apply andb_prop in Hq as [Hd Hds].
  unfold dfs_siblings. cbn [app dfs_walk].
  rewrite dfs_visit_quiet; [|exact Hd|intros; by apply dfs_quiet|by left].
  cbn. by apply IH.
Qed.

End Search.

(** ** Chains of inlined calls *)

Section Inliners.
Variables (fuel : nat) (specs : option (gmap Z Z)) (dbg : Dwarf_Debug).
Variables (demangle : string -> string) (cu_die : Die) (pc : Z).

(** The scope stack with which a DIE's children are searched and its
    callback runs. *)
Definition scope_of (c : Die) (ns : list string) : list string :=
  if opens_scope c then ns ++ [scope_name c] else ns.

(** [inline_chain ns d chain]: below [d], reached with the scope stack
    [ns], the address lies in a chain of inlined calls. [chain] lists the
    [DW_TAG_inlined_subroutine] DIEs on the path from [d] down to the
    innermost DIE holding the address, outermost first, each with the
    location the callback builds for it. The path may also go through DIEs
    that are not inlined calls: the function itself, lexical blocks, and the
    namespaces and classes around the function, which push their name on the
    scope stack. No DIE of the path is a declaration or has its sibling walk
    fail; the DIEs beside the path hold the address nowhere in their
    subtrees and have no failing sibling walk either; the DIE right after a
    DIE of the path is not a declaration. *)
Inductive inline_chain : list string -> Die -> list (Die * SourceLoc) -> Prop :=
| chain_innermost ns d :
    forallb (quietb fuel specs dbg pc) (children d) = true ->
    inline_chain ns d []
| chain_inlined ns d before c after loc rest :
    children d = before ++ c :: after ->
    forallb (quietb fuel specs dbg pc) before = true ->
    forallb (quietb fuel specs dbg pc) after = true ->
    first_searched after = true ->
    tag c = DW_TAG_inlined_subroutine ->
    flag_set (at_declaration (attrs c)) = false ->
    sibling_err (attrs c) = false ->
    die_has_pc fuel specs dbg c pc = Some true ->
    inliner_loc fuel specs dbg cu_die c ns = Some loc ->
    inline_chain ns c rest ->
    inline_chain ns d ((c, loc) :: rest)
| chain_enclosing ns d before c after rest :
    children d = before ++ c :: after ->
    forallb (quietb fuel specs dbg pc) before = true ->
    forallb (quietb fuel specs dbg pc) after = true ->
    first_searched after = true ->
    is_inlined_subroutine (tag c) = false ->
    is_declaration c = false ->
    sibling_err (attrs c) = false ->
    is_Some (die_has_pc fuel specs dbg c pc) ->
    (forall trace,
       is_Some (inliners_search_cb fuel demangle specs dbg cu_die c (scope_of c ns) trace)) ->
    inline_chain (scope_of c ns) c rest ->
    inline_chain ns d rest.

Definition push_inliners (locs : list SourceLoc) (trace : ResolvedTrace) : ResolvedTrace :=
  set_inliners (inliners trace ++ locs) trace.

Lemma cb_inlined c ns loc trace :
  tag c = DW_TAG_inlined_subroutine ->
  inliner_loc fuel specs dbg cu_die c ns = Some loc ->
  inliners_search_cb fuel demangle specs dbg cu_die c ns trace
  = Some (push_inliners [loc] trace).
Proof. intros Htag Hloc. unfold inliners_search_cb. by rewrite Htag, Hloc. Qed.

(** Only the callback of an inlined call touches the inliners. *)
Lemma cb_keeps_inliners c ns trace trace' :
  is_inlined_subroutine (tag c) = false ->
  inliners_search_cb fuel demangle specs dbg cu_die c ns trace = Some trace' ->
  inliners trace' = inliners trace.
Proof.
  intros Htag. unfold inliners_search_cb.
  destruct (tag c); try discriminate Htag; try (by intros [= <-]).
  destruct (negb (str_empty (sl_function (source trace)))); [by intros [= <-]|].
  match goal with
  | |- context [set_function_parameters fuel specs dbg ?nm ns c] =>
      destruct (set_function_parameters fuel specs dbg nm ns c) as [fn|]
  end; [|discriminate].
  cbn. destruct (str_empty (object_function trace));
    [destruct (at_linkage_name (attrs c)); [|destruct (at_MIPS_linkage_name (attrs c))]|];
    by intros [= <-].
Qed.

(** The siblings of a DIE of the path, given its own turn. *)
Lemma dfs_siblings_path before c after b2 ns trace t2 :
  forallb (quietb fuel specs dbg pc) before = true ->
  forallb (quietb fuel specs dbg pc) after = true ->
  first_searched after = true ->
  dfs_visit fuel specs dbg (inliners_search_cb fuel demangle specs dbg cu_die) pc
    (fun d => deep_first_search_by_pc fuel specs dbg
                (inliners_search_cb fuel demangle specs dbg cu_die) d pc) c false ns trace
  = Some (false, b2, ns, t2) ->
  exists b,
    dfs_siblings fuel specs dbg (inliners_search_cb fuel demangle specs dbg cu_die) pc
      (before ++ c :: after) false ns trace = Some (b, ns, t2).
Proof.
  intros Hb Ha Hfirst Hvisit.
  rewrite (dfs_siblings_before _ _ _ _ _ _ _ Hb).
  destruct (dfs_siblings_after fuel specs dbg
              (inliners_search_cb fuel demangle specs dbg cu_die) pc after b2
              Ha Hfirst ns t2) as [b' Hafter].
  exists b'. unfold dfs_siblings in *. cbn [dfs_walk].
  rewrite Hvisit. cbn. exact Hafter.
Qed.

Lemma dfs_nonempty {S : Type} (cb : Die -> list string -> S -> option S)
    a before c after ns' s :
  deep_first_search_by_pc fuel specs dbg cb (Die_mk a (before ++ c :: after)) pc ns' s
  = dfs_siblings fuel specs dbg cb pc (before ++ c :: after) false ns' s.
Proof. rewrite dfs_unfold. by destruct before. Qed.

(** The search below the head of a chain pushes the locations of the chain
    from the innermost to the outermost, and nothing else. *)
Lemma dfs_inline_chain ns d chain :
  inline_chain ns d chain ->
  forall trace, exists b trace',
    deep_first_search_by_pc fuel specs dbg
      (inliners_search_cb fuel demangle specs dbg cu_die) d pc ns trace
    = Some (b, ns, trace')
    /\ inliners trace' = inliners trace ++ rev (map snd chain).
Proof.
  induction 1 as [ns d Hq
                 |ns d before c after loc rest Hcs Hb Ha Hfirst Htag Hdecl Herr Hpc Hloc Hrest IH
                 |ns d before c after rest Hcs Hb Ha Hfirst Htag Hnd Herr Hpc Hcb Hrest IH];
    intros trace.
  - exists false, trace. destruct d as [a cs]. cbn [children] in Hq.
    rewrite dfs_unfold. cbn. rewrite app_nil_r. split; [|reflexivity].
    destruct cs; [reflexivity|]. by apply dfs_siblings_quiet.
  - destruct d as [a cs]. cbn [children] in Hcs. subst cs.
    destruct (IH trace) as (b1 & t1 & Hsearch & Hinl).
    assert (Hscope : opens_scope c = false) by (unfold opens_scope; by rewrite Htag).
    assert (Hnd : is_declaration c = false)
      by (unfold is_declaration; rewrite Hdecl; apply andb_false_r).
    destruct (dfs_siblings_path before c after true ns trace (push_inliners [loc] t1)
                Hb Ha Hfirst) as [b Hwalk].
    { apply (dfs_visit_path _ _ _ _ _ c false b1 true ns trace t1); try done.
      - by rewrite Hscope.
      - by destruct b1.
      - rewrite Hscope. by apply cb_inlined. }
    exists b, (push_inliners [loc] t1). rewrite dfs_nonempty. split; [exact Hwalk|].
    cbn. by rewrite Hinl, <- app_assoc.
  - destruct d as [a cs]. cbn [children] in Hcs. subst cs.
    destruct (IH trace) as (b1 & t1 & Hsearch & Hinl).
    assert (Hb2 : exists b2,
               (if b1 then Some true else die_has_pc fuel specs dbg c pc) = Some b2).
    { destruct b1; [by eexists|]. destruct Hpc as [b2 ->]. by eexists. }
    destruct Hb2 as [b2 Hb2].
    assert (Ht2 : exists t2,
               (if b2 then inliners_search_cb fuel demangle specs dbg cu_die c
                             (scope_of c ns) t1
                else Some t1) = Some t2
               /\ inliners t2 = inliners t1).
    { destruct b2; [|by eexists].
      destruct (Hcb t1) as [t2 Ht2]. exists t2. split; [exact Ht2|].
      by apply (cb_keeps_inliners c (scope_of c ns) t1 t2 Htag). }
    destruct Ht2 as (t2 & Ht2 & Hkeep).
    destruct (dfs_siblings_path before c after b2 ns trace t2 Hb Ha Hfirst) as [b Hwalk].
    { by apply (dfs_visit_path _ _ _ _ _ c false b1 b2 ns trace t1). }
    exists b, t2. rewrite dfs_nonempty. split; [exact Hwalk|].
    by rewrite Hkeep.
Qed.

End Inliners.


Lemma with_symbol_inliners env fobj address trace :
  inliners (with_symbol env fobj address trace) = inliners trace.
Proof.
  unfold with_symbol. destruct (str_empty _); [|done]. by destruct (lookup_symbol _ _).
Qed.

Lemma set_line_info_inliners line trace :
  inliners (set_line_info line trace) = inliners trace.
Proof. unfold set_line_info. by destruct (linesrc line). Qed.


Lemma outer_cb_returns dbg cu ns trace :
  is_Some (inliners_search_cb 10 (fun s => s) (Some ∅) dbg cu Fixture.outer_die ns trace).
Proof.
  unfold inliners_search_cb. cbn [tag attrs Fixture.outer_die Fixture.with_pc die_tag
                                  Fixture.plain].
  destruct (negb (str_empty (sl_function (source trace)))); [by eexists|].
  cbn. destruct (str_empty (object_function trace)); by eexists.
Qed.


(** ** Function signatures *)

Lemma sapp_assoc (a b c : string) : (a +:+ b) +:+ c = a +:+ (b +:+ c).
Proof.
  induction a as [|x a IH]; [reflexivity|].
  change (String x ((a +:+ b) +:+ c) = String x (a +:+ (b +:+ c))). by rewrite IH.
Qed.

Lemma sapp_nil_r (a : string) : a +:+ "" = a.
Proof.
  induction a as [|x a IH]; [reflexivity|].
  change (String x (a +:+ "") = String x a). by rewrite IH.
Qed.

Lemma str_empty_app_l (a b : string) : str_empty a = false -> str_empty (a +:+ b) = false.
Proof. by destruct a. Qed.

(** The shape of a parameter type as its chain of DIEs spells it:
    modifiers around a named type, a typedef of a named type, or no type at
    all. *)
Inductive ty :=
| TNamed (name : string)
| TTypedef (name : string)
| TVoid
| TConst (t : ty)
| TPointer (t : ty)
| TReference (t : ty)
| TRvalueReference (t : ty)
| TVolatile (t : ty)
| TRestrict (t : ty).

(** The number of DIEs the chain of a type goes through. *)
Fixpoint ty_depth (t : ty) : nat :=
  match t with
  | TVoid => 0%nat
  | TNamed _ => 1%nat
  | TTypedef _ => 2%nat
  | TConst t | TPointer t | TReference t | TRvalueReference t
  | TVolatile t | TRestrict t => S (ty_depth t)
  end.

(** The text built for a type in front of what is already there ([acc], the
    parameter's name if it has one): each modifier is put in front as it is
    met, and the name of the type comes first, followed by a space unless
    nothing follows it. [const] says that the type is reached through a
    [const] qualifier: it is printed in front of a typedef and nowhere
    else. *)
Fixpoint render (const : bool) (t : ty) (acc : string) : string :=
  match t with
  | TNamed name => name +:+ space_before acc
  | TTypedef name => (if const then "const " else "") +:+ name +:+ space_before acc
  | TVoid => "void " +:+ acc
  | TConst t => render true t acc
  | TPointer t => render false t ("*" +:+ acc)
  | TReference t => render false t ("&" +:+ acc)
  | TRvalueReference t => render false t ("&&" +:+ acc)
  | TVolatile t => render false t ("volatile " +:+ acc)
  | TRestrict t => render false t ("restrict " +:+ acc)
  end.

Definition is_named_type (t : Tag) : bool :=
  match t with
  | DW_TAG_base_type | DW_TAG_structure_type | DW_TAG_union_type | DW_TAG_class_type => true
  | _ => false
  end.

Section Signatures.
Variables (fuel : nat) (dbg : Dwarf_Debug).

(** The DIE that [DW_AT_type] of [d] refers to, if any. *)
Definition type_of (d : Die) : option Die :=
  get_referenced_die dbg d (at_type (attrs d)) true.

(** [denotes o t]: the chain of [DW_AT_type] references that starts with
    the DIE [o] (nothing, for [None]) spells the type [t]. *)
Inductive denotes : option Die -> ty -> Prop :=
| denotes_void : denotes None TVoid
| denotes_named d name :
    is_named_type (tag d) = true -> at_signature (attrs d) = None ->
    at_name (attrs d) = Some name -> type_of d = None ->
    denotes (Some d) (TNamed name)
| denotes_typedef d name d' :
    tag d = DW_TAG_typedef -> at_name (attrs d) = Some name ->
    type_of d = Some d' ->
    is_named_type (tag d') = true -> at_signature (attrs d') = None ->
    type_of d' = None ->
    denotes (Some d) (TTypedef name)
| denotes_const d t :
    tag d = DW_TAG_const_type -> at_name (attrs d) = None ->
    denotes (type_of d) t -> denotes (Some d) (TConst t)
| denotes_pointer d t :
    tag d = DW_TAG_pointer_type -> at_name (attrs d) = None ->
    denotes (type_of d) t -> denotes (Some d) (TPointer t)
| denotes_reference d t :
    tag d = DW_TAG_reference_type -> at_name (attrs d) = None ->
    denotes (type_of d) t -> denotes (Some d) (TReference t)
| denotes_rvalue_reference d t :
    tag d = DW_TAG_rvalue_reference_type -> at_name (attrs d) = None ->
    denotes (type_of d) t -> denotes (Some d) (TRvalueReference t)
| denotes_volatile d t :
    tag d = DW_TAG_volatile_type -> at_name (attrs d) = None ->
    denotes (type_of d) t -> denotes (Some d) (TVolatile t)
| denotes_restrict d t :
    tag d = DW_TAG_restrict_type -> at_name (attrs d) = None ->
    denotes (type_of d) t -> denotes (Some d) (TRestrict t).

(** What [set_parameter_string] does after its own DIE: the referenced DIE,
    if any, and the [void] of a text without type. *)
Definition follow (n : nat) (o : option Die) (context : type_context_t)
  : option type_context_t :=
  c5 ← match o with
       | Some ref => set_parameter_string n dbg ref context
       | None => Some context
       end;
  Some (void_if_untyped c5).

Lemma set_parameter_string_follow n d context :
  set_parameter_string (S n) dbg d context
  = follow n (type_of d) (apply_die dbg d context).
Proof. reflexivity. Qed.

Lemma apply_die_named d name c has_ty has_nm txt :
  is_named_type (tag d) = true -> at_signature (attrs d) = None ->
  at_name (attrs d) = Some name ->
  apply_die dbg d (mkCtx c false has_ty has_nm txt)
  = mkCtx false false true has_nm (name +:+ space_before txt).
Proof.
  intros Htag Hsig Hname. unfold apply_die, apply_tag, apply_name. cbn.
  rewrite Hname, Hsig. destruct (tag d); try discriminate Htag; reflexivity.
Qed.

(** The base type of a typedef just printed: its name is skipped, and the
    [const] that qualifies the typedef is printed. *)
Lemma apply_die_skipped d c has_ty has_nm txt :
  is_named_type (tag d) = true -> at_signature (attrs d) = None ->
  apply_die dbg d (mkCtx c true has_ty has_nm txt)
  = mkCtx false false true has_nm (if c then "const " +:+ txt else txt).
Proof.
  intros Htag Hsig. unfold apply_die, apply_tag, apply_name. cbn.
  rewrite Hsig. destruct (tag d); try discriminate Htag; reflexivity.
Qed.

Lemma apply_die_const d c has_ty has_nm txt :
  tag d = DW_TAG_const_type -> at_name (attrs d) = None ->
  apply_die dbg d (mkCtx c false has_ty has_nm txt)
  = mkCtx true false has_ty has_nm txt.
Proof.
  intros Htag Hname. unfold apply_die, apply_tag, apply_name. cbn.
  by rewrite Hname, Htag.
Qed.

Lemma apply_die_typedef d name c has_ty has_nm txt :
  tag d = DW_TAG_typedef -> at_name (attrs d) = Some name ->
  apply_die dbg d (mkCtx c false has_ty has_nm txt)
  = mkCtx c true true has_nm (name +:+ space_before txt).
Proof.
  intros Htag Hname. unfold apply_die, apply_tag, apply_name. cbn.
  by rewrite Hname, Htag.
Qed.

Lemma apply_die_modifier d p c has_ty has_nm txt :
  (forall c1, apply_tag dbg d c1 = (prefix_text p c1, false, true)) ->
  at_name (attrs d) = None ->
  apply_die dbg d (mkCtx c false has_ty has_nm txt)
  = mkCtx false false has_ty has_nm (p +:+ txt).
Proof.
  intros Htag Hname. unfold apply_die, apply_name. cbn. rewrite Hname, Htag.
  reflexivity.
Qed.

Lemma void_if_typed c :
  has_type c = true -> void_if_untyped c = c.
Proof. intros H. unfold void_if_untyped. by rewrite H. Qed.

(** Below a parameter, the chain of a type gives its text. *)
Lemma follow_denotes o t :
  denotes o t ->
  forall n c txt, (ty_depth t <= n)%nat ->
    exists context,
      follow n o (mkCtx c false false true txt) = Some context
      /\ has_type context = true
      /\ text context = render c t txt.
Proof.
  assert (Hmod : forall d t p,
    (forall c1, apply_tag dbg d c1 = (prefix_text p c1, false, true)) ->
    at_name (attrs d) = None ->
    (forall n c txt, (ty_depth t <= n)%nat ->
       exists context,
         follow n (type_of d) (mkCtx c false false true txt) = Some context
         /\ has_type context = true /\ text context = render c t txt) ->
    forall n c txt, (S (ty_depth t) <= n)%nat ->
      exists context,
        follow n (Some d) (mkCtx c false false true txt) = Some context
        /\ has_type context = true /\ text context = render false t (p +:+ txt)).
  { clear o t. intros d t p Htag Hname IH n c txt Hn. destruct n as [|n]; [lia|].
    unfold follow at 1. rewrite set_parameter_string_follow.
    rewrite (apply_die_modifier d p c _ _ _ Htag Hname).
    destruct (IH n false (p +:+ txt)) as (ctx & -> & Hty & Htxt); [lia|].
    cbn. rewrite (void_if_typed ctx Hty). by exists ctx. }
  induction 1 as [|d name Htag Hsig Hname Hty
                 |d name d' Htag Hname Hty Htag' Hsig' Hty'
                 |d t Htag Hname Hd IH
                 |d t Htag Hname Hd IH
                 |d t Htag Hname Hd IH
                 |d t Htag Hname Hd IH
                 |d t Htag Hname Hd IH
                 |d t Htag Hname Hd IH];
    intros n c txt Hn; cbn [ty_depth render] in *.
  - eexists. split; [reflexivity|]. by split.
  - destruct n as [|n]; [lia|].
    unfold follow. rewrite set_parameter_string_follow, Hty.
    rewrite (apply_die_named d name c _ _ _ Htag Hsig Hname).
    cbn. eexists. split; [reflexivity|]. by split.
  - destruct n as [|[|n]]; [lia..|].
    unfold follow at 1. rewrite set_parameter_string_follow, Hty.
    rewrite (apply_die_typedef d name c _ _ _ Htag Hname).
    unfold follow at 1. rewrite set_parameter_string_follow, Hty'.
    rewrite (apply_die_skipped d' c _ _ _ Htag' Hsig').
    cbn. eexists. split; [reflexivity|]. split; [reflexivity|].
    cbn. by destruct c.
  - destruct n as [|n]; [lia|].
    unfold follow at 1. rewrite set_parameter_string_follow.
    rewrite (apply_die_const d c _ _ _ Htag Hname).
    destruct (IH n true txt) as (ctx & -> & Hty & Htxt); [lia|].
    cbn. rewrite (void_if_typed ctx Hty). by exists ctx.
  - apply (Hmod d t "*"); [intros c1; unfold apply_tag; by rewrite Htag|done..].
  - apply (Hmod d t "&"); [intros c1; unfold apply_tag; by rewrite Htag|done..].
  - apply (Hmod d t "&&"); [intros c1; unfold apply_tag; by rewrite Htag|done..].
  - apply (Hmod d t "volatile "); [intros c1; unfold apply_tag; by rewrite Htag|done..].
  - apply (Hmod d t "restrict "); [intros c1; unfold apply_tag; by rewrite Htag|done..].
Qed.

(** The declared parameters among the children of a function DIE, in
    order: for each [DW_TAG_formal_parameter] that is not artificial, its
    name (if any) and its type. The walk over the children ends after a
    child whose sibling cannot be read. *)
Inductive params_of : list Die -> list (option string * ty) -> Prop :=
| params_nil : params_of [] []
| params_skip c cs ps :
    is_formal_parameter (tag c) && negb (flag_set (at_artificial (attrs c))) = false ->
    params_of (if sibling_err (attrs c) then [] else cs) ps ->
    params_of (c :: cs) ps
| params_cons c cs ps t :
    tag c = DW_TAG_formal_parameter ->
    flag_set (at_artificial (attrs c)) = false ->
    denotes (type_of c) t -> (ty_depth t < fuel)%nat ->
    params_of (if sibling_err (attrs c) then [] else cs) ps ->
    params_of (c :: cs) ((at_name (attrs c), t) :: ps).

Definition param_text (p : option string * ty) : string :=
  render false (snd p) (Dw.or_default (fst p) "").

Lemma set_parameter_string_param c t :
  tag c = DW_TAG_formal_parameter ->
  denotes (type_of c) t -> (ty_depth t < fuel)%nat ->
  text <$> set_parameter_string fuel dbg c new_context
  = Some (param_text (at_name (attrs c), t)).
Proof.
  intros Htag Hd Hfuel. destruct fuel as [|n]; [lia|].
  rewrite set_parameter_string_follow.
  assert (Hdie : apply_die dbg c new_context
                 = mkCtx false false false true (Dw.or_default (at_name (attrs c)) "")).
  { unfold apply_die, apply_tag, apply_name, new_context. rewrite Htag. cbn.
    destruct (at_name (attrs c)); cbn; by rewrite ?sapp_nil_r. }
  rewrite Hdie.
  destruct (follow_denotes (type_of c) t Hd n false (Dw.or_default (at_name (attrs c)) ""))
    as (ctx & -> & _ & Htxt); [lia|].
  cbn. by rewrite Htxt.
Qed.

(** What the loop appends after a list that is already open. *)
Fixpoint more_params (ps : list string) : string :=
  match ps with
  | [] => ""
  | p :: rest => ", " +:+ p +:+ more_params rest
  end.

Lemma concat_more p ps : String.concat ", " (p :: ps) = p +:+ more_params ps.
Proof.
  revert p. induction ps as [|q ps IH]; intros p.
  - cbn. by rewrite sapp_nil_r.
  - change (String.concat ", " (p :: q :: ps))
      with (p +:+ ", " +:+ String.concat ", " (q :: ps)).
    by rewrite IH.
Qed.

Lemma collect_parameters_rest c cs p :
  (if sibling_err (attrs c) then Some p else collect_parameters fuel dbg cs p)
  = collect_parameters fuel dbg (if sibling_err (attrs c) then [] else cs) p.
Proof. by destruct (sibling_err (attrs c)). Qed.

Lemma collect_parameters_open cs ps :
  params_of cs ps ->
  forall acc, str_empty acc = false ->
    collect_parameters fuel dbg cs acc = Some (acc +:+ more_params (map param_text ps)).
Proof.
  induction 1 as [|c cs ps Hskip Hps IH|c cs ps t Htag Hart Hd Hfuel Hps IH];
    intros acc Hacc.
  - cbn. by rewrite sapp_nil_r.
  - cbn [collect_parameters]. rewrite Hskip. cbn [mbind option_bind].
    rewrite collect_parameters_rest. by apply IH.
  - cbn [collect_parameters]. rewrite Htag, Hart. cbn [is_formal_parameter negb andb].
    pose proof (set_parameter_string_param c t Htag Hd Hfuel) as Htxt.
    destruct (set_parameter_string fuel dbg c new_context) as [ctx|]; [|discriminate].
    cbn in Htxt. injection Htxt as Htxt. cbn [mbind option_bind].
    rewrite collect_parameters_rest, Hacc, Htxt.
    rewrite IH by (apply str_empty_app_l, str_empty_app_l, Hacc).
    cbn [map more_params]. by rewrite !sapp_assoc.
Qed.

Lemma collect_parameters_closed cs ps :
  params_of cs ps ->
  close_parameters <$> collect_parameters fuel dbg cs ""
  = Some ("(" +:+ String.concat ", " (map param_text ps) +:+ ")").
Proof.
  induction 1 as [|c cs ps Hskip Hps IH|c cs ps t Htag Hart Hd Hfuel Hps IH].
  - reflexivity.
  - cbn [collect_parameters]. rewrite Hskip. cbn [mbind option_bind].
    rewrite collect_parameters_rest. exact IH.
  - cbn [map]. rewrite concat_more.
    cbn [collect_parameters]. rewrite Htag, Hart. cbn [is_formal_parameter negb andb].
    pose proof (set_parameter_string_param c t Htag Hd Hfuel) as Htxt.
    destruct (set_parameter_string fuel dbg c new_context) as [ctx|]; [|discriminate].
    cbn in Htxt. injection Htxt as Htxt. cbn [mbind option_bind].
    rewrite collect_parameters_rest, Htxt.
    rewrite (collect_parameters_open _ ps Hps) by reflexivity.
    cbn. unfold close_parameters.
    rewrite (str_empty_app_l _ _ (str_empty_app_l "(" _ eq_refl)).
    by rewrite !sapp_assoc.
Qed.

End Signatures.

Module MethodFixture.
Import Fixture.

Definition with_specification (ref : Z) (a : DieAttrs) : DieAttrs :=
  mkDieAttrs (die_tag a) (die_cu_base a) (die_cu_off a) (at_name a)
    (at_low_pc a) (at_high_pc a) (at_ranges a) (at_declaration a)
    (at_artificial a) (at_type a) (at_abstract_origin a) (Some ref)
    (at_signature a) (at_call_file a) (at_call_line a) (at_call_column a)
    (at_linkage_name a) (at_MIPS_linkage_name a) (sibling_err a).

(** The member function [int MyClass::get(char *s, MyClass &)], with the
    implicit [this] marked artificial. *)
Definition this_param : Die :=
  Die_mk (with_artificial (with_type 75 (plain DW_TAG_formal_parameter 91 (Some "this")))) [].
Definition s_param : Die :=
  Die_mk (with_type 55 (plain DW_TAG_formal_parameter 92 (Some "s"))) [].
Definition ref_param : Die :=
  Die_mk (with_type 70 (plain DW_TAG_formal_parameter 93 None)) [].

Definition get_die : Die :=
  Die_mk (with_type 20 (with_pc 4096 256 (plain DW_TAG_subprogram 90 (Some "get"))))
    [this_param; s_param; ref_param].

(** The member function [void MyClass::reset(const size_type n)]: declared
    in the class without parameters to show, defined outside of it. *)
Definition reset_decl : Die :=
  Die_mk (plain DW_TAG_subprogram 94 (Some "reset")) [].
Definition n_param : Die :=
  Die_mk (with_type 25 (plain DW_TAG_formal_parameter 96 (Some "n"))) [].
Definition reset_def : Die :=
  Die_mk (with_specification 94 (with_pc 4352 64 (plain DW_TAG_subprogram 95 None)))
    [n_param].

Definition char_die : Die := Die_mk (plain DW_TAG_base_type 30 (Some "char")) [].
Definition char_ptr_die : Die := Die_mk (with_type 30 (plain DW_TAG_pointer_type 55 None)) [].
Definition class_ref_die : Die := Die_mk (with_type 60 (plain DW_TAG_reference_type 70 None)) [].
Definition class_die : Die :=
  Die_mk (plain DW_TAG_class_type 60 (Some "MyClass")) [get_die; reset_decl].
Definition long_die : Die := Die_mk (plain DW_TAG_base_type 21 (Some "long")) [].
Definition size_type_die : Die :=
  Die_mk (with_type 21 (plain DW_TAG_typedef 22 (Some "size_type"))) [].
Definition const_size_type_die : Die :=
  Die_mk (with_type 22 (plain DW_TAG_const_type 25 None)) [].

Definition cu : Die :=
  Die_mk (plain DW_TAG_compile_unit 11 (Some "myclass.cpp"))
    [ Die_mk (plain DW_TAG_base_type 20 (Some "int")) [];
      long_die; size_type_die; const_size_type_die;
      char_die; char_ptr_die; class_die; class_ref_die;
      Die_mk (with_type 60 (plain DW_TAG_pointer_type 75 None)) [];
      reset_def ].

Definition dbg : Dwarf_Debug := mkDebug [cu] [] None (fun _ => None) (fun _ => None).

(** The specification map of the unit: the declaration at 94 is completed
    by the DIE at 95. *)
Definition specs : option (gmap Z Z) := Some (index_specs (children cu) ∅).

End MethodFixture.

(** C5, as stated, fails. For [int foo(const char*, MyClass&)] the signature
    built is ["int foo(char *, MyClass &)"]: the name of a type is followed
    by a space, and the [const] of a base type is not printed. *)
Lemma C5_counterexample :
  set_function_parameters 10 None Fixture.foo_dbg "foo" [] Fixture.foo_die
    = Some "int foo(char *, MyClass &)"
  /\ (sl_function ∘ source <$>
        inliners_search_cb 10 (fun s => s) None Fixture.foo_dbg Fixture.foo_cu
          Fixture.foo_die [] (mk_trace 4100 0))
     <> Some "int foo(const char*, MyClass&)".
Proof. split; vm_compute; [reflexivity|discriminate]. Qed.

(** C5, amended. The signature built for a function DIE is: the name of the
    return type followed by a space, when the type that the DIE refers to
    (or else the type that the DIE completing it refers to) has a name, and
    nothing otherwise; then the scopes, each followed by [::], and the
    function name; then, in parentheses, the texts of the parameters joined
    by ", ". The parameters are those of the completing DIE (the DIE that the
    specification map of the unit or the abstract origin gives, else the
    function DIE itself), up to a child whose sibling cannot be read;
    artificial parameters are skipped. The text of a parameter is built right
    to left: the parameter's own name if it has one, then each pointer,
    reference, volatile or restrict modifier put in front as found, then the
    name of the type put in front, followed by a space unless the text was
    still empty; a parameter whose chain ends without a type gets [void] and
    a space in front. *)
Theorem C5_signature fuel specs dbg d name ns ps :
  let spec_die := Dw.or_default (get_spec_die specs dbg d) d in
  let own := get_referenced_die_name dbg d (at_type (attrs d)) true in
  let return_type :=
    if str_empty own
    then get_referenced_die_name dbg spec_die (at_type (attrs spec_die)) true
    else own in
  params_of fuel dbg (children spec_die) ps ->
  set_function_parameters fuel specs dbg name ns d
  = Some ((if str_empty return_type then "" else return_type +:+ " ")
          +:+ ns_prefix ns +:+ name
          +:+ "(" +:+ String.concat ", " (map param_text ps) +:+ ")").
Proof.
  intros spec_die own return_type Hps. unfold set_function_parameters.
  fold spec_die. fold own. fold return_type.
  pose proof (collect_parameters_closed fuel dbg (children spec_die) ps Hps) as Hc.
  destruct (collect_parameters fuel dbg (children spec_die) "") as [parameters|];
    [|discriminate].
  cbn in Hc. injection Hc as Hc. cbn [mbind option_bind]. rewrite Hc.
  destruct (str_empty return_type); cbn; by rewrite ?sapp_assoc.
Qed.

Lemma C5_signature_witness :
  set_function_parameters 10 None Fixture.foo_dbg "foo" [] Fixture.foo_die
  = Some "int foo(char *, MyClass &)"
  /\ set_function_parameters 10 None MethodFixture.dbg "get" ["MyClass"]
       MethodFixture.get_die
     = Some "int MyClass::get(char *s, MyClass &)"
  /\ set_function_parameters 10 MethodFixture.specs MethodFixture.dbg "reset" ["MyClass"]
       MethodFixture.reset_decl
     = Some "MyClass::reset(const size_type n)".
Proof.
  split; [|split].
  - apply (C5_signature 10 None Fixture.foo_dbg Fixture.foo_die "foo" []
             [(None, TPointer (TConst (TNamed "char")));
              (None, TReference (TNamed "MyClass"))]).
    apply params_cons; [reflexivity|reflexivity| |cbn; lia|].
    { apply denotes_pointer; [reflexivity|reflexivity|].
      apply denotes_const; [reflexivity|reflexivity|].
      by apply denotes_named. }
    apply params_cons; [reflexivity|reflexivity| |cbn; lia|].
    { apply denotes_reference; [reflexivity|reflexivity|]. by apply denotes_named. }
    apply params_nil.
  - apply (C5_signature 10 None MethodFixture.dbg MethodFixture.get_die "get" ["MyClass"]
             [(Some "s", TPointer (TNamed "char")); (None, TReference (TNamed "MyClass"))]).
    apply params_skip; [reflexivity|].
    apply params_cons; [reflexivity|reflexivity| |cbn; lia|].
    { apply denotes_pointer; [reflexivity|reflexivity|]. by apply denotes_named. }
    apply params_cons; [reflexivity|reflexivity| |cbn; lia|].
    { apply denotes_reference; [reflexivity|reflexivity|]. by apply denotes_named. }
    apply params_nil.
  - apply (C5_signature 10 MethodFixture.specs MethodFixture.dbg MethodFixture.reset_decl
             "reset" ["MyClass"] [(Some "n", TConst (TTypedef "size_type"))]).
    apply (params_cons 10 MethodFixture.dbg MethodFixture.n_param []);
      [reflexivity|reflexivity| |cbn; lia|].
    { apply denotes_const; [reflexivity|reflexivity|].
      by apply (denotes_typedef _ _ "size_type" MethodFixture.long_die). }
    apply params_nil.
Defined.

(** ** Reference chains and their depth *)

(** Every DIE of a tree, and of a debug handle. *)
Fixpoint die_and_below (d : Die) : list Die :=
  match d with
  | Die_mk _ cs => d :: flat_map die_and_below cs
  end.

Definition all_dies (dbg : Dwarf_Debug) : list Die :=
  flat_map die_and_below (cu_dies dbg).

Lemma die_and_below_self d : d ∈ die_and_below d.
Proof. destruct d. cbn. apply list_elem_of_here. Qed.

Lemma die_and_below_child d c x :
  c ∈ children d -> x ∈ die_and_below c -> x ∈ die_and_below d.
Proof.
  destruct d as [a cs]. cbn [children die_and_below]. intros Hc Hx.
  apply list_elem_of_further, list_elem_of_In, in_flat_map.
  exists c. split; by apply list_elem_of_In.
Qed.

Lemma die_and_below_trans d : forall x y,
  x ∈ die_and_below d -> y ∈ die_and_below x -> y ∈ die_and_below d.
Proof.
  induction d as [a cs IH] using Die_ind'. intros x y Hx Hy.
  cbn [die_and_below] in Hx. apply elem_of_cons in Hx as [->|Hx]; [exact Hy|].
  apply list_elem_of_In, in_flat_map in Hx as (c & Hc & Hx).
  apply list_elem_of_In in Hc, Hx.
  rewrite Forall_forall in IH.
  apply (die_and_below_child (Die_mk a cs) c); [exact Hc|].
  by apply (IH c Hc x y).
Qed.

Lemma all_dies_child dbg d c : d ∈ all_dies dbg -> c ∈ children d -> c ∈ all_dies dbg.
Proof.
  unfold all_dies. intros Hd Hc.
  apply list_elem_of_In, in_flat_map in Hd as (cu & Hcu & Hd).
  apply list_elem_of_In, in_flat_map. exists cu. split; [exact Hcu|].
  apply list_elem_of_In. apply list_elem_of_In in Hd.
  apply (die_and_below_trans cu d c Hd).
  apply (die_and_below_child d c c Hc), die_and_below_self.
Qed.

Lemma all_dies_cu dbg cu : cu ∈ cu_dies dbg -> cu ∈ all_dies dbg.
Proof.
  intros Hcu. apply list_elem_of_In, in_flat_map. exists cu.
  split; apply list_elem_of_In; [exact Hcu|apply die_and_below_self].
Qed.

Lemma first_some_elem {A B} (f : A -> option B) l y :
  first_some f l = Some y -> exists x, x ∈ l /\ f x = Some y.
Proof.
  induction l as [|x l IH]; [discriminate|]. cbn.
  destruct (f x) as [y'|] eqn:Hfx.
  - intros [= <-]. exists x. split; [apply list_elem_of_here|exact Hfx].
  - intros H. destruct (IH H) as (x' & Hin & Hx'). exists x'.
    split; [by apply list_elem_of_further|exact Hx'].
Qed.

Lemma find_off_spec off d : forall r,
  find_off off d = Some r -> r ∈ die_and_below d /\ dieoffset r = off.
Proof.
  induction d as [a cs IH] using Die_ind'. intros r. cbn [find_off].
  destruct (die_cu_base a + die_cu_off a =? off) eqn:Hoff.
  - intros [= <-]. split; [apply die_and_below_self|].
    unfold dieoffset. cbn. by apply Z.eqb_eq.
  - intros H. apply first_some_elem in H as (c & Hc & Hr).
    rewrite Forall_forall in IH. destruct (IH c Hc r Hr) as [Hin Ho].
    split; [|exact Ho]. by apply (die_and_below_child (Die_mk a cs) c).
Qed.

Lemma offdie_spec dbg off d :
  offdie dbg off = Some d -> d ∈ all_dies dbg /\ dieoffset d = off.
Proof.
  unfold offdie. intros H. apply first_some_elem in H as (cu & Hcu & Hd).
  apply find_off_spec in Hd as [Hin Ho]. split; [|exact Ho].
  apply list_elem_of_In, in_flat_map. exists cu. split; by apply list_elem_of_In.
Qed.

(** [ranked rk B dbg]: the references followed by the resolver go down in
    rank, so that no chain of them is longer than [B]. The references are:
    the abstract origin and the type of a DIE, and the link from a
    declaration to a DIE naming it as its specification. *)
Record ranked (rk : Z -> nat) (B : nat) (dbg : Dwarf_Debug) : Prop := mkRanked {
  rank_bound : forall o, (rk o <= B)%nat;
  rank_origin : forall d r,
    d ∈ all_dies dbg -> at_abstract_origin (attrs d) = Some r ->
    (rk (die_cu_base (attrs d) + r)%Z < rk (dieoffset d))%nat;
  rank_type : forall d r,
    d ∈ all_dies dbg -> at_type (attrs d) = Some r ->
    (rk (die_cu_base (attrs d) + r)%Z < rk (dieoffset d))%nat;
  rank_spec : forall d c,
    d ∈ all_dies dbg -> c ∈ all_dies dbg ->
    at_specification (attrs c) = Some (die_cu_off (attrs d)) ->
    (rk (dieoffset c) < rk (dieoffset d))%nat;
}.

(** A specification map whose entries come from the DIEs of [dbg]. *)
Definition spec_ok (dbg : Dwarf_Debug) (sm : gmap Z Z) : Prop :=
  forall k g, sm !! k = Some g ->
    exists c, c ∈ all_dies dbg /\ at_specification (attrs c) = Some k /\ dieoffset c = g.

Definition specs_ok (dbg : Dwarf_Debug) (specs : option (gmap Z Z)) : Prop :=
  forall sm, specs = Some sm -> spec_ok dbg sm.

Lemma index_specs_ok dbg ds : forall m,
  (forall c, c ∈ ds -> c ∈ all_dies dbg) -> spec_ok dbg m -> spec_ok dbg (index_specs ds m).
Proof.
  induction ds as [|c ds IH]; intros m Hin Hm; [exact Hm|].
  cbn [index_specs].
  assert (Hm' : spec_ok dbg
            (if is_subprogram (tag c) || is_inlined_subroutine (tag c)
             then match at_specification (attrs c) with
                  | Some spec_offset => <[spec_offset := dieoffset c]> m
                  | None => m
                  end
             else m)).
  { destruct (_ || _); [|exact Hm].
    destruct (at_specification (attrs c)) as [so|] eqn:Hso; [|exact Hm].
    intros k g. destruct (decide (so = k)) as [->|Hne].
    - rewrite lookup_insert_eq. intros [= <-]. exists c.
      split; [apply Hin, list_elem_of_here|done].
    - rewrite lookup_insert_ne by done. apply Hm. }
  destruct (sibling_err (attrs c)); [exact Hm'|].
  apply IH; [|exact Hm']. intros c' Hc'. by apply Hin, list_elem_of_further.
Qed.

Section Ranked.
Variables (rk : Z -> nat) (B : nat) (dbg : Dwarf_Debug) (specs : option (gmap Z Z)).
Hypothesis Hrk : ranked rk B dbg.
Hypothesis Hspecs : specs_ok dbg specs.

Lemma get_spec_die_from_dbg d d' :
  get_spec_die specs dbg d = Some d' -> d' ∈ all_dies dbg.
Proof.
  unfold get_spec_die, get_referenced_die.
  destruct specs as [sm|].
  - destruct (sm !! die_cu_off (attrs d)) as [g|].
    + destruct (offdie dbg g) as [x|] eqn:Hx.
      * intros [= <-]. by apply offdie_spec in Hx as [? _].
      * destruct (at_abstract_origin (attrs d)); [|discriminate].
        intros H. by apply offdie_spec in H as [? _].
    + destruct (at_abstract_origin (attrs d)); [|discriminate].
      intros H. by apply offdie_spec in H as [? _].
  - destruct (at_abstract_origin (attrs d)); [|discriminate].
    intros H. by apply offdie_spec in H as [? _].
Qed.

Lemma get_spec_die_rank d d' :
  d ∈ all_dies dbg -> get_spec_die specs dbg d = Some d' ->
  (rk (dieoffset d') < rk (dieoffset d))%nat.
Proof.
  intros Hd. unfold get_spec_die, get_referenced_die.
  assert (Hor : forall x, match at_abstract_origin (attrs d) with
                          | Some r => offdie dbg (die_cu_base (attrs d) + r)
                          | None => None end = Some x ->
                        (rk (dieoffset x) < rk (dieoffset d))%nat).
  { intros x. destruct (at_abstract_origin (attrs d)) as [r|] eqn:Hr; [|discriminate].
    intros Hx. apply offdie_spec in Hx as [_ ->]. by apply (rank_origin _ _ _ Hrk). }
  destruct specs as [sm|] eqn:Hsm; [|apply Hor].
  destruct (sm !! die_cu_off (attrs d)) as [g|] eqn:Hg; [|apply Hor].
  destruct (offdie dbg g) as [x|] eqn:Hx; [|apply Hor].
  intros [= <-]. apply offdie_spec in Hx as [_ Hoff].
  destruct (Hspecs sm eq_refl _ _ Hg) as (c & Hc & Hcs & Hco).
  rewrite Hoff, <- Hco. by apply (rank_spec _ _ _ Hrk).
Qed.

Lemma die_has_pc_ranked pc : forall n d,
  d ∈ all_dies dbg -> (rk (dieoffset d) < n)%nat ->
  is_Some (die_has_pc n specs dbg d pc).
Proof.
  induction n as [|n IH]; intros d Hd Hn; [lia|].
  cbn [die_has_pc].
  destruct (at_low_pc (attrs d)) as [low|]; [destruct (at_high_pc (attrs d)) as [[high cls]|]|];
    try (eexists; reflexivity);
    (destruct (negb _ && negb _ && negb _); [|eexists; reflexivity]);
    (destruct (get_spec_die specs dbg d) as [d'|] eqn:Hspec; [|eexists; reflexivity]);
    (apply IH; [by eapply get_spec_die_from_dbg|];
     pose proof (get_spec_die_rank d d' Hd Hspec); lia).
Qed.

(** With fuel above the bound, [die_has_pc] answers on any DIE. *)
Lemma die_has_pc_total n d pc :
  (B + 2 <= n)%nat -> is_Some (die_has_pc n specs dbg d pc).
Proof.
  intros Hn. destruct n as [|n]; [lia|]. cbn [die_has_pc].
  destruct (at_low_pc (attrs d)) as [low|]; [destruct (at_high_pc (attrs d)) as [[high cls]|]|];
    try (eexists; reflexivity);
    (destruct (negb _ && negb _ && negb _); [|eexists; reflexivity]);
    (destruct (get_spec_die specs dbg d) as [d'|] eqn:Hspec; [|eexists; reflexivity]);
    (apply die_has_pc_ranked; [by eapply get_spec_die_from_dbg|];
     pose proof (rank_bound _ _ _ Hrk (dieoffset d')); lia).
Qed.

Lemma set_parameter_string_step n d context :
  (forall ref c, get_referenced_die dbg d (at_type (attrs d)) true = Some ref ->
                 is_Some (set_parameter_string n dbg ref c)) ->
  is_Some (set_parameter_string (S n) dbg d context).
Proof.
  intros Hrec. cbn [set_parameter_string].
  destruct (get_referenced_die dbg d (at_type (attrs d)) true) as [ref|] eqn:Href.
  - destruct (Hrec ref (apply_die dbg d context) eq_refl) as [c5 ->].
    cbn. eexists; reflexivity.
  - cbn. eexists; reflexivity.
Qed.

Lemma set_parameter_string_ranked : forall n d context,
  d ∈ all_dies dbg -> (rk (dieoffset d) < n)%nat ->
  is_Some (set_parameter_string n dbg d context).
Proof.
  induction n as [|n IH]; intros d context Hd Hn; [lia|].
  apply set_parameter_string_step. intros ref c Href.
  unfold get_referenced_die in Href.
  destruct (at_type (attrs d)) as [r|] eqn:Hr; [|discriminate].
  pose proof (rank_type _ _ _ Hrk d r Hd Hr) as Hlt.
  apply offdie_spec in Href as [Hin Hoff].
  apply IH; [exact Hin|]. rewrite Hoff. lia.
Qed.

Lemma set_parameter_string_total n d context :
  (B + 2 <= n)%nat -> is_Some (set_parameter_string n dbg d context).
Proof.
  intros Hn. destruct n as [|n]; [lia|].
  apply set_parameter_string_step. intros ref c Href.
  unfold get_referenced_die in Href.
  destruct (at_type (attrs d)) as [r|]; [|discriminate].
  apply offdie_spec in Href as [Hin Hoff].
  apply set_parameter_string_ranked; [exact Hin|].
  pose proof (rank_bound _ _ _ Hrk (dieoffset ref)). lia.
Qed.

End Ranked.

(** ** Totality of the resolver *)

(** [extends t t']: [t'] is [t] with more information: the [Trace] part is
    the same and inliners were only appended. *)
Definition extends (t t' : ResolvedTrace) : Prop :=
  addr t' = addr t /\ idx t' = idx t /\ exists more, inliners t' = inliners t ++ more.

Lemma extends_refl t : extends t t.
Proof. repeat split. exists []. by rewrite app_nil_r. Qed.

Lemma extends_trans t1 t2 t3 : extends t1 t2 -> extends t2 t3 -> extends t1 t3.
Proof.
  intros (Ha & Hi & m1 & H1) (Ha' & Hi' & m2 & H2). repeat split; [congruence..|].
  exists (m1 ++ m2). by rewrite H2, H1, app_assoc.
Qed.

(** Closes [extends t t'] when [t'] is [t] with some of its object and
    source fields set. *)
Ltac same_trace :=
  split; [reflexivity|split; [reflexivity|exists []; cbn; by rewrite app_nil_r]].

Section Total.
Variables (rk : Z -> nat) (B : nat) (dbg : Dwarf_Debug) (specs : option (gmap Z Z)).
Variables (n : nat) (demangle : string -> string).
Hypothesis Hrk : ranked rk B dbg.
Hypothesis Hspecs : specs_ok dbg specs.
Hypothesis Hn : (B + 2 <= n)%nat.

Lemma collect_parameters_total ds : forall acc,
  is_Some (collect_parameters n dbg ds acc).
Proof.
  induction ds as [|d ds IH]; intros acc; [by eexists|].
  cbn [collect_parameters].
  destruct (is_formal_parameter (tag d) && negb (flag_set (at_artificial (attrs d)))).
  - destruct (set_parameter_string_total rk B dbg Hrk n d new_context Hn) as [c ->].
    cbn. destruct (sibling_err (attrs d)); [by eexists|apply IH].
  - cbn. destruct (sibling_err (attrs d)); [by eexists|apply IH].
Qed.

Lemma set_function_parameters_total name ns d :
  is_Some (set_function_parameters n specs dbg name ns d).
Proof.
  unfold set_function_parameters.
  destruct (collect_parameters_total
              (children (Dw.or_default (get_spec_die specs dbg d) d)) "") as [p ->].
  cbn. by eexists.
Qed.

Lemma inliners_search_cb_total cu_die d ns trace :
  exists trace',
    inliners_search_cb n demangle specs dbg cu_die d ns trace = Some trace'
    /\ extends trace trace'.
Proof.
  unfold inliners_search_cb.
  destruct (tag d); try (exists trace; split; [reflexivity|apply extends_refl]).
  - destruct (negb (str_empty (sl_function (source trace)))).
    { exists trace; split; [reflexivity|apply extends_refl]. }
    match goal with
    | |- context [set_function_parameters n specs dbg ?nm ns d] =>
        destruct (set_function_parameters_total nm ns d) as [fn ->]
    end.
    cbn. destruct (str_empty (object_function trace));
      [destruct (at_linkage_name (attrs d)); [|destruct (at_MIPS_linkage_name (attrs d))]|];
      (eexists; split; [reflexivity|]); same_trace.
  - unfold inliner_loc.
    match goal with
    | |- context [set_function_parameters n specs dbg ?nm ns d] =>
        destruct (set_function_parameters_total nm ns d) as [fn ->]
    end.
    cbn. eexists; split; [reflexivity|]. repeat split. by eexists.
Qed.

(** The tree search returns, for any callback that returns and keeps a
    preorder [R] on its state. *)
Section AnyCallback.
Context {S : Type} (R : S -> S -> Prop).
Variable cb : Die -> list string -> S -> option S.
Variable pc : Z.
Hypothesis R_refl : forall s, R s s.
Hypothesis R_trans : forall s1 s2 s3, R s1 s2 -> R s2 s3 -> R s1 s3.
Hypothesis cb_total : forall d ns s, exists s', cb d ns s = Some s' /\ R s s'.

Lemma dfs_visit_total search d b ns s :
  (forall ns s, exists b' ns' s', search d ns s = Some (b', ns', s') /\ R s s') ->
  exists e b' ns' s',
    dfs_visit n specs dbg cb pc search d b ns s = Some (e, b', ns', s') /\ R s s'.
Proof.
  intros Hsearch. unfold dfs_visit.
  assert (H1 : exists b1 ns1 s1,
             (if negb (is_declaration d)
              then search d (if opens_scope d then ns ++ [scope_name d] else ns) s
              else Some (b, if opens_scope d then ns ++ [scope_name d] else ns, s))
             = Some (b1, ns1, s1) /\ R s s1).
  { destruct (negb (is_declaration d)); [apply Hsearch|].
    eexists _, _, _. split; [reflexivity|apply R_refl]. }
  destruct H1 as (b1 & ns1 & s1 & -> & HR1). cbn.
  assert (H2 : is_Some (if b1 then Some true else die_has_pc n specs dbg d pc)).
  { destruct b1; [by eexists|]. by apply (die_has_pc_total rk B dbg specs Hrk Hspecs). }
  destruct H2 as [b2 ->]. cbn.
  assert (H3 : exists s2, (if b2 then cb d ns1 s1 else Some s1) = Some s2 /\ R s1 s2).
  { destruct b2; [apply cb_total|]. exists s1. split; [reflexivity|apply R_refl]. }
  destruct H3 as (s2 & -> & HR2). cbn.
  destruct (sibling_err (attrs d)); eexists _, _, _, _;
    (split; [reflexivity|by eapply R_trans]).
Qed.

Lemma dfs_walk_total visit ds :
  (forall d, d ∈ ds -> forall b ns s, exists e b' ns' s',
      visit d b ns s = Some (e, b', ns', s') /\ R s s') ->
  forall b ns s, exists b' ns' s',
    dfs_walk visit ds b ns s = Some (b', ns', s') /\ R s s'.
Proof.
  induction ds as [|d ds IH]; intros Hvisit b ns s.
  - eexists _, _, _. split; [reflexivity|apply R_refl].
  - cbn [dfs_walk].
    destruct (Hvisit d (list_elem_of_here _ _) b ns s) as (e & b1 & ns1 & s1 & -> & HR1).
    cbn. destruct e.
    + eexists _, _, _. split; [reflexivity|exact HR1].
    + destruct (IH (fun d' Hd' => Hvisit d' (list_elem_of_further _ _ _ Hd')) b1 ns1 s1)
        as (b2 & ns2 & s2 & -> & HR2).
      eexists _, _, _. split; [reflexivity|by eapply R_trans].
Qed.

Lemma dfs_total d : forall ns s, exists b' ns' s',
  deep_first_search_by_pc n specs dbg cb d pc ns s = Some (b', ns', s') /\ R s s'.
Proof.
  induction d as [a cs IH] using Die_ind'. intros ns s.
  rewrite dfs_unfold. destruct cs as [|c0 cs0].
  - eexists _, _, _. split; [reflexivity|apply R_refl].
  - apply dfs_walk_total. intros d Hd b ns1 s1.
    apply dfs_visit_total. rewrite Forall_forall in IH. by apply IH.
Qed.

End AnyCallback.

Lemma fundie_walk_total visit ds :
  (forall d, d ∈ ds -> is_Some (visit d)) -> is_Some (fundie_walk visit ds).
Proof.
  induction ds as [|d ds IH]; intros Hvisit; [by eexists|].
  cbn [fundie_walk].
  destruct (Hvisit d (list_elem_of_here _ _)) as [r ->]. cbn.
  destruct r; [by eexists|].
  apply IH. intros d' Hd'. by apply Hvisit, list_elem_of_further.
Qed.

Lemma find_fundie_by_pc_total pc d : is_Some (find_fundie_by_pc n specs dbg d pc).
Proof.
  induction d as [a cs IH] using Die_ind'. cbn [find_fundie_by_pc].
  apply fundie_walk_total. intros d Hd. unfold fundie_visit.
  assert (H1 : is_Some (if is_subprogram (tag d) || is_inlined_subroutine (tag d)
                        then die_has_pc n specs dbg d pc else Some false)).
  { destruct (_ || _); [|by eexists].
    by apply (die_has_pc_total rk B dbg specs Hrk Hspecs). }
  destruct H1 as [has ->]. cbn. destruct has; [by eexists|].
  assert (H2 : is_Some (if negb (flag_set (at_declaration (attrs d)))
                        then find_fundie_by_pc n specs dbg d pc else Some None)).
  { destruct (negb _); [|by eexists]. rewrite Forall_forall in IH. by apply IH. }
  destruct H2 as [indie ->]. cbn.
  destruct indie; [by eexists|]. destruct (sibling_err (attrs d)); by eexists.
Qed.

Lemma first_cu_total test cus :
  (forall cu, is_Some (test cu)) ->
  exists r, first_cu test cus = Some r /\ forall cu, r = Some cu -> cu ∈ cus.
Proof.
  intros Htest. induction cus as [|cu cus IH].
  - exists None. split; [reflexivity|discriminate].
  - cbn [first_cu]. destruct (Htest cu) as [ok ->]. cbn. destruct ok.
    + exists (Some cu). split; [reflexivity|]. intros ? [= <-]. apply list_elem_of_here.
    + destruct IH as (r & -> & Hr). exists r. split; [reflexivity|].
      intros cu' Hcu'. by apply list_elem_of_further, Hr.
Qed.

Lemma find_die_total a :
  exists r, find_die n specs dbg a = Some r /\ forall d, r = Some d -> d ∈ all_dies dbg.
Proof.
  unfold find_die.
  match goal with
  | |- context [match ?X with Some returnDie => Some (Some returnDie) | None => _ end] =>
      destruct X as [d0|] eqn:Har
  end.
  - exists (Some d0). split; [reflexivity|]. intros d [= <-].
    destruct (aranges dbg) as [ars|]; [|discriminate].
    destruct (get_arange ars a) as [ar|]; [|discriminate].
    destruct (ar_cu_die_offset ar) as [off|]; [|discriminate].
    by apply offdie_spec in Har as [? _].
  - destruct (first_cu_total
                (fun cu => if is_compile_unit (tag cu)
                           then die_has_pc n specs dbg cu a else Some false)
                (cu_dies dbg)) as (r1 & -> & Hr1).
    { intros cu. destruct (is_compile_unit (tag cu)); [|by eexists].
      by apply (die_has_pc_total rk B dbg specs Hrk Hspecs). }
    cbn. destruct r1 as [d1|].
    + exists (Some d1). split; [reflexivity|]. intros d [= <-].
      by apply all_dies_cu, Hr1.
    + destruct (first_cu_total
                  (fun cu => r ← find_fundie_by_pc n specs dbg cu a;
                             Some (match r with Some _ => true | None => false end))
                  (cu_dies dbg)) as (r2 & -> & Hr2).
      { intros cu. destruct (find_fundie_by_pc_total a cu) as [r ->]. by eexists. }
      exists r2. split; [reflexivity|]. intros d ->. by apply all_dies_cu, Hr2.
Qed.

End Total.

(** *** Well-formed caches *)

Definition cache_ok (dbg : Dwarf_Debug) (fobj : dwarf_fileobject) : Prop :=
  forall k e, die_cache fobj !! k = Some e -> spec_ok dbg (spec_section e).

(** A loaded object whose debug data has bounded reference chains and whose
    cached specification maps were built from that data. *)
Definition fobj_ok (B : nat) (fobj : dwarf_fileobject) : Prop :=
  forall dbg, dwarf_handle fobj = Some dbg ->
    (exists rk, ranked rk B dbg) /\ cache_ok dbg fobj.

Definition state_ok (B : nat) (st : State) : Prop :=
  forall path fobj, fobj_dwarf_map st !! path = Some fobj -> fobj_ok B fobj.

(** A symbol table the loader can read: a non-zero entry size, data that
    [elf_getdata] returns, as many entries in it as the header announces, and
    a readable name for every function symbol. *)
Definition named_if_function (symbol : Elf_Sym) : bool :=
  negb ((st_type symbol =? STT_FUNC) && (0 <? st_value symbol))
  || match st_name symbol with Some _ => true | None => false end.

Definition table_ok (s : Elf_Scn) : bool :=
  match shdr s with
  | None => true
  | Some h =>
      if (sh_type h =? SHT_SYMTAB) || (sh_type h =? SHT_DYNSYM) then
        negb (sh_entsize h =? 0)
        && match scn_data s with Some _ => true | None => false end
        && (sh_size h / sh_entsize h <=? Z.of_nat (length (scn_symbols s)))
        && forallb named_if_function (scn_symbols s)
      else true
  end.

Definition image_ok (elf : Elf) : bool := forallb table_ok (sections elf).

(** Every image the file system can yield has readable symbol tables, and
    every debug handle has reference chains of length at most [B]. *)
Definition env_ok (B : nat) (env : Env) : Prop :=
  (forall fd elf, elf_begin env fd = Some elf -> image_ok elf = true)
  /\ forall fd elf dbg, elf_begin env fd = Some elf -> dwarf_elf_init elf = Some dbg ->
       exists rk, ranked rk B dbg.

Lemma state_ok_init B : state_ok B init.
Proof. intros path fobj H. cbn in H. by rewrite lookup_empty in H. Qed.

Lemma current_specs_ok dbg fobj : cache_ok dbg fobj -> specs_ok dbg (current_specs fobj).
Proof.
  intros Hc sm. unfold current_specs.
  destruct (current_cu fobj) as [k|]; [|discriminate].
  destruct (die_cache fobj !! k) as [e|] eqn:He; [|discriminate].
  intros [= <-]. by apply (Hc k e).
Qed.

Lemma build_entry_ok dbg d :
  d ∈ all_dies dbg -> spec_ok dbg (spec_section (build_entry dbg d)).
Proof.
  intros Hd.
  assert (H : spec_ok dbg (index_specs (children d) ∅)).
  { apply index_specs_ok.
    - intros c Hc. by apply (all_dies_child dbg d c).
    - intros k g Hk. by rewrite lookup_empty in Hk. }
  unfold build_entry. destruct (srclines dbg (dieoffset d)) as [[lines|]|]; exact H.
Qed.

Lemma get_die_cache_ok dbg fobj d :
  cache_ok dbg fobj -> d ∈ all_dies dbg ->
  cache_ok dbg (fst (get_die_cache dbg fobj d))
  /\ dwarf_handle (fst (get_die_cache dbg fobj d)) = dwarf_handle fobj.
Proof.
  intros Hc Hd. unfold get_die_cache.
  destruct (die_cache fobj !! dieoffset d) as [e|] eqn:He; cbn; [by split|].
  split; [|reflexivity]. intros k e. cbn.
  destruct (decide (dieoffset d = k)) as [->|Hne].
  - rewrite lookup_insert_eq. intros [= <-]. by apply build_entry_ok.
  - rewrite lookup_insert_ne by done. apply Hc.
Qed.

Lemma set_line_info_extends line trace : extends trace (set_line_info line trace).
Proof. unfold set_line_info. destruct (linesrc line); same_trace. Qed.

(** Inside a loaded object every step returns; what fails is skipped. *)
Lemma resolve_in_object_total rk B fuel env dbg fobj address trace :
  ranked rk B dbg -> cache_ok dbg fobj -> (B + 2 <= fuel)%nat ->
  exists fobj' trace',
    resolve_in_object fuel env dbg fobj address trace = Some (fobj', trace')
    /\ extends trace trace'
    /\ cache_ok dbg fobj' /\ dwarf_handle fobj' = dwarf_handle fobj.
Proof.
  intros Hrk Hc Hfuel. unfold resolve_in_object.
  set (trace0 := if str_empty (object_function trace) then _ else trace).
  assert (H0 : extends trace trace0).
  { unfold trace0. destruct (str_empty _); [|apply extends_refl].
    destruct (lookup_symbol _ _); [same_trace|apply extends_refl]. }
  destruct (find_die_total rk B dbg (current_specs fobj) fuel Hrk
              (current_specs_ok dbg fobj Hc) Hfuel address) as (r & -> & Hr).
  cbn. destruct r as [die|]; [|by exists fobj, trace0].
  destruct (get_die_cache_ok dbg fobj die Hc (Hr die eq_refl)) as [Hc' Hh'].
  destruct (get_die_cache dbg fobj die) as [fobj' de]. cbn [fst] in Hc', Hh'.
  destruct (isEmpty de); [by exists fobj', trace0|].
  destruct (lookup_line (line_section de) address) as [row|]; [|by exists fobj', trace0].
  set (line := Dw.or_default _ unreadable_line).
  destruct (dfs_total rk B dbg (current_specs fobj') fuel Hrk
              (current_specs_ok dbg fobj' Hc') Hfuel extends
              (inliners_search_cb fuel (demangle env) (current_specs fobj') dbg die)
              address extends_refl extends_trans
              (inliners_search_cb_total rk B dbg (current_specs fobj') fuel (demangle env)
                 Hrk Hfuel die)
              die [] (set_line_info line trace0)) as (b & ns' & trace2 & -> & H2).
  cbn. exists fobj', trace2. split; [reflexivity|]. split; [|by split].
  eapply extends_trans; [exact H0|].
  eapply extends_trans; [apply set_line_info_extends|exact H2].
Qed.

(** *** Readable symbol tables are read *)

Lemma cache_symbols_done syms : forall m,
  forallb named_if_function syms = true -> exists m', cache_symbols syms m = Done m'.
Proof.
  induction syms as [|symbol rest IH]; intros m Hall; [by eexists|].
  cbn [forallb] in Hall. apply andb_prop in Hall as [Hs Hrest].
  cbn [cache_symbols]. unfold named_if_function in Hs.
  destruct ((st_type symbol =? STT_FUNC) && (0 <? st_value symbol)); [|by apply IH].
  destruct (st_name symbol) as [name|]; [by apply IH|discriminate].
Qed.

Lemma forallb_firstn {A} (f : A -> bool) n (l : list A) :
  forallb f l = true -> forallb f (firstn n l) = true.
Proof.
  revert n. induction l as [|x l IH]; intros [|n] H; try reflexivity.
  cbn in *. apply andb_prop in H as [-> H]. by apply IH.
Qed.

(** The table taken by the pass is one of the readable sections, with the
    count its header gives. *)
Definition scan_ok (sc : scan) : Prop :=
  match symbol_section sc with
  | None => True
  | Some s =>
      exists h, shdr s = Some h
        /\ sh_entsize h <> 0
        /\ is_Some (scn_data s)
        /\ symbol_count sc = sh_size h / sh_entsize h
        /\ symbol_count sc <= Z.of_nat (length (scn_symbols s))
        /\ forallb named_if_function (scn_symbols s) = true
  end.

Lemma take_table_ok s h acc :
  shdr s = Some h -> table_ok s = true ->
  (sh_type h =? SHT_SYMTAB) || (sh_type h =? SHT_DYNSYM) = true ->
  exists sc, take_table s h acc = Done sc /\ scan_ok sc.
Proof.
  intros Hh Hok Hty. unfold table_ok in Hok. rewrite Hh, Hty in Hok.
  apply andb_prop in Hok as [Hok Hnamed]. apply andb_prop in Hok as [Hok Hlen].
  apply andb_prop in Hok as [Hent Hdata].
  apply negb_true_iff in Hent. apply Z.leb_le in Hlen.
  unfold take_table. rewrite Hent. eexists. split; [reflexivity|].
  unfold scan_ok. cbn. exists h. split; [exact Hh|].
  split; [by apply Z.eqb_neq|]. split; [by destruct (scn_data s)|]. done.
Qed.

Lemma scan_sections_done scns : forall acc,
  forallb table_ok scns = true -> scan_ok acc ->
  exists r, scan_sections scns acc = Done r
            /\ forall sc, r = Some sc -> scan_ok sc.
Proof.
  induction scns as [|s rest IH]; intros acc Hall Hacc.
  - exists (Some acc). split; [reflexivity|]. by intros sc [= <-].
  - cbn [forallb] in Hall. apply andb_prop in Hall as [Hs Hrest].
    cbn [scan_sections].
    destruct (shdr s) as [h|] eqn:Hh; [|by exists None].
    destruct (sh_name h) as [name|]; [|by exists None].
    match goal with |- context [take_table s h ?a] => set (acc1 := a) end.
    assert (Hacc1 : scan_ok acc1).
    { unfold acc1. destruct (String.eqb _ _); [|exact Hacc].
      destruct (scn_data s) as [[d_size d_buf]|]; [|exact Hacc].
      destruct (0 <? d_size); exact Hacc. }
    assert (Hstep : exists acc2,
               (if sh_type h =? SHT_SYMTAB then take_table s h acc1
                else if sh_type h =? SHT_DYNSYM then
                  match symbol_section acc1 with
                  | None => take_table s h acc1
                  | Some _ => Done acc1
                  end
                else Done acc1) = Done acc2 /\ scan_ok acc2).
    { destruct (sh_type h =? SHT_SYMTAB) eqn:Hsym.
      - apply (take_table_ok s h acc1 Hh Hs). by rewrite Hsym.
      - destruct (sh_type h =? SHT_DYNSYM) eqn:Hdyn; [|by exists acc1].
        destruct (symbol_section acc1) eqn:Hsec; [by exists acc1|].
        apply (take_table_ok s h acc1 Hh Hs). by rewrite Hsym, Hdyn. }
    destruct Hstep as (acc2 & -> & Hacc2). cbn [mbind outcome_bind].
    by apply IH.
Qed.

Lemma symbols_of_scan_done sc :
  scan_ok sc -> exists symbols, symbols_of_scan sc = Done symbols.
Proof.
  unfold scan_ok, symbols_of_scan.
  destruct (symbol_section sc) as [s|]; [|by eexists].
  intros (h & Hh & Hent & [data Hdata] & Hcount & Hlen & Hnamed).
  destruct (negb _ && negb _); [|by eexists].
  rewrite Hdata.
  replace (Z.of_nat (length (scn_symbols s)) <? symbol_count sc) with false
    by (symmetry; apply Z.ltb_ge; lia).
  apply cache_symbols_done. by apply forallb_firstn.
Qed.

Lemma elf_get_data_done elf cls :
  image_ok elf = true -> exists r, elf_get_data elf cls = Done r.
Proof.
  intros Hok. unfold elf_get_data.
  destruct ((cls =? ELFCLASS32) || (cls =? ELFCLASS64)); [|by eexists].
  destruct (scan_sections_done (sections elf) (mkScan "" None 0 0) Hok I)
    as (r & -> & Hr).
  cbn [mbind outcome_bind]. destruct r as [sc|]; [|by eexists].
  destruct (symbols_of_scan_done sc (Hr sc eq_refl)) as [symbols ->].
  by eexists.
Qed.

Lemma parse_object_ok B env path :
  env_ok B env ->
  exists r log, parse_object env path = Done (r, log) /\ fobj_ok B r.
Proof.
  intros [Himg Henv]. unfold parse_object.
  assert (Hun : forall syms, fobj_ok B (mkFobj None None None syms ∅ None))
    by (intros ? ? H; discriminate H).
  assert (Hld : forall fd elf d syms,
            (exists fd', elf_begin env fd' = Some elf) -> dwarf_elf_init elf = Some d ->
            fobj_ok B (mkFobj (Some fd) (Some elf) (Some d) syms ∅ None)).
  { intros fd elf d syms [fd' Hfd'] Hd dbg [= ->]. split; [by eapply Henv|].
    intros k e H. cbn in H. by rewrite lookup_empty in H. }
  destruct (open_ env path <? 0); [eexists _, _; split; [reflexivity|apply (Hun [])]|].
  destruct (elf_begin env (open_ env path)) as [elf|] eqn:Helf;
    [|eexists _, _; split; [reflexivity|apply (Hun [])]].
  destruct (e_ident_class elf) as [cls|];
    [|eexists _, _; split; [reflexivity|apply (Hun [])]].
  destruct (negb (getshdrnum_ok elf) || negb (getshdrstrndx_ok elf));
    [eexists _, _; split; [reflexivity|apply (Hun [])]|].
  destruct (elf_get_data_done elf cls (Himg _ _ Helf)) as [data ->].
  cbn [mbind outcome_bind].
  destruct data as [[dl syms]|]; [|eexists _, _; split; [reflexivity|apply (Hun [])]].
  destruct (str_empty dl).
  - destruct (dwarf_elf_init elf) as [d|] eqn:Hd;
      (eexists _, _; split; [reflexivity|]); [|apply Hun].
    apply Hld; eauto.
  - destruct (0 <? open_ env dl).
    + destruct (elf_begin env (open_ env dl)) as [elf2|] eqn:Helf2.
      * destruct (dwarf_elf_init elf2) as [d|] eqn:Hd;
          (eexists _, _; split; [reflexivity|]); [|apply Hun].
        apply Hld; eauto.
      * destruct (dwarf_elf_init elf) as [d|] eqn:Hd;
          (eexists _, _; split; [reflexivity|]); [|apply Hun].
        apply Hld; eauto.
    + destruct (dwarf_elf_init elf) as [d|] eqn:Hd;
        (eexists _, _; split; [reflexivity|]); [|apply Hun].
      apply Hld; eauto.
Qed.

Lemma load_ok B env st path :
  env_ok B env -> state_ok B st ->
  exists st1 fobj,
    load_object_with_dwarf env st path = Done (st1, fobj)
    /\ state_ok B st1 /\ fobj_ok B fobj.
Proof.
  intros Henv Hst. unfold load_object_with_dwarf.
  destruct (fobj_dwarf_map st !! path) as [f|] eqn:Hf.
  - eexists _, _. split; [reflexivity|]. split; [exact Hst|by apply (Hst path)].
  - destruct (parse_object_ok B env path Henv) as (r & log & -> & Hp).
    cbn [mbind outcome_bind]. eexists _, _. split; [reflexivity|]. split; [|exact Hp].
    intros p f. cbn [fobj_dwarf_map]. destruct (decide (path = p)) as [->|Hne].
    + rewrite lookup_insert_eq. by intros [= <-].
    + rewrite lookup_insert_ne by done. apply Hst.
Qed.

Lemma store_fobj_ok B path fobj st :
  state_ok B st -> fobj_ok B fobj -> state_ok B (store_fobj path fobj st).
Proof.
  intros Hst Hf p f. cbn [store_fobj fobj_dwarf_map]. unfold store_fobj.
  cbn [fobj_dwarf_map]. destruct (decide (path = p)) as [->|Hne].
  - rewrite lookup_insert_eq. by intros [= <-].
  - rewrite lookup_insert_ne by done. apply Hst.
Qed.


(** *** Unreadable symbol tables

    The process of the inlining fixture with a damaged [/bin/app]: the
    header of [.symtab] announces entries of size 0; or [elf_getdata] gives
    nothing for the section; or the name of a function symbol cannot be
    read. *)
Module BrokenImage.

Definition env_of (symtab : Elf_Scn) : Env :=
  mkEnv (fun a => if (4096 <=? a) && (a <? 4352)
                  then Some (mkDlInfo (Some "/bin/app") (Some "outer_fn"), 0)
                  else None)
        "app" "/bin/app" (fun s => s) true
        (fun path => if String.eqb path "/bin/app" then 3 else -1)
        (fun fd => if fd =? 3
                   then Some (mkElf (Some ELFCLASS64) true true [symtab]
                                    (Some Fixture.chain_dbg))
                   else None).

Definition zero_entsize : Elf_Scn :=
  mkScn (Some (mkShdr (Some ".symtab") SHT_SYMTAB 24 0 1)) (Some (24, ""))
        [mkSym STT_FUNC 4096 (Some "outer_fn")].

Definition no_data : Elf_Scn :=
  mkScn (Some (mkShdr (Some ".symtab") SHT_SYMTAB 24 24 1)) None [].

Definition no_name : Elf_Scn :=
  mkScn (Some (mkShdr (Some ".symtab") SHT_SYMTAB 24 24 1)) (Some (24, ""))
        [mkSym STT_FUNC 4096 None].

End BrokenImage.

Lemma resolve_load_crash fuel env st trace info l_addr fname :
  dladdr1 env (addr trace) = Some (info, l_addr) ->
  dli_fname info = Some fname ->
  load_object_with_dwarf env st (fst (resolve_exec_path env fname)) = Crash ->
  resolve fuel env st trace = Some Crash.
Proof.
  intros Hdl Hfn Hload. unfold resolve. rewrite Hdl, Hfn.
  destruct (resolve_exec_path env fname) as [to_open display]. cbn [fst] in Hload.
  by rewrite Hload.
Qed.

(** C4. The per-trace resolve is not total. For an address of an object
    whose symbol table has a header with entry size 0, resolve divides by
    that size while loading the object and does not return a trace, whatever
    the fuel; the same holds when [elf_getdata] gives no data for the symbol
    section, which is read through a null pointer, and when the name of a
    function symbol cannot be read, which makes a string from a null
    pointer. The address itself is an ordinary one: with the symbol table
    intact the same call returns. *)
Theorem C4_resolve_crash (fuel : nat) :
  resolve fuel (BrokenImage.env_of BrokenImage.zero_entsize) init (mk_trace 4140 0)
  = Some Crash
  /\ resolve fuel (BrokenImage.env_of BrokenImage.no_data) init (mk_trace 4140 0)
     = Some Crash
  /\ resolve fuel (BrokenImage.env_of BrokenImage.no_name) init (mk_trace 4140 0)
     = Some Crash
  /\ exists st' trace',
       resolve 2 (BrokenImage.env_of (SplitDebug.symtab_scn "outer_fn" 4096)) init
               (mk_trace 4140 0)
       = Some (Done (st', trace'))
       /\ object_function trace' = "outer_fn".
Proof.
  split; [|split; [|split]].
  - by apply (resolve_load_crash fuel _ init _
                (mkDlInfo (Some "/bin/app") (Some "outer_fn")) 0 "/bin/app").
  - by apply (resolve_load_crash fuel _ init _
                (mkDlInfo (Some "/bin/app") (Some "outer_fn")) 0 "/bin/app").
  - by apply (resolve_load_crash fuel _ init _
                (mkDlInfo (Some "/bin/app") (Some "outer_fn")) 0 "/bin/app").
  - eexists _, _. split; reflexivity.
Qed.

(** Debug data without any of the followed references has chains of
    length 0. *)
Lemma ranked_no_refs dbg :
  Forall (fun d => at_abstract_origin (attrs d) = None
                   /\ at_type (attrs d) = None
                   /\ at_specification (attrs d) = None) (all_dies dbg) ->
  ranked (fun _ => 0%nat) 0 dbg.
Proof.
  rewrite Forall_forall. intros Hall. split.
  - intros o. lia.
  - intros d r Hd Hr. destruct (Hall d Hd) as (H & _ & _). congruence.
  - intros d r Hd Hr. destruct (Hall d Hd) as (_ & H & _). congruence.
  - intros d c Hd Hc Hs. destruct (Hall c Hc) as (_ & _ & H). congruence.
Qed.

Lemma chain_env_ok : env_ok 0 Fixture.chain_env.
Proof.
  split.
  - intros fd elf Helf. cbn in Helf.
    destruct (fd =? 3); [|discriminate]. by injection Helf as <-.
  - intros fd elf dbg Helf Hdbg. cbn in Helf.
    destruct (fd =? 3); [|discriminate]. injection Helf as <-.
    cbn in Hdbg. injection Hdbg as <-.
    exists (fun _ => 0%nat). apply ranked_no_refs. repeat constructor.
Qed.


(** An object that cannot be opened: the path stays in the cache as an
    entry without handles, and is opened once. *)
Lemma C6_load_idempotent_failure_cached_witness :
  exists st1,
    load_object_with_dwarf Fixture.chain_env init "/lib/missing.so" = Done (st1, empty_fobj)
    /\ fobj_dwarf_map st1 !! "/lib/missing.so" = Some empty_fobj
    /\ opened st1 = ["/lib/missing.so"]
    /\ (exists st2,
          load_object_with_dwarf Fixture.chain_env st1 "/lib/missing.so"
          = Done (st2, empty_fobj)
          /\ opened st2 = ["/lib/missing.so"])
    /\ unloaded empty_fobj.
Proof.
  destruct C6_load_idempotent_failure_cached as [Hdwarf _].
  pose proof (Hdwarf Fixture.chain_env init "/lib/missing.so") as Hload.
  change (load_object_with_dwarf Fixture.chain_env init "/lib/missing.so")
    with (Done (mkState true (<["/lib/missing.so" := empty_fobj]> ∅) ["/lib/missing.so"],
                empty_fobj)) in Hload.
  destruct Hload as (Hst & Hagain & Hfail).
  destruct (Hagain Fixture.chain_env) as (st2 & Hload2 & _ & Hopened).
  destruct (Hfail eq_refl eq_refl) as [Hun _].
  eexists. split; [reflexivity|]. split; [exact Hst|]. split; [reflexivity|].
  split; [|exact Hun]. exists st2. split; [exact Hload2|exact Hopened].
Defined.

End Dwarf.

(** * Further properties

    The rest of the facade's behaviour, the helpers of the resolvers, the
    backends built on [backtrace_symbols] and on libbfd, the lookups of the
    libdw and libdwarf resolvers, and the [handle] class. *)

(** ** The facade: repeated batches and the size of the cache *)

Module FacadeFacts.
Import Facade.

Section WithBackend.
Context {B : Type} `{Backend B}.

Lemma resolve_loop_dom addresses : forall st i a,
  is_Some (locs (fst (resolve_loop st i addresses)) !! a)
  <-> is_Some (locs st !! a) \/ a ∈ addresses.
Proof.
  induction addresses as [|a0 rest IH]; intros st i a.
  - cbn. split; [by left|]. intros [?|Hin]; [done|by apply elem_of_nil in Hin].
  - cbn [resolve_loop].
    assert (H1 : is_Some (locs (fst (resolve_one st i a0)) !! a)
                 <-> is_Some (locs st !! a) \/ a = a0).
    { unfold resolve_one. destruct (locs st !! a0) as [loc|] eqn:Ha0.
      - cbn. split; [by left|]. intros [?| ->]; [done|]. rewrite Ha0. by eexists.
      - destruct (backend_resolve _ _) as [b' res]. cbn.
        destruct (decide (a0 = a)) as [->|Hne].
        + rewrite lookup_insert_eq. split; [by right|by eexists].
        + rewrite lookup_insert_ne by done.
          split; [by left|]. intros [?|?]; [done|congruence]. }
    destruct (resolve_one st i a0) as [st1 loc]. cbn [fst] in H1.
    specialize (IH st1 (Datatypes.S i) a).
    destruct (resolve_loop st1 (Datatypes.S i) rest) as [st2 ret]. cbn [fst] in *.
    rewrite IH, H1, elem_of_cons. tauto.
Qed.

(** When every address is cached the loop only reads. *)
Lemma resolve_loop_cached addresses : forall st i,
  (forall a, a ∈ addresses -> is_Some (locs st !! a)) ->
  fst (resolve_loop st i addresses) = st
  /\ forall (k : nat) a, addresses !! k = Some a ->
       snd (resolve_loop st i addresses) !! k = locs st !! a.
Proof.
  induction addresses as [|a0 rest IH]; intros st i Hall; [by split|].
  cbn [resolve_loop].
  destruct (Hall a0 (list_elem_of_here _ _)) as [v Hv].
  rewrite (resolve_one_hit st i a0 v Hv).
  destruct (IH st (Datatypes.S i)
              (fun a Ha => Hall a (list_elem_of_further _ _ _ Ha))) as [Hst Hret].
  destruct (resolve_loop st (Datatypes.S i) rest) as [st2 ret]. cbn [fst snd] in *.
  split; [exact Hst|]. intros [|k] a Hk; cbn in *.
  - injection Hk as <-. by rewrite Hv.
  - by apply Hret.
Qed.

(** X1. Resolving a batch a second time gives the same locations, calls the
    backend for no address and leaves the cache as it is, in any state of
    the facade and for any backend. *)
Theorem resolve_twice (st : State) (addresses : list Z) :
  let st1 := fst (resolve st addresses) in
  let st2 := fst (resolve st1 addresses) in
  snd (resolve st1 addresses) = snd (resolve st addresses)
  /\ locs st2 = locs st1
  /\ calls st2 = calls st1.
Proof.
  intros st1 st2.
  assert (Hlen : length (snd (resolve st addresses)) = length addresses)
    by apply resolve_loop_length.
  assert (Hith : forall (i : nat) a, addresses !! i = Some a ->
            snd (resolve st addresses) !! i = locs st1 !! a /\ is_Some (locs st1 !! a))
    by (intros i a Hi; by apply resolve_loop_lookup).
  assert (Hall : forall a, a ∈ addresses -> is_Some (locs st1 !! a)).
  { intros a Ha. apply list_elem_of_lookup in Ha as [i Hi].
    by destruct (Hith i a Hi) as [_ ?]. }
  set (st1' := mkState (load_addresses (resolver st1) addresses) (locs st1) (calls st1)).
  destruct (resolve_loop_cached addresses st1' 0%nat Hall) as [Hst Hret].
  assert (Hst2 : st2 = st1') by exact Hst.
  split; [|by rewrite Hst2].
  apply list_eq. intros k. unfold resolve at 1. fold st1'.
  destruct (addresses !! k) as [a|] eqn:Hk.
  - rewrite (Hret k a Hk). by destruct (Hith k a Hk) as [-> _].
  - apply lookup_ge_None in Hk.
    rewrite (proj2 (lookup_ge_None _ _)), (proj2 (lookup_ge_None _ _)); [done|..].
    + by rewrite Hlen.
    + pose proof (resolve_loop_length addresses st1' 0%nat). lia.
Qed.

Lemma resolve_dom st addresses a :
  is_Some (locs (fst (resolve st addresses)) !! a)
  <-> is_Some (locs st !! a) \/ a ∈ addresses.
Proof. unfold resolve. by rewrite resolve_loop_dom. Qed.

Lemma run_dom batches : forall st a,
  is_Some (locs (run st batches) !! a)
  <-> is_Some (locs st !! a) \/ a ∈ concat batches.
Proof.
  induction batches as [|b rest IH]; intros st a.
  - cbn. split; [by left|]. intros [?|Hin]; [done|by apply elem_of_nil in Hin].
  - cbn [run concat]. rewrite IH, resolve_dom, elem_of_app. tauto.
Qed.

(** X2. After any sequence of batches from the empty cache, the cache holds
    exactly the addresses that occurred in some batch, and the backend was
    called once per cache entry: the number of calls is the number of
    distinct addresses seen. *)
Theorem cache_is_addresses_seen (b : B) (batches : list (list Z)) :
  let st := run (init b) batches in
  (forall a, is_Some (locs st !! a) <-> a ∈ concat batches)
  /\ length (calls st) = size (locs st).
Proof.
  intros st. split.
  - intros a. unfold st. rewrite run_dom. cbn. rewrite lookup_empty.
    split; [intros [[? ?]|?]; done|by right].
  - destruct (run_inv batches (init b) (inv_init b)) as [Hnd Hdom]. fold st in Hnd, Hdom.
    rewrite <- size_dom, <- (size_list_to_set (C:=gset Z) (calls st) Hnd).
    f_equal. apply set_eq. intros a.
    rewrite elem_of_list_to_set, elem_of_dom. apply Hdom.
Qed.

End WithBackend.
End FacadeFacts.

(** ** [split_source_prefixes] *)

Module Prefixes.

(** [s.substr(pos)] and [s.substr(0, n)] on strings. *)
Fixpoint sdrop (n : nat) (s : string) : string :=
  match n, s with
  | O, _ => s
  | Datatypes.S n', String _ r => sdrop n' r
  | Datatypes.S _, EmptyString => EmptyString
  end.

Fixpoint stake (n : nat) (s : string) : string :=
  match n, s with
  | O, _ => EmptyString
  | Datatypes.S n', String x r => String x (stake n' r)
  | Datatypes.S _, EmptyString => EmptyString
  end.

(** [s.substr(pos, len)] *)
Definition substr (s : string) (pos len : nat) : string := stake len (sdrop pos s).

(** The position of the first [c] in [s]. *)
Fixpoint find_char (c : Ascii.ascii) (s : string) : option nat :=
  match s with
  | EmptyString => None
  | String x r => if Ascii.eqb x c then Some O else Datatypes.S <$> find_char c r
  end.

(** [s.find(delimiter, pos)] for the one-character delimiter; [None] is
    [npos]. *)
Definition find (c : Ascii.ascii) (s : string) (pos : nat) : option nat :=
  (fun i => (pos + i)%nat) <$> find_char c (sdrop pos s).

(** The [while] loop and the final [if]; [fuel] bounds the number of
    turns. *)
Fixpoint split_loop (fuel : nat) (c : Ascii.ascii) (s : string) (last : nat)
    (out : list string) : option (list string) :=
  match fuel with
  | O => None
  | Datatypes.S fuel' =>
      match find c s last with
      | Some next => split_loop fuel' c s (next + 1) (out ++ [substr s last (next - last)])
      | None =>
          Some (if (last <=? String.length s)%nat
                then out ++ [sdrop last s]
                else out)
      end
  end.

(** [split_source_prefixes], for the delimiter [c] of the platform (a colon,
    or a semicolon on Windows). The loop makes at most one turn per
    character. *)
Definition split_source_prefixes (c : Ascii.ascii) (s : string) : option (list string) :=
  split_loop (Datatypes.S (String.length s)) c s 0 [].

(** The pieces of a string between the occurrences of [c]. *)
Fixpoint pieces (c : Ascii.ascii) (s : string) : list string :=
  match s with
  | EmptyString => [EmptyString]
  | String x r =>
      if Ascii.eqb x c then EmptyString :: pieces c r
      else match pieces c r with
           | p :: ps => String x p :: ps
           | [] => [String x EmptyString]
           end
  end.

Fixpoint count_char (c : Ascii.ascii) (s : string) : nat :=
  match s with
  | EmptyString => O
  | String x r => ((if Ascii.eqb x c then 1 else 0) + count_char c r)%nat
  end.

Lemma sdrop_length n : forall s, (n <= String.length s)%nat ->
  String.length (sdrop n s) = (String.length s - n)%nat.
Proof.
  induction n as [|n IH]; intros s Hn; cbn; [lia|].
  destruct s as [|x r]; cbn in *; [lia|]. apply IH. lia.
Qed.

Lemma sdrop_sdrop n : forall m s, sdrop m (sdrop n s) = sdrop (n + m) s.
Proof.
  induction n as [|n IH]; intros m s; [reflexivity|].
  destruct s as [|x r]; cbn; [by destruct m|]. apply IH.
Qed.

Lemma find_char_bound c s i : find_char c s = Some i -> (i < String.length s)%nat.
Proof.
  revert i. induction s as [|x r IH]; intros i; cbn; [discriminate|].
  destruct (Ascii.eqb x c); [intros [= <-]; lia|].
  destruct (find_char c r) as [j|]; [|discriminate].
  intros [= <-]. specialize (IH j eq_refl). lia.
Qed.

Lemma pieces_found c s i :
  find_char c s = Some i ->
  pieces c s = stake i s :: pieces c (sdrop (Datatypes.S i) s).
Proof.
  revert i. induction s as [|x r IH]; intros i; cbn [find_char pieces]; [discriminate|].
  destruct (Ascii.eqb x c); [by intros [= <-]|].
  destruct (find_char c r) as [j|]; [|discriminate].
  intros [= <-]. by rewrite (IH j eq_refl).
Qed.

Lemma pieces_not_found c s : find_char c s = None -> pieces c s = [s].
Proof.
  induction s as [|x r IH]; cbn [find_char pieces]; [done|].
  destruct (Ascii.eqb x c); [discriminate|].
  destruct (find_char c r); [discriminate|]. intros _. by rewrite IH.
Qed.

Lemma split_loop_pieces c s : forall fuel last out,
  (last <= String.length s)%nat -> (String.length s - last < fuel)%nat ->
  split_loop fuel c s last out = Some (out ++ pieces c (sdrop last s)).
Proof.
  induction fuel as [|fuel IH]; intros last out Hlast Hfuel; [lia|].
  cbn [split_loop]. unfold find.
  destruct (find_char c (sdrop last s)) as [i|] eqn:Hi; cbn.
  - pose proof (find_char_bound _ _ _ Hi) as Hb. rewrite sdrop_length in Hb by lia.
    rewrite IH by lia.
    rewrite (pieces_found _ _ _ Hi), sdrop_sdrop.
    unfold substr. replace (last + i - last)%nat with i by lia.
    replace (last + i + 1)%nat with (last + Datatypes.S i)%nat by lia.
    by rewrite <- app_assoc.
  - rewrite (pieces_not_found _ _ Hi).
    by replace (last <=? String.length s)%nat with true
      by (symmetry; apply Nat.leb_le; lia).
Qed.

Lemma split_is_pieces c s : split_source_prefixes c s = Some (pieces c s).
Proof. unfold split_source_prefixes. rewrite split_loop_pieces; [done|lia..]. Qed.

Lemma pieces_nonempty c s : pieces c s <> [].
Proof. destruct s as [|x r]; cbn; [done|]. destruct (Ascii.eqb x c); [done|by destruct (pieces c r)]. Qed.

Lemma pieces_join c s : String.concat (String c EmptyString) (pieces c s) = s.
Proof.
  induction s as [|x r IH]; [reflexivity|]. cbn [pieces].
  destruct (Ascii.eqb x c) eqn:Hx.
  - apply Ascii.eqb_eq in Hx as ->. pose proof (pieces_nonempty c r) as Hne.
    destruct (pieces c r) as [|p ps] eqn:Hp; [done|].
    change (String.concat (String c "") ("" :: p :: ps))
      with (String c (String.concat (String c "") (p :: ps))).
    by rewrite IH.
  - pose proof (pieces_nonempty c r) as Hne.
    destruct (pieces c r) as [|p ps]; [done|].
    destruct ps as [|q qs].
    + cbn in *. by rewrite IH.
    + change (String.concat (String c "") (String x p :: q :: qs))
        with (String x (String.concat (String c "") (p :: q :: qs))).
      by rewrite IH.
Qed.

Lemma pieces_length c s : length (pieces c s) = Datatypes.S (count_char c s).
Proof.
  induction s as [|x r IH]; [reflexivity|]. cbn [pieces count_char].
  destruct (Ascii.eqb x c); cbn; [by rewrite IH|].
  pose proof (pieces_nonempty c r). destruct (pieces c r); [done|]. exact IH.
Qed.

Lemma pieces_clean c s : Forall (fun p => count_char c p = O) (pieces c s).
Proof.
  induction s as [|x r IH]; [by repeat constructor|]. cbn [pieces].
  destruct (Ascii.eqb x c) eqn:Hx; [by constructor|].
  destruct (pieces c r) as [|p ps]; [repeat constructor; cbn; by rewrite Hx|].
  apply Forall_cons in IH as [Hp Hps]. constructor; [|exact Hps].
  cbn. by rewrite Hx, Hp.
Qed.

(** X3. Splitting never fails and loses nothing: joining the pieces with
    the delimiter gives the string back. *)
Theorem split_join (c : Ascii.ascii) (s : string) :
  exists out, split_source_prefixes c s = Some out
              /\ String.concat (String c EmptyString) out = s.
Proof. exists (pieces c s). split; [apply split_is_pieces|apply pieces_join]. Qed.

(** X4. The result has one piece more than the string has delimiters, and
    no piece contains the delimiter. In particular the empty string gives
    one empty piece, not the empty list. *)
Theorem split_count (c : Ascii.ascii) (s : string) :
  exists out, split_source_prefixes c s = Some out
              /\ length out = Datatypes.S (count_char c s)
              /\ Forall (fun p => count_char c p = O) out
              /\ split_source_prefixes c EmptyString = Some [EmptyString].
Proof.
  exists (pieces c s). split; [apply split_is_pieces|].
  split; [apply pieces_length|]. split; [apply pieces_clean|reflexivity].
Qed.

End Prefixes.

(** ** [read_symlink] *)

Module ExecPath.

(** [readlink(path, buf, size)] on a link whose target is [target]: the
    number of bytes placed in the buffer, which is the length of the target
    cut at [size]. A link that cannot be read is [None] and gives a negative
    result. *)
Definition readlink (target : string) (size : nat) : nat :=
  Nat.min (String.length target) size.

(** The loop of [read_symlink]; [size] is [path.size()]. *)
Fixpoint read_symlink_loop (fuel : nat) (target : option string) (size : nat)
  : option string :=
  match fuel with
  | O => None
  | Datatypes.S fuel' =>
      match target with
      | None => Some EmptyString
      | Some t =>
          let len := readlink t size in
          if (len =? size)%nat then read_symlink_loop fuel' target (size * 2)
          else Some (Prefixes.stake len t)
      end
  end.

(** [read_symlink]: the buffer starts at 100 bytes. It doubles at most once
    per byte of the target. *)
Definition read_symlink (target : option string) : option string :=
  read_symlink_loop
    (Datatypes.S (match target with Some t => String.length t | None => O end))
    target 100.

Lemma stake_all s : Prefixes.stake (String.length s) s = s.
Proof. induction s as [|x r IH]; cbn; [done|by rewrite IH]. Qed.

Lemma read_symlink_loop_fits t : forall fuel size,
  (0 < size)%nat -> (String.length t < size + fuel)%nat ->
  read_symlink_loop (Datatypes.S fuel) (Some t) size = Some t.
Proof.
  induction fuel as [|fuel IH]; intros size Hsize Hfit; cbn [read_symlink_loop];
    unfold readlink.
  - replace (Nat.min (String.length t) size) with (String.length t) by lia.
    replace (String.length t =? size)%nat with false by (symmetry; apply Nat.eqb_neq; lia).
    by rewrite stake_all.
  - destruct (Nat.min (String.length t) size =? size)%nat eqn:Hfull.
    + apply IH; lia.
    + apply Nat.eqb_neq in Hfull.
      replace (Nat.min (String.length t) size) with (String.length t) by lia.
      by rewrite stake_all.
Qed.

(** X5. [read_symlink] returns the whole target of the link, however long
    it is (never a prefix cut at the buffer size), and the empty string when
    the link cannot be read. *)
Theorem read_symlink_whole (target : option string) :
  read_symlink target = Some (Dw.or_default target EmptyString).
Proof.
  unfold read_symlink. destruct target as [t|]; [|reflexivity].
  apply read_symlink_loop_fits; [lia|]. cbn. lia.
Qed.

End ExecPath.

(** ** The [backtrace_symbols] backend *)

Module BacktraceSymbol.
Import Stdlib.Strings.Ascii.

(** A scan that advances a pointer while it is not at the end of the string
    and not at a stop character: the characters passed and the rest of the
    string, which is empty or starts with a stop character. *)
Fixpoint span_until (stop : Ascii.ascii -> bool) (s : string) : string * string :=
  match s with
  | EmptyString => (EmptyString, EmptyString)
  | String x r =>
      if stop x then (EmptyString, s)
      else let '(a, b) := span_until stop r in (String x a, b)
  end.

Definition is_open (c : Ascii.ascii) : bool := Ascii.eqb c "("%char.
Definition ends_name (c : Ascii.ascii) : bool :=
  Ascii.eqb c ")"%char || Ascii.eqb c "+"%char.

(** No character of the string is a stop character. *)
Fixpoint avoids (stop : Ascii.ascii -> bool) (s : string) : bool :=
  match s with
  | EmptyString => true
  | String x r => negb (stop x) && avoids stop r
  end.

Section WithLibc.

(** [backtrace_symbols(addresses, count)]: one line per address. The call
    is taken to succeed; it returns null only when memory is exhausted. *)
Variable backtrace_symbols : list Z -> list string.
Variable demangle : string -> string.

(** The state of the backend is the array held by [_symbols]. *)
Definition load_addresses (symbols : list string) (addresses : list Z) : list string :=
  match addresses with
  | [] => symbols
  | _ => backtrace_symbols addresses
  end.

(** [resolve]. The line is cut in place at the end of the function name,
    so the array is part of the result. An index outside the array is not
    reached from the facade, which loads the batch before it resolves. *)
Definition resolve (symbols : list string) (trace : ResolvedTrace)
  : list string * ResolvedTrace :=
  match symbols !! Z.to_nat (idx trace) with
  | None => (symbols, trace)
  | Some line =>
      let '(file, rest) := span_until is_open line in
      let trace := set_object_filename file trace in
      match rest with
      | EmptyString => (symbols, trace)
      | String open after =>
          let '(fn, _) := span_until ends_name after in
          let f := demangle fn in
          (<[Z.to_nat (idx trace) := file +:+ String open fn]> symbols,
           set_source_function f (set_object_function f trace))
      end
  end.

#[local] Instance backend : Backend (list string) :=
  Build_Backend _ load_addresses resolve.

(** What [resolve] reads off one line: the object file, the function name
    when the line has a parenthesis, and the line as it is left. *)
Definition line_file (line : string) : string := fst (span_until is_open line).

Definition line_function (line : string) : option string :=
  match snd (span_until is_open line) with
  | EmptyString => None
  | String _ after => Some (fst (span_until ends_name after))
  end.

Definition cut (line : string) : string :=
  match snd (span_until is_open line) with
  | EmptyString => line
  | String open after =>
      line_file line +:+ String open (fst (span_until ends_name after))
  end.

(** The location the facade keeps for a line. *)
Definition line_source (line : string) : SourceLoc :=
  match line_function line with
  | None => unknown_loc
  | Some fn => mkSourceLoc "" (demangle fn) 0 0
  end.

End WithLibc.

(** *** Scanning *)

Lemma span_until_app stop s :
  fst (span_until stop s) +:+ snd (span_until stop s) = s.
Proof.
  induction s as [|x r IH]; [done|]. cbn [span_until].
  destruct (stop x); [done|].
  destruct (span_until stop r) as [a b]. cbn [fst snd] in *.
  change (String x a +:+ b) with (String x (a +:+ b)). by rewrite IH.
Qed.

Lemma span_until_avoids stop s : avoids stop (fst (span_until stop s)) = true.
Proof.
  induction s as [|x r IH]; [done|]. cbn [span_until].
  destruct (stop x) eqn:Hx; [done|].
  destruct (span_until stop r) as [a b]. cbn in *. by rewrite Hx, IH.
Qed.

Lemma span_until_rest stop s :
  match snd (span_until stop s) with
  | EmptyString => True
  | String x _ => stop x = true
  end.
Proof.
  induction s as [|x r IH]; [done|]. cbn [span_until].
  destruct (stop x) eqn:Hx; [done|].
  by destruct (span_until stop r) as [a b].
Qed.

(** A scan stops at the first stop character and not before. *)
Lemma span_until_stop stop a r :
  avoids stop a = true ->
  match r with EmptyString => True | String x _ => stop x = true end ->
  span_until stop (a +:+ r) = (a, r).
Proof.
  intros Ha Hr. induction a as [|y a IH].
  - change (EmptyString +:+ r) with r. destruct r as [|x r]; [done|].
    cbn [span_until]. by rewrite Hr.
  - change (String y a +:+ r) with (String y (a +:+ r)). cbn [span_until].
    cbn in Ha. apply andb_prop in Ha as [Hy Ha]. apply negb_true_iff in Hy.
    by rewrite Hy, (IH Ha).
Qed.

Lemma span_until_all stop a :
  avoids stop a = true -> span_until stop a = (a, EmptyString).
Proof.
  intros Ha. rewrite <- (Dwarf.sapp_nil_r a) at 1. by apply span_until_stop.
Qed.

Lemma resolve_line demangle symbols trace line :
  symbols !! Z.to_nat (idx trace) = Some line ->
  resolve demangle symbols trace
  = (<[Z.to_nat (idx trace) := cut line]> symbols,
     match line_function line with
     | None => set_object_filename (line_file line) trace
     | Some fn =>
         set_source_function (demangle fn)
           (set_object_function (demangle fn)
              (set_object_filename (line_file line) trace))
     end).
Proof.
  intros Hline. unfold resolve, cut, line_function, line_file. rewrite Hline.
  destruct (span_until is_open line) as [file rest]. cbn [fst snd].
  destruct rest as [|open after].
  - by rewrite list_insert_id.
  - by destruct (span_until ends_name after) as [fn tl].
Qed.

Lemma span_cut line :
  span_until is_open (cut line)
  = (line_file line,
     match snd (span_until is_open line) with
     | EmptyString => EmptyString
     | String open after => String open (fst (span_until ends_name after))
     end).
Proof.
  unfold cut, line_file.
  pose proof (span_until_app is_open line) as Happ.
  pose proof (span_until_avoids is_open line) as Hav.
  pose proof (span_until_rest is_open line) as Hrest.
  destruct (span_until is_open line) as [file rest]. cbn [fst snd] in *.
  destruct rest as [|open after].
  - rewrite Dwarf.sapp_nil_r in Happ. subst file. by apply span_until_all.
  - by apply span_until_stop.
Qed.

Lemma line_file_cut line : line_file (cut line) = line_file line.
Proof. unfold line_file at 1. by rewrite span_cut. Qed.

Lemma line_function_cut line : line_function (cut line) = line_function line.
Proof.
  unfold line_function. rewrite span_cut. cbn [snd].
  destruct (snd (span_until is_open line)) as [|open after]; [done|].
  by rewrite (span_until_all _ _ (span_until_avoids ends_name after)).
Qed.

Lemma cut_cut line : cut (cut line) = cut line.
Proof.
  unfold cut at 1. rewrite line_file_cut, span_cut. cbn [snd].
  unfold cut.
  destruct (snd (span_until is_open line)) as [|open after]; [done|].
  by rewrite (span_until_all _ _ (span_until_avoids ends_name after)).
Qed.

Lemma line_source_cut demangle line :
  line_source demangle (cut line) = line_source demangle line.
Proof. unfold line_source. by rewrite line_function_cut. Qed.

(** X6. A line [file(function+offset) [address]] gives the file as the
    object file and the demangled function as both the object function and
    the source function, whatever follows the name; the file, line and
    column of the source are left as they were, and the line is left cut
    after the name. *)
Theorem resolve_parenthesised
    (demangle : string -> string) (symbols : list string) (trace : ResolvedTrace)
    (file fn rest : string) :
  symbols !! Z.to_nat (idx trace) = Some (file +:+ String "("%char (fn +:+ rest)) ->
  avoids is_open file = true ->
  avoids ends_name fn = true ->
  match rest with EmptyString => True | String x _ => ends_name x = true end ->
  let '(symbols', res) := resolve demangle symbols trace in
  object_filename res = file
  /\ object_function res = demangle fn
  /\ sl_function (source res) = demangle fn
  /\ sl_filename (source res) = sl_filename (source trace)
  /\ sl_line (source res) = sl_line (source trace)
  /\ sl_col (source res) = sl_col (source trace)
  /\ symbols' !! Z.to_nat (idx trace) = Some (file +:+ String "("%char fn).
Proof.
  intros Hline Hfile Hfn Hrest.
  assert (Hopen : span_until is_open (file +:+ String "("%char (fn +:+ rest))
                  = (file, String "("%char (fn +:+ rest)))
    by (by apply span_until_stop).
  assert (Hname : span_until ends_name (fn +:+ rest) = (fn, rest))
    by (by apply span_until_stop).
  rewrite (resolve_line _ _ _ _ Hline).
  unfold cut, line_function, line_file. rewrite Hopen. cbn [fst snd].
  rewrite Hname. cbn [fst snd].
  repeat split. apply list_lookup_insert_eq. eapply lookup_lt_Some, Hline.
Qed.

(** X7. A line without a parenthesis is taken whole as the object file;
    the function names, the source and the array are left as they were. *)
Theorem resolve_plain
    (demangle : string -> string) (symbols : list string) (trace : ResolvedTrace)
    (line : string) :
  symbols !! Z.to_nat (idx trace) = Some line ->
  avoids is_open line = true ->
  resolve demangle symbols trace = (symbols, set_object_filename line trace).
Proof.
  intros Hline Hav. rewrite (resolve_line _ _ _ _ Hline).
  unfold cut, line_function, line_file. rewrite (span_until_all _ _ Hav). cbn [fst snd].
  by rewrite list_insert_id.
Qed.

(** X8. Cutting the line in place does not change what a later [resolve] of
    the same trace reads: the second call returns the same trace and leaves
    the array as the first call left it. *)
Theorem resolve_again
    (demangle : string -> string) (symbols : list string) (trace : ResolvedTrace) :
  let '(symbols', res) := resolve demangle symbols trace in
  resolve demangle symbols' trace = (symbols', res).
Proof.
  destruct (symbols !! Z.to_nat (idx trace)) as [line|] eqn:Hline.
  - rewrite (resolve_line _ _ _ _ Hline).
    assert (Hcut : <[Z.to_nat (idx trace) := cut line]> symbols !! Z.to_nat (idx trace)
                   = Some (cut line)).
    { apply list_lookup_insert_eq. eapply lookup_lt_Some, Hline. }
    rewrite (resolve_line _ _ _ _ Hcut).
    by rewrite list_insert_insert_eq, cut_cut, line_function_cut, line_file_cut.
  - unfold resolve. by rewrite Hline, Hline.
Qed.

Lemma resolve_parenthesised_witness :
  let r := resolve (fun s => s) ["./a.out(_Z3foov+0x12) [0x401136]"] (mk_trace 4198710 0) in
  object_filename (snd r) = "./a.out"
  /\ object_function (snd r) = "_Z3foov"
  /\ sl_function (source (snd r)) = "_Z3foov"
  /\ fst r = ["./a.out(_Z3foov"].
Proof.
  pose proof (resolve_parenthesised (fun s => s)
                ["./a.out(_Z3foov+0x12) [0x401136]"] (mk_trace 4198710 0)
                "./a.out" "_Z3foov" "+0x12) [0x401136]"
                eq_refl eq_refl eq_refl eq_refl) as Hres.
  cbv zeta.
  destruct (resolve (fun s => s) ["./a.out(_Z3foov+0x12) [0x401136]"] (mk_trace 4198710 0))
    as [symbols' res] eqn:Hrun.
  destruct Hres as (Hfile & Hfn & Hsrc & _ & _ & _). cbn [fst snd].
  repeat split; [exact Hfile|exact Hfn|exact Hsrc|].
  vm_compute in Hrun. by injection Hrun as <- _.
Defined.

Lemma resolve_plain_witness :
  resolve (fun s => s) ["[0x401136]"] (mk_trace 4198710 0)
  = (["[0x401136]"], set_object_filename "[0x401136]" (mk_trace 4198710 0)).
Proof.
  exact (resolve_plain (fun s => s) ["[0x401136]"] (mk_trace 4198710 0) "[0x401136]"
           eq_refl eq_refl).
Defined.

(** *** The backend behind the facade *)

Section Behind.

(** The line [backtrace_symbols] gives for an address: it depends on the
    address alone while the loaded objects stay the same. *)
Variable sym : Z -> string.
Variable backtrace_symbols : list Z -> list string.
Variable demangle : string -> string.
Hypothesis backtrace_symbols_sym : forall l, backtrace_symbols l = map sym l.

#[local] Existing Instance backend.

Let St := @Facade.State (list string).

(** Every cached location is the one read off the line of its address. *)
Definition cache_reads (st : St) : Prop :=
  forall a v, Facade.locs st !! a = Some v -> v = line_source demangle (sym a).

(** From index [i] on the array holds the lines of the addresses still to
    resolve, each as loaded or already cut. *)
Definition aligned (st : St) (i : nat) (rest : list Z) : Prop :=
  forall (k : nat) a, rest !! k = Some a ->
    exists line, Facade.resolver st !! (i + k)%nat = Some line
                 /\ (line = sym a \/ line = cut (sym a)).

Lemma resolve_source symbols a i line :
  symbols !! i = Some line ->
  @backend_resolve _ (backend backtrace_symbols demangle) symbols
      (mk_trace a (Z.of_nat i))
  = (<[i := cut line]> symbols,
     snd (resolve demangle symbols (mk_trace a (Z.of_nat i))))
  /\ source (snd (resolve demangle symbols (mk_trace a (Z.of_nat i))))
     = line_source demangle line.
Proof.
  intros Hline. change (@backend_resolve _ _ symbols ?t) with (resolve demangle symbols t).
  assert (Hidx : symbols !! Z.to_nat (idx (mk_trace a (Z.of_nat i))) = Some line)
    by (cbn [idx mk_trace]; by rewrite Nat2Z.id).
  rewrite (resolve_line _ _ _ _ Hidx). cbn [idx mk_trace fst snd]. rewrite Nat2Z.id.
  split; [done|]. unfold line_source. by destruct (line_function line).
Qed.

Lemma resolve_loop_reads rest : forall (st : St) i,
  cache_reads st -> aligned st i rest ->
  snd (@Facade.resolve_loop _ (backend backtrace_symbols demangle) st i rest)
  = map (fun a => line_source demangle (sym a)) rest
  /\ cache_reads (fst (@Facade.resolve_loop _ (backend backtrace_symbols demangle) st i rest)).
Proof.
  induction rest as [|a rest IH]; intros st i Hcache Hal; [by split|].
  cbn [Facade.resolve_loop map].
  destruct (Hal O a eq_refl) as (line & Hline & Hsame). rewrite Nat.add_0_r in Hline.
  assert (Hsrc : line_source demangle line = line_source demangle (sym a))
    by (destruct Hsame as [->| ->]; [done|apply line_source_cut]).
  assert (Hstep : exists st1,
            @Facade.resolve_one _ (backend backtrace_symbols demangle) st i a
            = (st1, line_source demangle (sym a))
            /\ cache_reads st1 /\ aligned st1 (Datatypes.S i) rest).
  { unfold Facade.resolve_one.
    destruct (Facade.locs st !! a) as [loc|] eqn:Ha.
    - exists st. rewrite (Hcache a loc Ha). split; [done|]. split; [done|].
      intros k b Hk. destruct (Hal (Datatypes.S k) b Hk) as (l & Hl & Hs).
      exists l. split; [|done]. by rewrite <- Hl, Nat.add_succ_r.
    - destruct (resolve_source (Facade.resolver st) a i line Hline) as [Hres Hloc].
      rewrite Hres, Hloc, Hsrc. eexists. split; [reflexivity|]. split.
      + intros b v. cbn [Facade.locs].
        destruct (decide (a = b)) as [<-|Hne].
        * rewrite lookup_insert_eq. by intros [= <-].
        * rewrite lookup_insert_ne by done. apply Hcache.
      + intros k b Hk. destruct (Hal (Datatypes.S k) b Hk) as (l & Hl & Hs).
        exists l. split; [|done]. cbn [Facade.resolver].
        rewrite list_lookup_insert_ne by lia. by rewrite <- Hl, Nat.add_succ_r. }
  destruct Hstep as (st1 & -> & Hcache1 & Hal1).
  destruct (IH st1 (Datatypes.S i) Hcache1 Hal1) as [Hret Hc2].
  destruct (Facade.resolve_loop st1 (Datatypes.S i) rest) as [st2 ret].
  cbn [fst snd] in *. by rewrite Hret.
Qed.

Lemma resolve_reads (st : St) (b : list Z) :
  cache_reads st ->
  snd (@Facade.resolve _ (backend backtrace_symbols demangle) st b)
  = map (fun a => line_source demangle (sym a)) b
  /\ cache_reads (fst (@Facade.resolve _ (backend backtrace_symbols demangle) st b)).
Proof.
  intros Hcache.
  change (@Facade.resolve _ (backend backtrace_symbols demangle) st b)
    with (@Facade.resolve_loop _ (backend backtrace_symbols demangle)
            (Facade.mkState (load_addresses backtrace_symbols (Facade.resolver st) b)
               (Facade.locs st) (Facade.calls st)) 0 b).
  apply resolve_loop_reads; [exact Hcache|].
  intros k a Hk. exists (sym a). split; [|by left]. cbn [Facade.resolver].
  destruct b as [|a0 b]; [done|]. unfold load_addresses.
  rewrite backtrace_symbols_sym. change (map sym (a0 :: b)) with (sym <$> (a0 :: b)).
  change (0 + k)%nat with k. by rewrite list_lookup_fmap, Hk.
Qed.

Lemma run_reads batches : forall st : St,
  cache_reads st ->
  cache_reads (@Facade.run _ (backend backtrace_symbols demangle) st batches).
Proof.
  induction batches as [|b rest IH]; intros st Hcache; [done|].
  cbn [Facade.run]. apply IH. by apply resolve_reads.
Qed.

(** X9. Behind the facade the backend reads, for every address of every
    batch, the line of that address: the location returned at position [i]
    is the one read off the symbol line of [addresses[i]], whichever batches
    came before, which of the addresses were cached and which lines an
    earlier resolve has cut. *)
Theorem facade_reads_own_line (symbols : list string) (batches : list (list Z))
    (addresses : list Z) :
  snd (@Facade.resolve _ (backend backtrace_symbols demangle)
         (@Facade.run _ (backend backtrace_symbols demangle)
            (Facade.init symbols) batches) addresses)
  = map (fun a => line_source demangle (sym a)) addresses.
Proof.
  apply resolve_reads, run_reads. intros a v. cbn. by rewrite lookup_empty.
Qed.

End Behind.

(** The lines of a small process, for examples. *)
Definition example_sym (a : Z) : string :=
  if (a =? 4198710)%Z then "./a.out(_Z3foov+0x12) [0x401136]"
  else if (a =? 4198800)%Z then "./a.out(main+0x9) [0x401190]"
  else "[0x0]".

Lemma facade_reads_own_line_witness :
  map sl_function
    (snd (@Facade.resolve _ (backend (map example_sym) (fun s => s))
            (@Facade.run _ (backend (map example_sym) (fun s => s))
               (Facade.init []) [[4198800; 4198710]]) [4198710; 0; 4198800]))
  = ["_Z3foov"; ""; "main"].
Proof.
  rewrite (facade_reads_own_line example_sym (map example_sym) (fun s => s)
             (fun l => eq_refl) [] [[4198800; 4198710]] [4198710; 0; 4198800]).
  reflexivity.
Defined.

End BacktraceSymbol.

(** ** The ordered maps of the libdwarf resolver: line index and symbols *)

Module Lookup.
Import Dwarf.

Section Sorted.
Context {V : Type}.
Implicit Types m : list (Z * V).

(** The order of a [std::map]: keys strictly increasing. *)
Fixpoint sorted m : Prop :=
  match m with
  | [] => True
  | (k, _) :: rest => (forall k' v', (k', v') ∈ rest -> k < k') /\ sorted rest
  end.

Lemma insert_elem k v m k' v' :
  sorted m ->
  (k', v') ∈ OrdMap.insert k v m
  <-> (k', v') ∈ m \/ (k' = k /\ v' = v /\ forall w, (k, w) ∉ m).
Proof.
  induction m as [|[k0 v0] rest IH]; intros Hs.
  - cbn. rewrite list_elem_of_singleton. split.
    + intros [= -> ->]. right. repeat split. intros w Hw. by apply elem_of_nil in Hw.
    + intros [Hin|(-> & -> & _)]; [by apply elem_of_nil in Hin|done].
  - destruct Hs as [Hlow Hs]. cbn [OrdMap.insert].
    destruct (k <? k0) eqn:Hlt; [|destruct (k =? k0) eqn:Heq].
    + apply Z.ltb_lt in Hlt. rewrite elem_of_cons. split.
      * intros [[= -> ->]|Hin]; [|by left]. right. repeat split.
        intros w Hw. apply elem_of_cons in Hw as [[= ? ?]|Hw]; [lia|].
        specialize (Hlow _ _ Hw). lia.
      * intros [Hin|(-> & -> & _)]; [by right|by left].
    + apply Z.eqb_eq in Heq as ->. split; [by left|].
      intros [Hin|(_ & _ & Hno)]; [done|]. destruct (Hno v0). apply list_elem_of_here.
    + apply Z.ltb_ge in Hlt. apply Z.eqb_neq in Heq.
      rewrite !elem_of_cons, (IH Hs). split.
      * intros [Hhd|[Hin|(-> & -> & Hno)]]; [by left; left|by left; right|].
        right. repeat split. intros w Hw.
        apply elem_of_cons in Hw as [[= ? ?]|Hw]; [lia|by apply (Hno w)].
      * intros [[Hhd|Hin]|(-> & -> & Hno)]; [by left|by right; left|].
        right. right. repeat split. intros w Hw. apply (Hno w). by apply list_elem_of_further.
Qed.

Lemma insert_sorted k v m : sorted m -> sorted (OrdMap.insert k v m).
Proof.
  induction m as [|[k0 v0] rest IH]; intros Hs.
  - cbn. split; [|done]. intros k' v' Hin. by apply elem_of_nil in Hin.
  - pose proof Hs as [Hlow Hs']. cbn [OrdMap.insert].
    destruct (k <? k0) eqn:Hlt; [|destruct (k =? k0) eqn:Heq]; [|done|].
    + apply Z.ltb_lt in Hlt. split; [|done]. intros k' v' Hin.
      apply elem_of_cons in Hin as [[= -> ->]|Hin]; [done|].
      specialize (Hlow _ _ Hin). lia.
    + apply Z.ltb_ge in Hlt. apply Z.eqb_neq in Heq. split; [|by apply IH].
      intros k' v' Hin. apply (insert_elem _ _ _ _ _ Hs') in Hin as [Hin|(-> & _)];
        [by apply (Hlow _ _ Hin)|lia].
Qed.

Lemma assign_elem k v m k' v' :
  sorted m ->
  (k', v') ∈ OrdMap.assign k v m
  <-> (k' <> k /\ (k', v') ∈ m) \/ (k' = k /\ v' = v).
Proof.
  induction m as [|[k0 v0] rest IH]; intros Hs.
  - cbn. rewrite list_elem_of_singleton. split.
    + intros [= -> ->]. by right.
    + intros [[_ Hin]|[-> ->]]; [by apply elem_of_nil in Hin|done].
  - destruct Hs as [Hlow Hs]. cbn [OrdMap.assign].
    destruct (k <? k0) eqn:Hlt; [|destruct (k =? k0) eqn:Heq].
    + apply Z.ltb_lt in Hlt. rewrite elem_of_cons. split.
      * intros [[= -> ->]|Hin]; [by right|]. left. split; [|done].
        apply elem_of_cons in Hin as [[= ? ?]|Hin]; [lia|].
        specialize (Hlow _ _ Hin). lia.
      * intros [[_ Hin]|[-> ->]]; [by right|by left].
    + apply Z.eqb_eq in Heq as ->. rewrite !elem_of_cons. split.
      * intros [[= -> ->]|Hin]; [by right|]. left.
        specialize (Hlow _ _ Hin). split; [lia|by right].
      * intros [[Hne [Hhd|Hin]]|[-> ->]]; [congruence|by right|by left].
    + apply Z.ltb_ge in Hlt. apply Z.eqb_neq in Heq.
      rewrite !elem_of_cons, (IH Hs). split.
      * intros [[= -> ->]|[[Hne Hin]|[-> ->]]]; [|by left; split; [|right]|by right].
        left. split; [lia|by left].
      * intros [[Hne [Hhd|Hin]]|[-> ->]]; [by left|by right; left|by right; right].
Qed.

Lemma assign_sorted k v m : sorted m -> sorted (OrdMap.assign k v m).
Proof.
  induction m as [|[k0 v0] rest IH]; intros Hs.
  - cbn. split; [|done]. intros k' v' Hin. by apply elem_of_nil in Hin.
  - pose proof Hs as [Hlow Hs']. cbn [OrdMap.assign].
    destruct (k <? k0) eqn:Hlt; [|destruct (k =? k0) eqn:Heq].
    + apply Z.ltb_lt in Hlt. split; [|done]. intros k' v' Hin.
      apply elem_of_cons in Hin as [[= -> ->]|Hin]; [done|].
      specialize (Hlow _ _ Hin). lia.
    + apply Z.eqb_eq in Heq as ->. by split.
    + apply Z.ltb_ge in Hlt. apply Z.eqb_neq in Heq. split; [|by apply IH].
      intros k' v' Hin. apply (assign_elem _ _ _ _ _ Hs') in Hin as [[_ Hin]|[-> _]];
        [by apply (Hlow _ _ Hin)|lia].
Qed.

Lemma key_cases k m : (exists w, (k, w) ∈ m) \/ (forall w, (k, w) ∉ m).
Proof.
  induction m as [|[k0 v0] rest IH].
  - right. intros w Hw. by apply elem_of_nil in Hw.
  - destruct (Z.eq_dec k0 k) as [->|Hne]; [left; exists v0; apply list_elem_of_here|].
    destruct IH as [[w Hw]|Hno]; [left; exists w; by apply list_elem_of_further|].
    right. intros w Hw. apply elem_of_cons in Hw as [[= ? ?]|Hw]; [done|by apply (Hno w)].
Qed.

(** In a sorted map a key has one value. *)
Lemma sorted_functional m k v w :
  sorted m -> (k, v) ∈ m -> (k, w) ∈ m -> v = w.
Proof.
  induction m as [|[k0 v0] rest IH]; intros Hs Hv Hw; [by apply elem_of_nil in Hv|].
  destruct Hs as [Hlow Hs].
  apply elem_of_cons in Hv as [Hv|Hv]; apply elem_of_cons in Hw as [Hw|Hw].
  - congruence.
  - injection Hv as -> ->. specialize (Hlow _ _ Hw). lia.
  - injection Hw as -> ->. specialize (Hlow _ _ Hv). lia.
  - by apply IH.
Qed.

(** Some key is not below the address: [lower_bound] is not [end()]. *)
Definition has_above m (a : Z) : Prop := exists k v, (k, v) ∈ m /\ a <= k.

(** [r] is the value of the greatest key not above the address. *)
Definition floor_at m (a : Z) (r : V) : Prop :=
  exists k, (k, r) ∈ m /\ k <= a
            /\ forall k' v', (k', v') ∈ m -> k' <= a -> k' <= k.

Definition all_above m (a : Z) : Prop := forall k v, (k, v) ∈ m -> a < k.

(** The search shared by the line and the symbol lookup of [resolve]:
    [lower_bound], one step back on a different key, and [below_first] for
    what happens when there is no step back to take. *)
Definition pick (below_first : V -> option V) m (a : Z) : option V :=
  let i := OrdMap.lower_bound a m in
  match m !! i with
  | None => None
  | Some (k, r) =>
      if k =? a then Some r
      else match i with
           | O => below_first r
           | Datatypes.S j => snd <$> m !! j
           end
  end.

Lemma pick_skip below_first k0 v0 k1 v1 rest a :
  k0 < a -> k1 < a ->
  pick below_first ((k0, v0) :: (k1, v1) :: rest) a
  = pick below_first ((k1, v1) :: rest) a.
Proof.
  intros H0 H1. unfold pick. cbn [OrdMap.lower_bound].
  apply Z.ltb_lt in H0, H1. by rewrite H0, H1.
Qed.

Lemma pick_spec below_first m a r :
  sorted m ->
  pick below_first m a = Some r
  <-> has_above m a
      /\ (floor_at m a r
          \/ (all_above m a /\ exists k v, head m = Some (k, v) /\ below_first v = Some r)).
Proof.
  induction m as [|[k0 v0] rest IH]; intros Hs.
  - split; [done|]. intros [(k & v & Hin & _) _]. by apply elem_of_nil in Hin.
  - destruct Hs as [Hlow Hs].
    destruct (Z.ltb_spec k0 a) as [Hlt|Hge].
    + destruct rest as [|[k1 v1] rest'].
      * unfold pick. cbn [OrdMap.lower_bound].
        replace (k0 <? a) with true by (symmetry; by apply Z.ltb_lt).
        split; [done|]. intros [(k & v & Hin & Hle) _].
        apply list_elem_of_singleton in Hin as [= -> ->]. lia.
      * pose proof (Hlow k1 v1 (list_elem_of_here _ _)) as H01.
        destruct (Z.ltb_spec k1 a) as [Hlt1|Hge1].
        -- rewrite (pick_skip _ _ _ _ _ _ _ Hlt Hlt1), (IH Hs).
           unfold has_above, floor_at, all_above. split.
           ++ intros [(k & v & Hin & Hle) Hcase]. split.
              { exists k, v. split; [by apply list_elem_of_further|done]. }
              destruct Hcase as [(k' & Hin' & Hle' & Hmax)|[Hall _]].
              ** left. exists k'. split; [by apply list_elem_of_further|]. split; [done|].
                 intros k2 v2 Hin2 Hle2. apply elem_of_cons in Hin2 as [[= -> ->]|Hin2].
                 --- specialize (Hmax k1 v1 (list_elem_of_here _ _)). lia.
                 --- by apply (Hmax k2 v2).
              ** specialize (Hall k1 v1 (list_elem_of_here _ _)). lia.
           ++ intros [(k & v & Hin & Hle) Hcase]. split.
              { exists k, v. split; [|done].
                apply elem_of_cons in Hin as [[= -> ->]|Hin]; [lia|done]. }
              destruct Hcase as [(k' & Hin' & Hle' & Hmax)|[Hall _]].
              ** left. exists k'. split; [|split; [done|]].
                 --- apply elem_of_cons in Hin' as [[= -> ->]|Hin']; [|done].
                     specialize (Hmax k1 v1 (list_elem_of_further _ _ _ (list_elem_of_here _ _))).
                     lia.
                 --- intros k2 v2 Hin2. apply (Hmax k2 v2). by apply list_elem_of_further.
              ** specialize (Hall k0 v0 (list_elem_of_here _ _)). lia.
        -- unfold pick. cbn [OrdMap.lower_bound].
           replace (k0 <? a) with true by (symmetry; by apply Z.ltb_lt).
           replace (k1 <? a) with false by (symmetry; by apply Z.ltb_ge).
           cbn [lookup list_lookup fmap option_fmap option_map snd].
           assert (Hup : has_above ((k0, v0) :: (k1, v1) :: rest') a).
           { exists k1, v1. split; [|done]. apply list_elem_of_further, list_elem_of_here. }
           assert (Hrest : forall k v, (k, v) ∈ rest' -> k1 < k).
           { intros k v Hin. destruct Hs as [Hlow1 _]. by apply (Hlow1 k v). }
           destruct (Z.eqb_spec k1 a) as [->|Hne].
           ++ split.
              ** intros [= <-]. split; [done|]. left. exists a.
                 split; [apply list_elem_of_further, list_elem_of_here|]. split; [lia|done].
              ** intros [_ [(k & Hin & Hle & Hmax)|[Hall _]]].
                 --- f_equal.
                     specialize (Hmax a v1 (list_elem_of_further _ _ _ (list_elem_of_here _ _))).
                     apply elem_of_cons in Hin as [[= -> ->]|Hin]; [lia|].
                     apply elem_of_cons in Hin as [[= -> ->]|Hin]; [done|].
                     specialize (Hrest _ _ Hin). lia.
                 --- specialize (Hall k0 v0 (list_elem_of_here _ _)). lia.
           ++ split.
              ** intros [= <-]. split; [done|]. left. exists k0.
                 split; [apply list_elem_of_here|]. split; [lia|].
                 intros k2 v2 Hin2 Hle2. apply elem_of_cons in Hin2 as [[= -> ->]|Hin2]; [lia|].
                 apply elem_of_cons in Hin2 as [[= -> ->]|Hin2]; [lia|].
                 specialize (Hrest _ _ Hin2). lia.
              ** intros [_ [(k & Hin & Hle & Hmax)|[Hall _]]].
                 --- f_equal.
                     apply elem_of_cons in Hin as [[= -> ->]|Hin]; [done|].
                     apply elem_of_cons in Hin as [[= -> ->]|Hin]; [lia|].
                     specialize (Hrest _ _ Hin). lia.
                 --- specialize (Hall k0 v0 (list_elem_of_here _ _)). lia.
    + unfold pick. cbn [OrdMap.lower_bound].
      replace (k0 <? a) with false by (symmetry; by apply Z.ltb_ge).
      cbn [lookup list_lookup].
      assert (Hup : has_above ((k0, v0) :: rest) a).
      { exists k0, v0. split; [apply list_elem_of_here|done]. }
      destruct (Z.eqb_spec k0 a) as [->|Hne].
      * split.
        -- intros [= <-]. split; [done|]. left. exists a.
           split; [apply list_elem_of_here|]. split; [lia|done].
        -- intros [_ [(k & Hin & Hle & Hmax)|[Hall _]]].
           ++ f_equal. apply elem_of_cons in Hin as [[= -> ->]|Hin]; [done|].
              specialize (Hlow _ _ Hin). lia.
           ++ specialize (Hall a v0 (list_elem_of_here _ _)). lia.
      * split.
        -- intros Hr. split; [done|]. right. split; [|by exists k0, v0].
           intros k v Hin. apply elem_of_cons in Hin as [[= -> ->]|Hin]; [lia|].
           specialize (Hlow _ _ Hin). lia.
        -- intros [_ [(k & Hin & Hle & Hmax)|[_ (k & v & [= <- <-] & Hr)]]]; [|done].
           apply elem_of_cons in Hin as [[= -> ->]|Hin]; [lia|].
           specialize (Hlow _ _ Hin). lia.
Qed.

End Sorted.

Lemma lookup_line_pick m a : lookup_line m a = pick (fun _ => None) m a.
Proof.
  unfold lookup_line, pick. destruct (m !! OrdMap.lower_bound a m) as [[k row]|]; [|done].
  destruct (k =? a); [done|]. by destruct (OrdMap.lower_bound a m).
Qed.

Lemma lookup_symbol_pick m a : lookup_symbol m a = pick Some m a.
Proof.
  unfold lookup_symbol, pick. destruct (m !! OrdMap.lower_bound a m) as [[k row]|]; [|done].
  destruct (k =? a); [done|]. by destruct (OrdMap.lower_bound a m).
Qed.

(** *** The line index *)

(** The address under which [get_die_cache] enters a row. *)
Definition line_address (l : Dwarf_Line) : Z := Dw.or_default (lineaddr l) 0.

(** The first row of the table with a given address. *)
Fixpoint first_row (k : Z) (lines : list Dwarf_Line) : option nat :=
  match lines with
  | [] => None
  | l :: rest =>
      if line_address l =? k then Some O else Datatypes.S <$> first_row k rest
  end.

Lemma first_row_some k lines :
  is_Some (first_row k lines) <-> exists l, l ∈ lines /\ line_address l = k.
Proof.
  induction lines as [|l rest IH]; cbn [first_row].
  - split; [by intros [? ?]|]. intros (l & Hin & _). by apply elem_of_nil in Hin.
  - destruct (Z.eqb_spec (line_address l) k) as [Heq|Hne].
    + split; [|by eexists]. intros _. exists l. split; [apply list_elem_of_here|done].
    + rewrite fmap_is_Some, IH. split.
      * intros (l' & Hin & Hk). exists l'. split; [by apply list_elem_of_further|done].
      * intros (l' & Hin & Hk). apply elem_of_cons in Hin as [->|Hin]; [done|by exists l'].
Qed.

Lemma index_lines_spec lines : forall i m,
  sorted m ->
  sorted (index_lines lines i m)
  /\ forall k r, (k, r) ∈ index_lines lines i m
       <-> (k, r) ∈ m
           \/ ((forall w, (k, w) ∉ m)
               /\ exists j, r = (i + j)%nat /\ first_row k lines = Some j).
Proof.
  induction lines as [|l rest IH]; intros i m Hs.
  - cbn. split; [done|]. intros k r. split; [by left|].
    by intros [?|[_ (j & _ & ?)]].
  - cbn [index_lines first_row]. fold (line_address l).
    destruct (IH (Datatypes.S i) _ (insert_sorted (line_address l) i m Hs)) as [Hsorted Hin].
    split; [exact Hsorted|]. intros k r. rewrite Hin, (insert_elem _ _ _ _ _ Hs).
    destruct (Z.eqb_spec (line_address l) k) as [Heq|Hne].
    + subst k. split.
      * intros [[Hm|(_ & -> & Hno)]|[Hno _]].
        -- by left.
        -- right. split; [done|]. exists O. split; [lia|done].
        -- destruct (key_cases (line_address l) m) as [[w Hw]|Hnone].
           ++ destruct (Hno w). apply (insert_elem _ _ _ _ _ Hs). by left.
           ++ destruct (Hno i). apply (insert_elem _ _ _ _ _ Hs). by right.
      * intros [Hm|[Hno (j & -> & [= <-])]]; [by left; left|].
        left. right. repeat split; [lia|done].
    + split.
      * intros [[Hm|(-> & _)]|[Hno (j & -> & Hj)]]; [by left|done|].
        right. split.
        -- intros w Hw. apply (Hno w), (insert_elem _ _ _ _ _ Hs). by left.
        -- exists (Datatypes.S j). split; [lia|by rewrite Hj].
      * intros [Hm|[Hno (j & -> & Hj)]]; [by left; left|].
        destruct (first_row k rest) as [j'|]; [|done]. injection Hj as <-.
        right. split.
        -- intros w Hw. apply (insert_elem _ _ _ _ _ Hs) in Hw as [Hw|(? & _)];
             [by apply (Hno w)|done].
        -- exists j'. split; [lia|done].
Qed.

(** X10. The address index of a line table is ordered by address, and under
    each address it holds the first row of the table with that address:
    later rows with the same address are not entered. A row whose address
    cannot be read counts as address 0. *)
Theorem index_lines_first_rows (lines : list Dwarf_Line) :
  sorted (index_lines lines 0 [])
  /\ forall k r, (k, r) ∈ index_lines lines 0 [] <-> first_row k lines = Some r.
Proof.
  destruct (index_lines_spec lines O [] I) as [Hsorted Hin].
  split; [exact Hsorted|]. intros k r. rewrite Hin. split.
  - intros [Hnil|[_ (j & -> & Hj)]]; [by apply elem_of_nil in Hnil|done].
  - intros Hr. right. split; [intros w Hw; by apply elem_of_nil in Hw|by exists r].
Qed.

(** X11. The row [resolve] takes for an address is the first row of the
    greatest table address not above it, and it takes no row at all when
    the address is above every address of the table, or below every one. *)
Theorem lookup_line_floor (lines : list Dwarf_Line) (a : Z) (row : nat) :
  lookup_line (index_lines lines 0 []) a = Some row
  <-> (exists l, l ∈ lines /\ a <= line_address l)
      /\ exists k, k <= a /\ first_row k lines = Some row
                   /\ forall l, l ∈ lines -> line_address l <= a -> line_address l <= k.
Proof.
  destruct (index_lines_spec lines O [] I) as [Hsorted _].
  assert (Hin : forall k r, (k, r) ∈ index_lines lines 0 [] <-> first_row k lines = Some r).
  { intros k r. destruct (index_lines_spec lines O [] I) as [_ Hin]. rewrite Hin. split.
    - intros [Hnil|[_ (j & -> & Hj)]]; [by apply elem_of_nil in Hnil|done].
    - intros Hr. right. split; [intros w Hw; by apply elem_of_nil in Hw|by exists r]. }
  rewrite lookup_line_pick, (pick_spec _ _ _ _ Hsorted).
  unfold has_above, floor_at. split.
  - intros [(k & v & Hk & Hle) [(k' & Hk' & Hle' & Hmax)|[_ (? & ? & _ & ?)]]]; [|done].
    split.
    + destruct (proj1 (first_row_some k lines)) as (l & Hl & Hlk);
        [apply Hin in Hk; by eexists|]. exists l. split; [done|lia].
    + exists k'. split; [done|]. split; [by apply Hin|].
      intros l Hl Hla. destruct (proj2 (first_row_some (line_address l) lines)) as [r Hr];
        [by exists l|]. apply (Hmax _ r); [by apply Hin|done].
  - intros [(l & Hl & Hla) (k & Hle & Hrow & Hmax)]. split.
    + destruct (proj2 (first_row_some (line_address l) lines)) as [r Hr]; [by exists l|].
      exists (line_address l), r. split; [by apply Hin|done].
    + left. exists k. split; [by apply Hin|]. split; [done|].
      intros k' v' Hk' Hle'. apply Hin in Hk'.
      destruct (proj1 (first_row_some k' lines)) as (l' & Hl' & <-); [by eexists|].
      by apply Hmax.
Qed.

(** *** The symbol cache *)

Definition is_function (s : Elf_Sym) : bool := (st_type s =? STT_FUNC) && (0 <? st_value s).

(** The name of the last function symbol of the table at an address. *)
Fixpoint function_at (k : Z) (syms : list Elf_Sym) : option string :=
  match syms with
  | [] => None
  | s :: rest =>
      match function_at k rest with
      | Some name => Some name
      | None => if is_function s && (st_value s =? k) then st_name s else None
      end
  end.

(** A function symbol whose name cannot be read. *)
Definition unnamed_function (s : Elf_Sym) : Prop :=
  is_function s = true /\ st_name s = None.

Lemma cache_symbols_spec syms : forall m,
  sorted m ->
  match cache_symbols syms m with
  | Done m' =>
      sorted m'
      /\ (forall s, s ∈ syms -> ~ unnamed_function s)
      /\ forall k name, (k, name) ∈ m'
           <-> function_at k syms = Some name
               \/ (function_at k syms = None /\ (k, name) ∈ m)
  | Crash => exists s, s ∈ syms /\ unnamed_function s
  end.
Proof.
  induction syms as [|s rest IH]; intros m Hs.
  - cbn. split; [done|]. split; [by intros s ?%elem_of_nil|].
    intros k name. split; [by right|by intros [?|[_ ?]]].
  - cbn [cache_symbols function_at]. fold (is_function s).
    destruct (is_function s) eqn:Hf; cbn [andb].
    + destruct (st_name s) as [n|] eqn:Hn.
      2:{ exists s. split; [apply list_elem_of_here|done]. }
      specialize (IH _ (assign_sorted (st_value s) n m Hs)).
      destruct (cache_symbols rest (OrdMap.assign (st_value s) n m)) as [m'|].
      2:{ destruct IH as (s' & Hin & Hs'). exists s'.
          split; [by apply list_elem_of_further|done]. }
      destruct IH as (Hsorted & Hnamed & Hin). split; [exact Hsorted|]. split.
      { intros s' [->|Hs']%elem_of_cons; [|by apply Hnamed].
        intros [_ Hnone]. congruence. }
      intros k name. rewrite Hin, (assign_elem _ _ _ _ _ Hs).
      destruct (function_at k rest) as [n'|];
        [split; [intros [?|[? _]]|intros [?|[? _]]]; by try left|].
      destruct (Z.eqb_spec (st_value s) k) as [Heq|Hne].
      * split.
        -- intros [?|[_ [[Hne _]|[_ ->]]]]; [done|by destruct Hne|by left].
        -- intros [[= <-]|[? _]]; [|done]. right. split; [done|]. by right.
      * split.
        -- intros [?|[_ [[_ Hm]|[-> _]]]]; [done|by right|done].
        -- intros [?|[_ Hm]]; [done|]. right. split; [done|]. left. split; [congruence|done].
    + specialize (IH _ Hs). destruct (cache_symbols rest m) as [m'|].
      2:{ destruct IH as (s' & Hin & Hs'). exists s'.
          split; [by apply list_elem_of_further|done]. }
      destruct IH as (Hsorted & Hnamed & Hin). split; [exact Hsorted|]. split.
      { intros s' [->|Hs']%elem_of_cons; [|by apply Hnamed].
        intros [Hfun _]. congruence. }
      intros k name. rewrite Hin. by destruct (function_at k rest).
Qed.

(** X12. Unless the name of one of its function symbols cannot be read, in
    which case the loader does not return, a symbol table gives a symbol
    cache that is ordered by address and holds, for each address, the name
    of the last symbol of the table that is a function with that non-zero
    value; symbols of other types, and symbols at address 0, are not
    entered. *)
Theorem cache_symbols_functions (syms : list Elf_Sym) :
  match cache_symbols syms [] with
  | Done m =>
      sorted m
      /\ (forall s, s ∈ syms -> ~ unnamed_function s)
      /\ (forall k name, (k, name) ∈ m <-> function_at k syms = Some name)
      /\ (forall k name, (k, name) ∈ m ->
            0 < k /\ exists s, s ∈ syms /\ st_type s = STT_FUNC /\ st_value s = k
                               /\ st_name s = Some name)
  | Crash => exists s, s ∈ syms /\ unnamed_function s
  end.
Proof.
  pose proof (cache_symbols_spec syms [] I) as Hspec.
  destruct (cache_symbols syms []) as [m|]; [|exact Hspec].
  destruct Hspec as (Hsorted & Hnamed & Hin).
  assert (Hiff : forall k name, (k, name) ∈ m <-> function_at k syms = Some name).
  { intros k name. rewrite Hin. split; [|by left].
    intros [?|[_ Hnil]]; [done|by apply elem_of_nil in Hnil]. }
  split; [exact Hsorted|]. split; [exact Hnamed|]. split; [exact Hiff|].
  intros k name Hk. apply Hiff in Hk. clear Hin Hiff Hsorted Hnamed.
  induction syms as [|s rest IH]; [done|]. cbn [function_at] in Hk.
  destruct (function_at k rest) as [n|].
  - destruct (IH Hk) as (Hpos & s' & Hs' & Hrest). split; [done|].
    exists s'. split; [by apply list_elem_of_further|done].
  - destruct (is_function s && (st_value s =? k)) eqn:Hf; [|done].
    unfold is_function in Hf. apply andb_prop in Hf as [Hf Hv].
    apply andb_prop in Hf as [Ht Hp].
    apply Z.eqb_eq in Hv, Ht. apply Z.ltb_lt in Hp.
    split; [lia|]. exists s. split; [apply list_elem_of_here|done].
Qed.

(** X13. The symbol table stands in for a missing function name as follows.
    An address above every symbol gets no name. Otherwise the name is that
    of the greatest symbol address not above it, and when every symbol is
    above the address it is the name of the first symbol. *)
Theorem lookup_symbol_nearest (symbols : list (Z * string)) (a : Z) (name : string) :
  sorted symbols ->
  lookup_symbol symbols a = Some name
  <-> has_above symbols a
      /\ (floor_at symbols a name
          \/ (all_above symbols a /\ exists k, head symbols = Some (k, name))).
Proof.
  intros Hs. rewrite lookup_symbol_pick, (pick_spec _ _ _ _ Hs).
  split; (intros [Hup [Hfloor|[Hall Hhd]]]; (split; [exact Hup|]); [by left|right]);
    (split; [exact Hall|]).
  - destruct Hhd as (k & v & Hhd & [= <-]). by exists k.
  - destruct Hhd as (k & Hhd). by exists k, name.
Qed.

Lemma lookup_symbol_nearest_witness :
  lookup_symbol [(4096, "first"); (8192, "second")] 100 = Some "first"
  /\ lookup_symbol [(4096, "first"); (8192, "second")] 9000 = None.
Proof.
  assert (Hs : sorted [(4096, "first"); (8192, "second")]).
  { cbn. repeat split.
    - intros k v Hin. apply list_elem_of_singleton in Hin as [= -> _]. lia.
    - intros k v Hin. by apply elem_of_nil in Hin. }
  split; [|reflexivity].
  apply (lookup_symbol_nearest [(4096, "first"); (8192, "second")] 100 "first" Hs).
  split.
  - exists 4096, "first". split; [apply list_elem_of_here|lia].
  - right. split; [|by exists 4096].
    intros k v Hin. apply elem_of_cons in Hin as [[= -> _]|Hin]; [lia|].
    apply list_elem_of_singleton in Hin as [= -> _]. lia.
Defined.

End Lookup.

(** ** The libdwarf resolver: sections, units and the scope stack *)

Module DwarfFacts.
Import Dwarf.

(** *** The pass over the ELF sections *)

Definition is_symtab (s : Elf_Scn) : bool :=
  match shdr s with Some h => sh_type h =? SHT_SYMTAB | None => false end.

Definition is_dynsym (s : Elf_Scn) : bool :=
  match shdr s with Some h => sh_type h =? SHT_DYNSYM | None => false end.

(** The symbol table a section stands for: the section, its number of
    entries and its string table. *)
Definition table_of_section (s : Elf_Scn) : option Elf_Scn * Z * Z :=
  match shdr s with
  | Some h => (Some s, sh_size h / sh_entsize h, sh_link h)
  | None => (None, 0, 0)
  end.

Definition table_of (sc : scan) : option Elf_Scn * Z * Z :=
  (symbol_section sc, symbol_count sc, symbol_strings sc).

(** The header or the name of the section cannot be read. *)
Definition unreadable (s : Elf_Scn) : bool :=
  match shdr s with
  | Some h => match sh_name h with Some _ => false | None => true end
  | None => true
  end.

(** A symbol table whose header announces entries of size 0. *)
Definition zero_entsize (s : Elf_Scn) : bool :=
  match shdr s with
  | Some h => ((sh_type h =? SHT_SYMTAB) || (sh_type h =? SHT_DYNSYM)) && (sh_entsize h =? 0)
  | None => false
  end.

Lemma scan_sections_table scns : forall acc,
  match scan_sections scns acc with
  | Done (Some sc) =>
      table_of sc
      = match last (filter (fun s => is_symtab s = true) scns) with
        | Some s => table_of_section s
        | None =>
            match symbol_section acc with
            | Some _ => table_of acc
            | None =>
                match head (filter (fun s => is_dynsym s = true) scns) with
                | Some s => table_of_section s
                | None => table_of acc
                end
            end
        end
  | Done None => exists s, s ∈ scns /\ unreadable s = true
  | Crash => exists s, s ∈ scns /\ zero_entsize s = true
  end.
Proof.
  induction scns as [|s rest IH]; intros acc.
  - cbn. by destruct (symbol_section acc).
  - cbn [scan_sections]. unfold unreadable.
    destruct (shdr s) as [h|] eqn:Hh;
      [|exists s; split; [apply list_elem_of_here|by rewrite Hh]].
    destruct (sh_name h) as [name|] eqn:Hname;
      [|exists s; split; [apply list_elem_of_here|by rewrite Hh, Hname]].
    match goal with |- context [take_table s h ?a] => set (acc1 := a) end.
    assert (Ht : table_of acc1 = table_of acc /\ symbol_section acc1 = symbol_section acc).
    { unfold acc1. destruct (String.eqb _ _); [|done].
      destruct (scn_data s) as [[d_size d_buf]|]; [|done]. by destruct (0 <? d_size). }
    destruct Ht as [Ht Hss].
    assert (Hsy : is_symtab s = (sh_type h =? SHT_SYMTAB))
      by (unfold is_symtab; by rewrite Hh).
    assert (Hdy : is_dynsym s = (sh_type h =? SHT_DYNSYM))
      by (unfold is_dynsym; by rewrite Hh).
    assert (Htab : table_of_section s = (Some s, sh_size h / sh_entsize h, sh_link h))
      by (unfold table_of_section; by rewrite Hh).
    assert (Hzero : zero_entsize s
                    = ((sh_type h =? SHT_SYMTAB) || (sh_type h =? SHT_DYNSYM))
                      && (sh_entsize h =? 0))
      by (unfold zero_entsize; by rewrite Hh).
    assert (Hfurther : forall acc2,
      match scan_sections rest acc2 with
      | Done (Some sc) =>
          table_of sc
          = match last (filter (fun s => is_symtab s = true) rest) with
            | Some s => table_of_section s
            | None =>
                match symbol_section acc2 with
                | Some _ => table_of acc2
                | None =>
                    match head (filter (fun s => is_dynsym s = true) rest) with
                    | Some s => table_of_section s
                    | None => table_of acc2
                    end
                end
            end
      | Done None => exists s0, s0 ∈ s :: rest /\ unreadable s0 = true
      | Crash => exists s0, s0 ∈ s :: rest /\ zero_entsize s0 = true
      end).
    { intros acc2. specialize (IH acc2).
      destruct (scan_sections rest acc2) as [[sc|]|]; [exact IH| |];
        destruct IH as (s' & Hin & Hs'); exists s';
        (split; [by apply list_elem_of_further|done]). }
    rewrite !filter_cons, Hsy, Hdy. unfold take_table.
    destruct (sh_type h =? SHT_SYMTAB) eqn:Hsym.
    + rewrite decide_True by done. rewrite last_cons.
      destruct (sh_entsize h =? 0) eqn:Hent; cbn [mbind outcome_bind].
      { exists s. split; [apply list_elem_of_here|]. by rewrite Hzero. }
      match goal with |- context [scan_sections rest ?a] => specialize (Hfurther a) end.
      destruct (scan_sections rest _) as [[sc|]|]; [|exact Hfurther..].
      rewrite Hfurther. cbn [symbol_section table_of symbol_count symbol_strings].
      destruct (last (filter (fun s0 => is_symtab s0 = true) rest)); [done|].
      by rewrite Htab.
    + rewrite decide_False by done.
      destruct (sh_type h =? SHT_DYNSYM) eqn:Hdyn.
      * rewrite decide_True by done. cbn [head].
        destruct (symbol_section acc1) eqn:Hacc1.
        -- cbn [mbind outcome_bind]. specialize (Hfurther acc1).
           destruct (scan_sections rest acc1) as [[sc|]|]; [|exact Hfurther..].
           by rewrite Hfurther, Hacc1, Ht, <- Hss.
        -- destruct (sh_entsize h =? 0) eqn:Hent; cbn [mbind outcome_bind].
           { exists s. split; [apply list_elem_of_here|]. by rewrite Hzero. }
           match goal with |- context [scan_sections rest ?a] => specialize (Hfurther a) end.
           destruct (scan_sections rest _) as [[sc|]|]; [|exact Hfurther..].
           rewrite Hfurther. cbn [symbol_section table_of symbol_count symbol_strings].
           rewrite <- Hss.
           destruct (last (filter (fun s0 => is_symtab s0 = true) rest)); [done|].
           by rewrite Htab.
      * rewrite decide_False by done. cbn [mbind outcome_bind].
        specialize (Hfurther acc1).
        destruct (scan_sections rest acc1) as [[sc|]|]; [|exact Hfurther..].
        rewrite Hfurther, Hss, Ht.
        destruct (last (filter (fun s0 => is_symtab s0 = true) rest)); [done|].
        by destruct (symbol_section acc).
Qed.


(** *** The function search of [find_die] *)

Definition is_function_tag (d : Die) : bool :=
  is_subprogram (tag d) || is_inlined_subroutine (tag d).

Lemma fundie_walk_found visit ds d :
  fundie_walk visit ds = Some (Some d) ->
  exists c, c ∈ ds /\ visit c = Some (Some (Some d)).
Proof.
  induction ds as [|c rest IH]; [done|]. cbn [fundie_walk].
  destruct (visit c) as [[ret|]|] eqn:Hc; cbn; [| |done].
  - intros [= ->]. exists c. split; [apply list_elem_of_here|done].
  - intros Hrest. destruct (IH Hrest) as (c' & Hin & Hc').
    exists c'. split; [by apply list_elem_of_further|done].
Qed.

Lemma fundie_visit_found fuel specs dbg pc search c d :
  fundie_visit fuel specs dbg pc search c = Some (Some (Some d)) ->
  d = c /\ is_function_tag c = true /\ die_has_pc fuel specs dbg c pc = Some true.
Proof.
  unfold fundie_visit, is_function_tag.
  destruct (is_subprogram (tag c) || is_inlined_subroutine (tag c)).
  - destruct (die_has_pc fuel specs dbg c pc) as [[|]|]; cbn; [by intros [= ->]| |done].
    destruct (negb _); [destruct (search c) as [[?|]|]|]; cbn; try done;
      by destruct (sibling_err (attrs c)).
  - cbn. destruct (negb _); [destruct (search c) as [[?|]|]|]; cbn; try done;
      by destruct (sibling_err (attrs c)).
Qed.

(** X15. A DIE returned by [find_fundie_by_pc] is a child of the DIE the
    search was started on, is a function or an inlined call, and holds the
    address: the search never returns a DIE from deeper in the tree. *)
Theorem find_fundie_by_pc_child
    (fuel : nat) (specs : option (gmap Z Z)) (dbg : Dwarf_Debug)
    (parent d : Die) (pc : Z) :
  find_fundie_by_pc fuel specs dbg parent pc = Some (Some d) ->
  d ∈ children parent
  /\ is_function_tag d = true
  /\ die_has_pc fuel specs dbg d pc = Some true.
Proof.
  destruct parent as [a cs]. cbn [find_fundie_by_pc children]. intros Hwalk.
  destruct (fundie_walk_found _ _ _ Hwalk) as (c & Hin & Hc).
  by destruct (fundie_visit_found _ _ _ _ _ _ _ Hc) as (-> & Htag & Hpc).
Qed.

Lemma find_fundie_by_pc_child_witness :
  find_fundie_by_pc 2 None Fixture.chain_dbg Fixture.chain_cu 4130
  = Some (Some Fixture.outer_die)
  /\ Fixture.outer_die ∈ children Fixture.chain_cu.
Proof.
  assert (Hrun : find_fundie_by_pc 2 None Fixture.chain_dbg Fixture.chain_cu 4130
                 = Some (Some Fixture.outer_die)) by reflexivity.
  split; [exact Hrun|].
  exact (proj1 (find_fundie_by_pc_child 2 None Fixture.chain_dbg Fixture.chain_cu
                  Fixture.outer_die 4130 Hrun)).
Defined.

(** X16. A function found below the first child comes back as null: the
    nested call receives its result slot by value, so when the first child
    is searched, is no function itself and has the function holding the
    address among its own children, [find_fundie_by_pc] on the parent
    returns null. A function inside a namespace is not found this way. *)
Theorem find_fundie_by_pc_nested
    (fuel : nat) (specs : option (gmap Z Z)) (dbg : Dwarf_Debug)
    (a : DieAttrs) (c d : Die) (rest : list Die) (pc : Z) :
  is_function_tag c = false ->
  flag_set (at_declaration (attrs c)) = false ->
  find_fundie_by_pc fuel specs dbg c pc = Some (Some d) ->
  find_fundie_by_pc fuel specs dbg (Die_mk a (c :: rest)) pc = Some None.
Proof.
  intros Htag Hdecl Hin. cbn [find_fundie_by_pc fundie_walk].
  unfold fundie_visit. unfold is_function_tag in Htag.
  rewrite Htag, Hdecl. cbn. by rewrite Hin.
Qed.

(** The unit of [Fixture.chain_cu] with its function put in a namespace. *)
Definition app_namespace : Die :=
  Die_mk (Fixture.plain DW_TAG_namespace 105 (Some "app")) [Fixture.outer_die].

Definition namespaced_cu : Die :=
  Die_mk (Fixture.plain DW_TAG_compile_unit 100 (Some "main.cpp")) [app_namespace].

Lemma find_fundie_by_pc_nested_witness :
  find_fundie_by_pc 2 None Fixture.chain_dbg app_namespace 4130
  = Some (Some Fixture.outer_die)
  /\ find_fundie_by_pc 2 None Fixture.chain_dbg namespaced_cu 4130 = Some None.
Proof.
  assert (Hin : find_fundie_by_pc 2 None Fixture.chain_dbg app_namespace 4130
                = Some (Some Fixture.outer_die)) by reflexivity.
  split; [exact Hin|].
  exact (find_fundie_by_pc_nested 2 None Fixture.chain_dbg
           (Fixture.plain DW_TAG_compile_unit 100 (Some "main.cpp"))
           app_namespace Fixture.outer_die [] 4130 eq_refl eq_refl Hin).
Defined.

(** *** The cache of units *)

(** X17. The line table and the specification map of a unit are built on
    the first [get_die_cache] for it: a second call for the same unit
    returns the stored entry and changes nothing, entries already stored
    for other units are kept, and the specification map the object points
    at afterwards is the one of the unit asked for. *)
Theorem get_die_cache_again (dbg : Dwarf_Debug) (fobj : dwarf_fileobject) (d : Die) :
  let '(fobj1, entry) := get_die_cache dbg fobj d in
  get_die_cache dbg fobj1 d = (fobj1, entry)
  /\ (forall k e, die_cache fobj !! k = Some e -> die_cache fobj1 !! k = Some e)
  /\ current_specs fobj1 = Some (spec_section entry).
Proof.
  unfold get_die_cache.
  destruct (die_cache fobj !! dieoffset d) as [e|] eqn:Hd.
  - cbv beta iota zeta. cbn [set_current_cu die_cache]. rewrite Hd.
    split; [done|]. split; [done|].
    unfold current_specs. cbn [set_current_cu current_cu die_cache]. by rewrite Hd.
  - cbv beta iota zeta. cbn [with_entry die_cache]. rewrite lookup_insert_eq.
    split; [|split].
    + done.
    + intros k e Hk. destruct (decide (dieoffset d = k)) as [<-|Hne]; [congruence|].
      by rewrite lookup_insert_ne.
    + unfold current_specs. cbn [with_entry current_cu die_cache].
      by rewrite lookup_insert_eq.
Qed.

(** *** The scope stack of the tree search *)

(** No walk over the siblings below [d] ends on an error. *)
Fixpoint walks_ok (d : Die) : bool :=
  match d with
  | Die_mk _ cs => forallb (fun c => negb (sibling_err (attrs c)) && walks_ok c) cs
  end.

Section Scopes.
Context {S : Type}.
Variables (fuel : nat) (specs : option (gmap Z Z)) (dbg : Dwarf_Debug).
Variable cb : Die -> list string -> S -> option S.
Variable pc : Z.

Lemma dfs_visit_scopes c b ns s err b' ns' s' :
  sibling_err (attrs c) = false ->
  (forall ns0 s0 b0 ns1 s1,
     deep_first_search_by_pc fuel specs dbg cb c pc ns0 s0 = Some (b0, ns1, s1) -> ns1 = ns0) ->
  dfs_visit fuel specs dbg cb pc
    (fun d => deep_first_search_by_pc fuel specs dbg cb d pc) c b ns s
  = Some (err, b', ns', s') ->
  err = false /\ ns' = ns.
Proof.
  intros Herr Hrec. unfold dfs_visit. rewrite Herr.
  set (ns1 := if opens_scope c then ns ++ [scope_name c] else ns).
  destruct (if negb (is_declaration c)
            then deep_first_search_by_pc fuel specs dbg cb c pc ns1 s
            else Some (b, ns1, s)) as [[[b1 nsx] s1]|] eqn:Hsearch; [|done].
  assert (Hnsx : nsx = ns1).
  { destruct (negb (is_declaration c)); [by eapply Hrec|by injection Hsearch]. }
  subst nsx. cbn.
  destruct (if b1 then Some true else die_has_pc fuel specs dbg c pc) as [b2|]; [|done].
  cbn. destruct (if b2 then cb c ns1 s1 else Some s1) as [s2|]; [|done].
  cbn. intros [= <- <- <- <-]. split; [done|].
  unfold ns1. destruct (opens_scope c); [apply removelast_snoc|done].
Qed.

Lemma dfs_walk_scopes ds :
  Forall (fun c =>
    sibling_err (attrs c) = false
    /\ forall ns0 s0 b0 ns1 s1,
         deep_first_search_by_pc fuel specs dbg cb c pc ns0 s0 = Some (b0, ns1, s1) ->
         ns1 = ns0) ds ->
  forall b ns s b' ns' s',
    dfs_siblings fuel specs dbg cb pc ds b ns s = Some (b', ns', s') -> ns' = ns.
Proof.
  induction 1 as [|c rest [Herr Hrec] _ IH]; intros b ns s b' ns' s'.
  - by intros [= _ <- _].
  - unfold dfs_siblings. cbn [dfs_walk].
    destruct (dfs_visit _ _ _ _ _ _ c b ns s) as [[[[err b1] ns1] s1]|] eqn:Hvisit; [|done].
    destruct (dfs_visit_scopes _ _ _ _ _ _ _ _ Herr Hrec Hvisit) as [-> ->].
    cbn. apply IH.
Qed.

Lemma dfs_scopes d :
  walks_ok d = true ->
  forall ns s b ns' s',
    deep_first_search_by_pc fuel specs dbg cb d pc ns s = Some (b, ns', s') -> ns' = ns.
Proof.
  induction d as [a cs IH] using Die_ind'. intros Hok ns s b ns' s'.
  rewrite dfs_unfold. cbn [walks_ok] in Hok.
  destruct cs as [|c0 cs0]; [by intros [= _ <- _]|].
  apply dfs_walk_scopes.
  revert IH Hok. generalize (c0 :: cs0). clear. intros ds IH Hok.
  induction ds as [|c ds IHds]; [constructor|].
  apply Forall_cons in IH as [IHc IH]. cbn [forallb] in Hok.
  apply andb_prop in Hok as [Hc Hds]. apply andb_prop in Hc as [Herr Hc].
  constructor; [|by apply IHds]. split; [by destruct (sibling_err (attrs c))|].
  by apply IHc.
Qed.

End Scopes.

(** X18. When no walk over siblings ends on an error, the tree search
    leaves the scope stack as it found it, whatever the callback does and
    whatever the tree holds: every namespace or class name pushed is popped
    again. *)
Theorem dfs_restores_scopes {S : Type}
    (fuel : nat) (specs : option (gmap Z Z)) (dbg : Dwarf_Debug)
    (cb : Die -> list string -> S -> option S) (pc : Z) (d : Die)
    (ns ns' : list string) (s s' : S) (b : bool) :
  walks_ok d = true ->
  deep_first_search_by_pc fuel specs dbg cb d pc ns s = Some (b, ns', s') ->
  ns' = ns.
Proof. intros Hok Hrun. by eapply dfs_scopes. Qed.

(** A callback that records the scopes it is called with. *)
Definition record_scopes (d : Die) (ns : list string) (log : list string)
  : option (list string) :=
  Some (log ++ [ns_prefix ns +:+ Dw.or_default (at_name (attrs d)) ""]).

Lemma dfs_restores_scopes_witness :
  exists b log,
    deep_first_search_by_pc 2 None Fixture.chain_dbg record_scopes namespaced_cu 4130
      ["outer"] []
    = Some (b, ["outer"], log)
    /\ last log = Some "outer::app::app".
Proof.
  destruct (deep_first_search_by_pc 2 None Fixture.chain_dbg record_scopes
              namespaced_cu 4130 ["outer"] []) as [[[b ns'] log]|] eqn:Hrun;
    [|by vm_compute in Hrun].
  exists b, log.
  rewrite (dfs_restores_scopes 2 None Fixture.chain_dbg record_scopes 4130
             namespaced_cu ["outer"] ns' [] log b eq_refl Hrun).
  split; [reflexivity|]. vm_compute in Hrun. by injection Hrun as _ _ <-.
Defined.

(** *** What the tree search leaves alone *)

Section Invariant.
Context {S : Type}.
Variables (fuel : nat) (specs : option (gmap Z Z)) (dbg : Dwarf_Debug).
Variable cb : Die -> list string -> S -> option S.
Variable pc : Z.
Variable P : S -> Prop.
Hypothesis cb_keeps : forall d ns s s', P s -> cb d ns s = Some s' -> P s'.

Lemma dfs_visit_inv c b ns s err b' ns' s' :
  (forall ns0 s0 b0 ns1 s1, P s0 ->
     deep_first_search_by_pc fuel specs dbg cb c pc ns0 s0 = Some (b0, ns1, s1) -> P s1) ->
  P s ->
  dfs_visit fuel specs dbg cb pc
    (fun d => deep_first_search_by_pc fuel specs dbg cb d pc) c b ns s
  = Some (err, b', ns', s') ->
  P s'.
Proof.
  intros Hrec Hs. unfold dfs_visit.
  set (ns1 := if opens_scope c then ns ++ [scope_name c] else ns).
  destruct (if negb (is_declaration c)
            then deep_first_search_by_pc fuel specs dbg cb c pc ns1 s
            else Some (b, ns1, s)) as [[[b1 nsx] s1]|] eqn:Hsearch; [|done].
  assert (Hs1 : P s1).
  { destruct (negb (is_declaration c)); [by eapply Hrec|by injection Hsearch as _ _ <-]. }
  cbn.
  destruct (if b1 then Some true else die_has_pc fuel specs dbg c pc) as [b2|]; [|done].
  cbn. destruct (if b2 then cb c nsx s1 else Some s1) as [s2|] eqn:Hcb; [|done].
  assert (Hs2 : P s2).
  { destruct b2; [by eapply cb_keeps|by injection Hcb as <-]. }
  cbn. by destruct (sibling_err (attrs c)); intros [= _ _ _ <-].
Qed.

Lemma dfs_walk_inv ds :
  Forall (fun c => forall ns0 s0 b0 ns1 s1, P s0 ->
            deep_first_search_by_pc fuel specs dbg cb c pc ns0 s0 = Some (b0, ns1, s1) ->
            P s1) ds ->
  forall b ns s b' ns' s', P s ->
    dfs_siblings fuel specs dbg cb pc ds b ns s = Some (b', ns', s') -> P s'.
Proof.
  induction 1 as [|c rest Hrec _ IH]; intros b ns s b' ns' s' Hs.
  - by intros [= _ _ <-].
  - unfold dfs_siblings. cbn [dfs_walk].
    destruct (dfs_visit _ _ _ _ _ _ c b ns s) as [[[[err b1] ns1] s1]|] eqn:Hvisit; [|done].
    pose proof (dfs_visit_inv _ _ _ _ _ _ _ _ Hrec Hs Hvisit) as Hs1.
    cbn. destruct err; [by intros [= _ _ <-]|]. by apply IH.
Qed.

Lemma dfs_inv d :
  forall ns s b ns' s', P s ->
    deep_first_search_by_pc fuel specs dbg cb d pc ns s = Some (b, ns', s') -> P s'.
Proof.
  induction d as [a cs IH] using Die_ind'. intros ns s b ns' s' Hs.
  rewrite dfs_unfold. destruct cs as [|c0 cs0]; [by intros [= _ _ <-]|].
  by apply dfs_walk_inv.
Qed.

End Invariant.

(** The fields of a trace the callback of [resolve] never writes. *)
Definition line_fields (t : ResolvedTrace) : Z * Z * string * string * Z * Z :=
  (addr t, idx t, object_filename t,
   sl_filename (source t), sl_line (source t), sl_col (source t)).

Lemma inliners_search_cb_line_fields fuel demangle specs dbg cu_die d ns t t' :
  inliners_search_cb fuel demangle specs dbg cu_die d ns t = Some t' ->
  line_fields t' = line_fields t.
Proof.
  unfold inliners_search_cb. destruct (tag d); try by intros [= <-].
  - destruct (negb (str_empty (sl_function (source t)))); [by intros [= <-]|].
    destruct (set_function_parameters _ _ _ _ _ _) as [fn|]; [|done]. cbn.
    destruct (str_empty (object_function t));
      [destruct (at_linkage_name (attrs d)); [|destruct (at_MIPS_linkage_name (attrs d))]|];
      by intros [= <-].
  - destruct (inliner_loc _ _ _ _ _ _) as [sloc|]; [|done]. by intros [= <-].
Qed.

(** X21. When the unit of the address is found and its line table has a
    row for the address, the file, line and column of the result are those
    of that row, a row without a file name keeping the file the trace had;
    the search of the tree that follows sets function names and inliners
    and leaves these fields, the object file, the address and the index as
    they are. *)
Theorem resolve_in_object_line
    (fuel : nat) (env : Env) (dbg : Dwarf_Debug) (fobj fobj' : dwarf_fileobject)
    (address : Z) (trace trace' : ResolvedTrace) (die : Die) (row : nat) :
  find_die fuel (current_specs fobj) dbg address = Some (Some die) ->
  isEmpty (snd (get_die_cache dbg fobj die)) = false ->
  lookup_line (line_section (snd (get_die_cache dbg fobj die))) address = Some row ->
  resolve_in_object fuel env dbg fobj address trace = Some (fobj', trace') ->
  let line := Dw.or_default
                (Dw.or_default (line_buffer (snd (get_die_cache dbg fobj die))) [] !! row)
                unreadable_line in
  sl_filename (source trace') = Dw.or_default (linesrc line) (sl_filename (source trace))
  /\ sl_line (source trace') = u32 (Dw.or_default (lineno line) 0)
  /\ sl_col (source trace') = u32 (Dw.or_default (lineoff line) 0)
  /\ object_filename trace' = object_filename trace
  /\ addr trace' = addr trace /\ idx trace' = idx trace
  /\ fobj' = fst (get_die_cache dbg fobj die).
Proof.
  intros Hdie Hempty Hrow. unfold resolve_in_object. rewrite Hdie. cbn [mbind option_bind].
  destruct (get_die_cache dbg fobj die) as [fobj1 entry] eqn:Hcache. cbn [fst snd] in *.
  rewrite Hempty, Hrow.
  set (t0 := if str_empty (object_function trace) then _ else trace).
  assert (H0 : line_fields t0 = line_fields trace).
  { unfold t0. destruct (str_empty (object_function trace)); [|done].
    by destruct (lookup_symbol (symbol_cache fobj) address). }
  set (line := Dw.or_default (Dw.or_default (line_buffer entry) [] !! row) unreadable_line).
  set (t1 := set_line_info line t0).
  assert (H1 : line_fields t1
               = (addr trace, idx trace, object_filename trace,
                  Dw.or_default (linesrc line) (sl_filename (source trace)),
                  u32 (Dw.or_default (lineno line) 0),
                  u32 (Dw.or_default (lineoff line) 0))).
  { unfold line_fields in H0. injection H0 as Ha Hx Hof Hsf _ _.
    unfold t1, set_line_info, line_fields.
    destruct (linesrc line); cbn; by rewrite Ha, Hx, Hof, ?Hsf. }
  destruct (deep_first_search_by_pc fuel (current_specs fobj1) dbg _ die address [] t1)
    as [[[b ns'] t2]|] eqn:Hdfs; [|done].
  cbn [mbind option_bind]. intros [= <- <-].
  assert (H2 : line_fields t2 = line_fields t1).
  { apply (dfs_inv _ _ _ _ _ (fun t => line_fields t = line_fields t1)
             (fun d ns s s' Hs Hcb =>
                eq_trans (inliners_search_cb_line_fields _ _ _ _ _ _ _ _ _ Hcb) Hs)
             die [] t1 b ns' t2 eq_refl Hdfs). }
  rewrite H1 in H2. unfold line_fields in H2. injection H2 as Ha Hx Hof Hsf Hsl Hsc.
  by repeat split.
Qed.

Lemma resolve_in_object_line_witness :
  exists fobj' trace',
    resolve_in_object 2 Fixture.chain_env Fixture.chain_dbg empty_fobj 4130
      (mk_trace 4130 0) = Some (fobj', trace')
    /\ sl_filename (source trace') = "main.cpp"
    /\ sl_line (source trace') = 42 /\ sl_col (source trace') = 5.
Proof.
  destruct (resolve_in_object 2 Fixture.chain_env Fixture.chain_dbg empty_fobj 4130
              (mk_trace 4130 0)) as [[fobj' trace']|] eqn:Hrun; [|by vm_compute in Hrun].
  exists fobj', trace'. split; [reflexivity|].
  destruct (resolve_in_object_line 2 Fixture.chain_env Fixture.chain_dbg empty_fobj fobj'
              4130 (mk_trace 4130 0) trace' Fixture.chain_cu 1%nat
              eq_refl eq_refl eq_refl Hrun) as (Hf & Hl & Hc & _).
  split; [exact Hf|]. split; [exact Hl|exact Hc].
Defined.

End DwarfFacts.

(** ** The libdw resolver: the session and the fields of the trace *)

Module DwFacts.
Import Dw.

Lemma resolve_all_live h calls :
  resolve_all (mkState (Some h) true) calls
  = (mkState (Some h) true, map (fun c => resolve_with (fst c) h (snd c)) calls).
Proof.
  induction calls as [|[env t] rest IH]; [reflexivity|].
  cbn [resolve_all map fst snd]. unfold resolve at 1. cbn. by rewrite IH.
Qed.

(** X19. Once [dwfl_begin] has given a session on the first call, the
    state of the resolver never changes again and every later trace is
    resolved against that session, also when [dwfl_linux_proc_report] failed
    on the first call: the failure makes the first call return its trace
    unchanged, and the report is not tried again. *)
Theorem session_opened_once (env : Env) (h : Dwfl) (t : ResolvedTrace)
    (later : list (Env * ResolvedTrace)) :
  dwfl_begin env = Some h ->
  let st1 := fst (resolve env init t) in
  st1 = mkState (Some h) true
  /\ resolve_all st1 later
     = (st1, map (fun c => resolve_with (fst c) h (snd c)) later)
  /\ snd (resolve env init t)
     = if dwfl_linux_proc_report env <? 0 then t else resolve_with env h t.
Proof.
  intros Hbegin st1.
  assert (Hst : st1 = mkState (Some h) true).
  { unfold st1, resolve, init. cbn. rewrite Hbegin.
    by destruct (dwfl_linux_proc_report env <? 0). }
  split; [exact Hst|]. split.
  - rewrite Hst. apply resolve_all_live.
  - unfold resolve, init. cbn. rewrite Hbegin.
    by destruct (dwfl_linux_proc_report env <? 0).
Qed.

(** *** The fields the tree search leaves alone *)

Section Keeps.
Context {S : Type}.
Variable P : S -> Prop.
Variable cb : Die -> S -> S.
Hypothesis cb_keeps : forall d s, P s -> P (cb d s).

Lemma dfs_keeps d : forall pc s, P s -> P (snd (deep_first_search_by_pc cb d pc s)).
Proof.
  induction d as [a cs IH] using Dwarf.Die_ind'. intros pc s Hs.
  destruct cs as [|c0 cs0]; [exact Hs|].
  change (deep_first_search_by_pc cb (Die_mk a (c0 :: cs0)) pc s)
    with ((fix siblings (ds : list Die) (branch_has_pc : bool) (s : S) : bool * S :=
             match ds with
             | [] => (branch_has_pc, s)
             | d :: rest =>
                 let '(b1, s1) :=
                   if negb (flag_set (at_declaration (attrs d)))
                   then deep_first_search_by_pc cb d pc s
                   else (branch_has_pc, s) in
                 let b2 := if b1 then true else die_has_pc d pc in
                 let s2 := if b2 then cb d s1 else s1 in
                 if sibling_err (attrs d) then (b2, s2) else siblings rest b2 s2
             end) (c0 :: cs0) false s).
  remember (c0 :: cs0) as ds eqn:Hds. clear Hds c0 cs0.
  generalize false. revert s Hs.
  induction ds as [|c ds IHds]; intros s Hs b; [exact Hs|].
  apply Forall_cons in IH as [IHc IH]. cbv beta iota fix.
  assert (H1 : P (snd (if negb (flag_set (at_declaration (attrs c)))
                       then deep_first_search_by_pc cb c pc s
                       else (b, s)))).
  { destruct (negb _); [by apply IHc|exact Hs]. }
  destruct (if negb (flag_set (at_declaration (attrs c)))
            then deep_first_search_by_pc cb c pc s
            else (b, s)) as [b1 s1] eqn:Hsearch.
  cbn [snd] in H1.
  assert (H2 : P (if (if b1 then true else die_has_pc c pc) then cb c s1 else s1)).
  { destruct (if b1 then true else die_has_pc c pc); [by apply cb_keeps|exact H1]. }
  cbv beta iota zeta.
  destruct (sibling_err (attrs c)); [exact H2|].
  by apply IHds.
Qed.


End Keeps.

Lemma cb_keeps_fields files (Q : ResolvedTrace -> Prop) :
  (forall t f, Q t -> Q (set_source_function f t)) ->
  (forall t l, Q t -> Q (set_inliners l t)) ->
  forall d t, Q t -> Q (inliners_search_cb files d t).
Proof.
  intros Hf Hi d t Ht. unfold inliners_search_cb.
  destruct (tag d); try exact Ht.
  - destruct (at_name (attrs d)); [by apply Hf|exact Ht].
  - by apply Hi.
Qed.

Lemma cb_appends files d t :
  exists more, inliners (inliners_search_cb files d t) = inliners t ++ more.
Proof.
  unfold inliners_search_cb.
  destruct (tag d); try (exists []; by rewrite app_nil_r).
  - destruct (at_name (attrs d)); exists []; cbn; by rewrite app_nil_r.
  - eexists. cbn. reflexivity.
Qed.

(** The fields of a trace that neither the callback nor the fallback of
    the source function touches. *)
Definition fixed_fields (t : ResolvedTrace) : Z * Z * string * string * string * Z * Z :=
  (addr t, idx t, object_filename t, object_function t,
   sl_filename (source t), sl_line (source t), sl_col (source t)).

(** X20. When the unit of the address is found, what [resolve] read before
    the tree search stays in the result: the module name as the object file,
    the symbol as the object function, and the file, line and column of the
    line row; the search and the fallback only set the source function and
    append inliners. A missing line row leaves the three source fields as
    they were and does not stop the search. *)
Theorem resolve_with_keeps_line (env : Env) (h : Dwfl) (trace : ResolvedTrace)
    (m : Dwfl_Module) (cudie : Die) (mod_bias : Z) :
  addrmodule h (addr trace) = Some m ->
  find_cudie m (addr trace) = Some (cudie, mod_bias) ->
  let r := resolve_with env h trace in
  let pc := (addr trace - mod_bias) mod 2 ^ 64 in
  addr r = addr trace /\ idx r = idx trace
  /\ object_filename r = or_default (module_name m) (object_filename trace)
  /\ object_function r
     = or_default (demangle env <$> addrname m (addr trace)) (object_function trace)
  /\ match getsrc_die m cudie pc with
     | Some row =>
         sl_filename (source r) = or_default (linesrc row) (sl_filename (source trace))
         /\ sl_line (source r) = u32 (lineno row)
         /\ sl_col (source r) = u32 (linecol row)
     | None =>
         sl_filename (source r) = sl_filename (source trace)
         /\ sl_line (source r) = sl_line (source trace)
         /\ sl_col (source r) = sl_col (source trace)
     end
  /\ (exists more, inliners r = inliners trace ++ more)
  /\ (str_empty (sl_function (source r)) = true -> str_empty (object_function r) = true).
Proof.
  intros Hmod Hcu r pc. unfold r, resolve_with. rewrite Hmod, Hcu. fold pc.
  set (t1 := match addrname m (addr trace) with
             | Some sym => set_object_function (demangle env sym) _
             | None => _
             end).
  set (t2 := match getsrc_die m cudie pc with Some srcloc => _ | None => t1 end).
  set (t3 := snd (deep_first_search_by_pc (inliners_search_cb (srcfiles m cudie)) cudie pc t2)).
  assert (H1 : fixed_fields t1
               = (addr trace, idx trace, or_default (module_name m) (object_filename trace),
                  or_default (demangle env <$> addrname m (addr trace)) (object_function trace),
                  sl_filename (source trace), sl_line (source trace), sl_col (source trace))
               /\ inliners t1 = inliners trace).
  { unfold t1. by destruct (addrname m (addr trace)), (module_name m). }
  destruct H1 as [H1 Hi1].
  assert (H2 : fixed_fields t2
               = (addr trace, idx trace, or_default (module_name m) (object_filename trace),
                  or_default (demangle env <$> addrname m (addr trace)) (object_function trace),
                  match getsrc_die m cudie pc with
                  | Some row => or_default (linesrc row) (sl_filename (source trace))
                  | None => sl_filename (source trace)
                  end,
                  match getsrc_die m cudie pc with
                  | Some row => u32 (lineno row)
                  | None => sl_line (source trace)
                  end,
                  match getsrc_die m cudie pc with
                  | Some row => u32 (linecol row)
                  | None => sl_col (source trace)
                  end)
               /\ inliners t2 = inliners trace).
  { unfold t2. destruct (getsrc_die m cudie pc) as [row|]; [|by split].
    unfold fixed_fields in *. injection H1 as Ha Hx Hof Hofn Hsf Hsl Hsc.
    destruct (linesrc row); cbn; by rewrite ?Ha, ?Hx, ?Hof, ?Hofn, ?Hsf, ?Hi1. }
  destruct H2 as [H2 Hi2].
  assert (H3 : fixed_fields t3 = fixed_fields t2).
  { unfold t3. apply (dfs_keeps (fun t => fixed_fields t = fixed_fields t2)); [|done].
    intros d t Ht. by apply cb_keeps_fields. }
  assert (Hi3 : exists more, inliners t3 = inliners trace ++ more).
  { unfold t3. apply (dfs_keeps (fun t => exists more, inliners t = inliners trace ++ more)).
    - intros d t [more Ht]. destruct (cb_appends (srcfiles m cudie) d t) as [more' Hcb].
      exists (more ++ more'). by rewrite Hcb, Ht, app_assoc.
    - exists []. by rewrite Hi2, app_nil_r. }
  set (t4 := if str_empty (sl_function (source t3))
             then set_source_function (object_function t3) t3 else t3).
  assert (H4 : fixed_fields t4 = fixed_fields t3 /\ inliners t4 = inliners t3
               /\ (str_empty (sl_function (source t4)) = true
                   -> str_empty (object_function t4) = true)).
  { unfold t4. destruct (str_empty (sl_function (source t3))) eqn:Hempty.
    - split; [done|]. split; [done|]. by cbn.
    - split; [done|]. split; [done|]. congruence. }
  destruct H4 as (H4 & Hi4 & Hfb). rewrite H3, H2 in H4.
  unfold fixed_fields in H4. injection H4 as Ha Hx Hof Hofn Hsf Hsl Hsc.
  split; [exact Ha|]. split; [exact Hx|]. split; [exact Hof|]. split; [exact Hofn|].
  split; [|split; [by rewrite Hi4|exact Hfb]].
  by destruct (getsrc_die m cudie pc).
Qed.

(** A module whose only unit is [Dwarf.Fixture.chain_cu], with one line
    row for every address. *)
Definition chain_module : Dwfl_Module :=
  mkModule (Some "/bin/app") (fun _ => Some "outer_fn")
    (fun _ => Some (Dwarf.Fixture.chain_cu, 0)) []
    (fun _ _ => Some (mkLine (Some "main.cpp") 42 5))
    (fun _ => None).

Definition chain_session : Dwfl := mkDwfl (fun _ => Some chain_module).

Lemma resolve_with_keeps_line_witness :
  let r := resolve_with env_live_session chain_session (mk_trace 4130 0) in
  object_filename r = "/bin/app"
  /\ sl_filename (source r) = "main.cpp" /\ sl_line (source r) = 42 /\ sl_col (source r) = 5.
Proof.
  destruct (resolve_with_keeps_line env_live_session chain_session (mk_trace 4130 0)
              chain_module Dwarf.Fixture.chain_cu 0 eq_refl eq_refl)
    as (_ & _ & Hof & _ & Hline & _).
  cbv zeta. split; [exact Hof|]. exact Hline.
Defined.

Lemma session_opened_once_witness :
  resolve_all (fst (resolve (mkEnv (Some chain_session) (-1) (fun s => s)) init
                      (mk_trace 4130 0)))
    [(env_live_session, mk_trace 4130 1)]
  = (mkState (Some chain_session) true,
     [resolve_with env_live_session chain_session (mk_trace 4130 1)])
  /\ snd (resolve (mkEnv (Some chain_session) (-1) (fun s => s)) init (mk_trace 4130 0))
     = mk_trace 4130 0.
Proof.
  destruct (session_opened_once (mkEnv (Some chain_session) (-1) (fun s => s))
              chain_session (mk_trace 4130 0) [(env_live_session, mk_trace 4130 1)]
              eq_refl) as (Hst & Hall & Hfirst).
  split; [|exact Hfirst]. rewrite Hall, Hst. reflexivity.
Defined.

End DwFacts.

(** ** The libdwarf resolver: names of types in type units *)

Module TypeNames.
Import Dwarf.

(** The DIEs [get_type] visits: the DIE and, from each DIE, its first
    child. *)
Fixpoint first_chain (d : Die) : list Die :=
  match d with
  | Die_mk _ cs =>
      d :: match cs with
           | child :: _ => first_chain child
           | [] => []
           end
  end.

Definition type_name (d : Die) : string :=
  Dw.or_default (at_name (attrs d)) "<unknown>".

Lemma first_chain_cons d : exists rest, first_chain d = d :: rest.
Proof. destruct d as [a cs]. cbn. by eexists. Qed.

Lemma concat_cons2 (sep x y : string) (l : list string) :
  String.concat sep (x :: y :: l) = x +:+ sep +:+ String.concat sep (y :: l).
Proof. reflexivity. Qed.

(** X22. [get_type] puts in front of the incoming text the names of the
    DIE and of the first children below it, outermost first and joined by
    [::], a DIE without name counting as [<unknown>]; other children are not
    visited and nothing separates the name from the incoming text. *)
Theorem get_type_first_children (d : Die) (type : string) :
  get_type d type
  = String.concat "::" (map type_name (first_chain d)) +:+ type.
Proof.
  revert type. induction d as [a cs IH] using Die_ind'. intros type.
  cbn [get_type first_chain map]. unfold type_name at 1. cbn [attrs].
  destruct cs as [|child cs'].
  - by destruct (at_name a).
  - apply Forall_cons in IH as [IHc _]. rewrite (IHc type).
    destruct (first_chain_cons child) as [rest Hrest]. rewrite Hrest. cbn [map].
    rewrite concat_cons2, !sapp_assoc.
    by destruct (at_name a).
Qed.

(** *** Signatures are compared as C strings *)

Lemma strncmp_eq_common n : forall p a b,
  (length p < n)%nat -> strncmp_eq n (p ++ 0 :: a) (p ++ 0 :: b) = true.
Proof.
  induction n as [|n IH]; intros p a b Hlen; [lia|].
  destruct p as [|x p]; cbn [strncmp_eq app hd tl].
  - reflexivity.
  - rewrite Z.eqb_refl. destruct (x =? 0); [reflexivity|]. apply IH. cbn in Hlen. lia.
Qed.

(** X23. Two type signatures that agree up to a zero byte compare equal
    whatever follows the zero byte, since the eight bytes are compared with
    [strncmp]; a type unit with such a signature is taken for the type asked
    for, and its name is returned. *)
Theorem signature_match_up_to_nul
    (p a b : list Z) (dbg : Dwarf_Debug) (attrs0 : DieAttrs) (child : Die)
    (cs : list Die) :
  (length p < 8)%nat ->
  type_units dbg = [(p ++ 0 :: b, Some (Die_mk attrs0 (child :: cs)))] ->
  strncmp_eq 8 (p ++ 0 :: a) (p ++ 0 :: b) = true
  /\ (str_empty (get_type child "") = false ->
      get_type_by_signature dbg (Some (p ++ 0 :: a)) = get_type child "").
Proof.
  intros Hlen Hunits.
  pose proof (strncmp_eq_common 8 p a b Hlen) as Heq.
  split; [exact Heq|]. intros Hne.
  unfold get_type_by_signature. rewrite Hunits. cbn [fold_left fst snd].
  by rewrite Heq, Hne.
Qed.

(** A type unit for a class [Shape] in a namespace [geo]. *)
Definition shape_unit : Die :=
  Die_mk (Fixture.plain (DW_TAG_other 65) 0 None)
    [ Die_mk (Fixture.plain DW_TAG_namespace 1 (Some "geo"))
        [ Die_mk (Fixture.plain DW_TAG_class_type 2 (Some "Shape")) [] ] ].

Definition shape_dbg : Dwarf_Debug :=
  mkDebug [] [([17; 0; 1; 2; 3; 4; 5; 6], Some shape_unit)] None
    (fun _ => None) (fun _ => None).

Lemma signature_match_up_to_nul_witness :
  get_type_by_signature shape_dbg (Some [17; 0; 9; 9; 9; 9; 9; 9]) = "geo::Shape".
Proof.
  destruct (signature_match_up_to_nul [17] [9; 9; 9; 9; 9; 9] [1; 2; 3; 4; 5; 6]
              shape_dbg (Fixture.plain (DW_TAG_other 65) 0 None)
              (Die_mk (Fixture.plain DW_TAG_namespace 1 (Some "geo"))
                 [ Die_mk (Fixture.plain DW_TAG_class_type 2 (Some "Shape")) [] ])
              [] ltac:(cbn; lia) eq_refl) as [_ Hname].
  exact (Hname eq_refl).
Defined.

End TypeNames.

(** ** The libbfd resolver: the lookup in the sections and the inliners *)

Module BfdResolve.
Import Bfd.

(** [find_sym_result]. The three data fields are only read when [found]
    is set, so they are left at null and 0 otherwise. *)
Record find_sym_result := mkResult {
  found : bool;
  filename : option string;
  funcname : option string;
  line : Z;
}.

Definition not_found : find_sym_result := mkResult false None None 0.

(** What [bfd_find_nearest_line] and [bfd_find_inliner_info] write on
    success: file name and function name, either of which may be null, and
    the line. *)
Definition line_info : Type := option string * option string * Z.

Definition of_lookup (o : option line_info) : find_sym_result :=
  match o with
  | Some (file, func, l) => mkResult true file func l
  | None => not_found
  end.

(** A section of the object: the [SEC_ALLOC] flag, address and size, and
    what [bfd_find_nearest_line] answers in it for a symbol table and an
    offset. *)
Record asection := mkSection {
  sec_alloc : bool;
  sec_vma : Z;
  sec_size : Z;
  find_nearest_line : list string -> Z -> option line_info;
}.

Definition wrap64 (z : Z) : Z := z mod 2 ^ 64.

(** The test of the section bounds, on 64-bit unsigned values. *)
Definition inside (section : asection) (addr : Z) : bool :=
  negb ((addr <? sec_vma section)
        || (wrap64 (sec_vma section + sec_size section) <=? addr)).

(** [find_in_section] *)
Definition find_in_section (addr base_addr : Z) (fobj : bfd_fileobject)
    (section : asection) (result : find_sym_result) : find_sym_result :=
  if found result then result
  else if negb (sec_alloc section) then result
  else
    let relocated := wrap64 (addr - base_addr) in
    let located :=
      if inside section addr then Some addr
      else if inside section relocated then Some relocated
      else None in
    match located with
    | None => result
    | Some addr =>
        let sec_addr := sec_vma section in
        let result :=
          match symtab fobj with
          | Some tab => of_lookup (find_nearest_line section tab (wrap64 (addr - sec_addr)))
          | None => result
          end in
        if negb (found result) then
          match dynamic_symtab fobj with
          | Some tab => of_lookup (find_nearest_line section tab (wrap64 (addr - sec_addr)))
          | None => result
          end
        else result
    end.

(** [find_symbol_details]: [bfd_map_over_sections] calls [find_in_section]
    on every section in order. *)
Definition find_symbol_details (sections : list asection) (fobj : bfd_fileobject)
    (addr base_addr : Z) : find_sym_result :=
  fold_left (fun result section => find_in_section addr base_addr fobj section result)
            sections not_found.

Definition to_loc (demangle : string -> string) (i : line_info) : SourceLoc :=
  let '(file, func, l) := i in
  mkSourceLoc (Dw.or_default file "")
              (match func with Some f => demangle f | None => "" end) l 0.

(** The loop of [backtrace_inliners]: [answers] are the successive answers
    of [bfd_find_inliner_info], [None] for a call that finds nothing; the
    library has no more to say after the last one. *)
Fixpoint inliners_loop (demangle : string -> string) (answers : list (option line_info))
  : list SourceLoc :=
  match answers with
  | Some i :: rest => to_loc demangle i :: inliners_loop demangle rest
  | _ => []
  end.

(** [backtrace_inliners] *)
Definition backtrace_inliners (demangle : string -> string)
    (answers : list (option line_info)) (previous_result : find_sym_result)
  : list SourceLoc :=
  if found previous_result then inliners_loop demangle answers else [].

Definition set_addr (a : Z) (t : ResolvedTrace) : ResolvedTrace :=
  mkResolvedTrace a (idx t) (object_filename t) (object_function t) (source t) (inliners t).

(** What the library does behind the handle. The state that
    [bfd_find_inliner_info] reads is global to the handle and left there by
    the lookups before it: the answers are given for the whole sequence of
    lookups made so far, each with the address asked and whether it was
    found. *)
Record Lib := mkLib {
  sections_of : bfd_fileobject -> list asection;
  find_inliner_info : list (Z * bool) -> list (option line_info);
}.

(** [resolve] from the first [find_symbol_details] on, for the object
    chosen by [locate_object]. [has_unwind] is [BACKWARD_HAS_UNWIND == 1];
    [dli_fbase] and [dli_sname] are those of [symbol_info]. The second
    component lists the lookups made, in order; it is not program state. *)
Definition resolve_in_object (has_unwind : bool) (lib : Lib) (demangle : string -> string)
    (fobj : bfd_fileobject) (dli_fbase : Z) (dli_sname : option string)
    (trace : ResolvedTrace) : ResolvedTrace * list (Z * bool) :=
  let lookup a := find_symbol_details (sections_of lib fobj) fobj a dli_fbase in
  let details_call_site := lookup (addr trace) in
  let log := [(addr trace, found details_call_site)] in
  let '(details_selected, trace, log) :=
    if has_unwind then (details_call_site, trace, log)
    else
      let adjusted := wrap64 (addr trace - 1) in
      let details_adjusted_call_site := lookup adjusted in
      let log := log ++ [(adjusted, found details_adjusted_call_site)] in
      if found details_call_site && found details_adjusted_call_site
      then (details_adjusted_call_site, set_addr adjusted trace, log)
      else if found details_call_site
      then (lookup (addr trace), trace, log ++ [(addr trace, found (lookup (addr trace)))])
      else (details_call_site, trace, log) in
  if found details_selected then
    let trace := match filename details_selected with
                 | Some f => set_source_filename f trace
                 | None => trace
                 end in
    let trace := set_source_line (line details_selected) trace in
    let trace :=
      match funcname details_selected with
      | Some f =>
          let trace := set_source_function (demangle f) trace in
          match dli_sname with
          | None => set_object_function (sl_function (source trace)) trace
          | Some _ => trace
          end
      | None => trace
      end in
    (set_inliners (backtrace_inliners demangle (find_inliner_info lib log) details_selected)
                  trace, log)
  else (trace, log).

(** *** Properties *)

Lemma find_in_section_found addr base fobj section result :
  found (find_in_section addr base fobj section result) = true ->
  found result = true
  \/ (sec_alloc section = true
      /\ (inside section addr = true \/ inside section (wrap64 (addr - base)) = true)).
Proof.
  unfold find_in_section.
  destruct (found result) eqn:Hf; [by left|].
  destruct (sec_alloc section); cbn [negb]; [|congruence].
  destruct (inside section addr); [by right; split; [|left]|].
  destruct (inside section (wrap64 (addr - base))); [by right; split; [|right]|].
  congruence.
Qed.

Lemma find_in_section_keeps addr base fobj section result :
  found result = true -> find_in_section addr base fobj section result = result.
Proof. intros Hf. unfold find_in_section. by rewrite Hf. Qed.

Lemma fold_find_found addr base fobj sections : forall result,
  found (fold_left (fun r s => find_in_section addr base fobj s r) sections result) = true ->
  found result = true
  \/ exists section, section ∈ sections /\ sec_alloc section = true
       /\ (inside section addr = true \/ inside section (wrap64 (addr - base)) = true).
Proof.
  induction sections as [|s rest IH]; intros result; cbn [fold_left]; [by left|].
  intros Hf. destruct (IH _ Hf) as [Hhere|(section & Hin & Hsec)].
  - destruct (find_in_section_found _ _ _ _ _ Hhere) as [?|Hs]; [by left|].
    right. exists s. split; [apply list_elem_of_here|exact Hs].
  - right. exists section. split; [by apply list_elem_of_further|exact Hsec].
Qed.

Lemma fold_find_keeps addr base fobj sections : forall result,
  found result = true ->
  fold_left (fun r s => find_in_section addr base fobj s r) sections result = result.
Proof.
  induction sections as [|s rest IH]; intros result Hf; [done|]. cbn [fold_left].
  rewrite (find_in_section_keeps _ _ _ _ _ Hf). by apply IH.
Qed.

(** X24. [find_symbol_details] finds a location only in a section that is
    allocated and holds the address as given or the address less the load
    base; and the answer is the one of the first section of the object for
    which a lookup succeeds: the sections after it are not asked. *)
Theorem find_symbol_details_section
    (before after : list asection) (section : asection) (fobj : bfd_fileobject)
    (addr base : Z) :
  (found (find_symbol_details (before ++ section :: after) fobj addr base) = true ->
   exists s, s ∈ before ++ section :: after /\ sec_alloc s = true
             /\ (inside s addr = true \/ inside s (wrap64 (addr - base)) = true))
  /\ (found (find_symbol_details before fobj addr base) = false ->
      found (find_in_section addr base fobj section not_found) = true ->
      find_symbol_details (before ++ section :: after) fobj addr base
      = find_in_section addr base fobj section not_found).
Proof.
  split.
  - intros Hf. unfold find_symbol_details in Hf.
    by destruct (fold_find_found _ _ _ _ _ Hf) as [?|?].
  - intros Hbefore Hhere. unfold find_symbol_details in *.
    rewrite fold_left_app. cbn [fold_left].
    set (r := fold_left _ before not_found) in *.
    assert (Hr : find_in_section addr base fobj section r
                 = find_in_section addr base fobj section not_found).
    { unfold find_in_section in Hhere |- *. rewrite Hbefore.
      cbn [found not_found] in Hhere |- *.
      destruct (negb (sec_alloc section)); [done|].
      destruct (if inside section addr then Some addr
                else if inside section (wrap64 (addr - base))
                     then Some (wrap64 (addr - base)) else None) as [a|]; [|done].
      destruct (symtab fobj) as [tab|]; [done|].
      rewrite Hbefore. cbn [found not_found negb] in Hhere |- *.
      by destruct (dynamic_symtab fobj). }
    rewrite Hr. by apply fold_find_keeps.
Qed.

(** X25. In [resolve], the source fields are set only when the lookup of
    the address itself succeeds; the address of the returned trace is then
    the address less one when the build has no unwinder and the lookup one
    byte before succeeds too, and the address itself otherwise. Whenever
    the inliners are read, the last lookup made on the handle was the
    successful one for the address of the returned trace, so they are the
    inliners of that address. When the lookup of the address fails the trace
    is returned as it was, even if the lookup one byte before succeeded. *)
Theorem resolve_in_object_address
    (has_unwind : bool) (lib : Lib) (demangle : string -> string)
    (fobj : bfd_fileobject) (dli_fbase : Z) (dli_sname : option string)
    (trace : ResolvedTrace) :
  let call := found (find_symbol_details (sections_of lib fobj) fobj (addr trace) dli_fbase) in
  let adjusted :=
    found (find_symbol_details (sections_of lib fobj) fobj (wrap64 (addr trace - 1))
             dli_fbase) in
  let r := fst (resolve_in_object has_unwind lib demangle fobj dli_fbase dli_sname trace) in
  let log := snd (resolve_in_object has_unwind lib demangle fobj dli_fbase dli_sname trace) in
  idx r = idx trace
  /\ object_filename r = object_filename trace
  /\ addr r = (if negb has_unwind && call && adjusted
               then wrap64 (addr trace - 1) else addr trace)
  /\ (call = false -> r = trace)
  /\ (call = true ->
      last log = Some (addr r, true)
      /\ inliners r = inliners_loop demangle (find_inliner_info lib log)).
Proof.
  intros call adjusted r log. subst call adjusted r log.
  unfold resolve_in_object. cbv beta zeta.
  set (c := find_symbol_details (sections_of lib fobj) fobj (addr trace) dli_fbase).
  set (a := find_symbol_details (sections_of lib fobj) fobj (wrap64 (addr trace - 1))
              dli_fbase).
  destruct has_unwind, (found c) eqn:Hc, (found a) eqn:Ha;
    cbn [negb andb]; cbv beta iota zeta; rewrite ?Hc, ?Ha; cbn [fst snd];
    unfold backtrace_inliners; rewrite ?Hc, ?Ha;
    repeat split; try done;
    destruct (filename _), (funcname _), dli_sname; done.
Qed.

(** An object with one allocated section of 256 bytes at 0x1000 in which
    every offset from 16 on belongs to [work], defined in [work.c]. *)
Definition text_section : asection :=
  mkSection true 4096 256
    (fun _ off => if 16 <=? off then Some (Some "work.c", Some "work", 7) else None).

Definition text_fobj : bfd_fileobject :=
  mkFobj (Some (mkBfd true true 8 0 (1, ["work"]) (0, []))) (Some ["work"]) None.

Definition text_lib : Lib :=
  mkLib (fun _ => [text_section])
        (fun log => match last log with
                    | Some (4119, true) => [Some (Some "main.c", Some "main", 3); None]
                    | _ => []
                    end).

Lemma resolve_in_object_address_witness :
  let run := resolve_in_object false text_lib (fun s => s) text_fobj 0 None
               (mk_trace 4120 0) in
  addr (fst run) = 4119
  /\ last (snd run) = Some (4119, true)
  /\ inliners (fst run) = [mkSourceLoc "main.c" "main" 3 0].
Proof.
  pose proof (resolve_in_object_address false text_lib (fun s => s) text_fobj 0 None
                (mk_trace 4120 0)) as (_ & _ & Haddr & _ & Hfound).
  destruct (Hfound eq_refl) as [Hlast Hinl].
  split; [exact Haddr|]. split; [exact Hlast|exact Hinl].
Defined.

End BfdResolve.

(** ** [details::handle]: the owner of a library object *)

Module Handle.

(** A handle holds a value of a pointer or descriptor type, with 0 for
    null, and the flag [_empty]. *)
Record handle := mkHandle {
  _val : Z;
  _empty : bool;
}.

(** What happened to the values given to handles: those passed to the
    deleter and those that left a handle without being deleted, in order.
    Neither list is program state. *)
Record Trail := mkTrail {
  deleted : list Z;
  handed_back : list Z;
}.

Definition no_trail : Trail := mkTrail [] [].

(** [handle()] *)
Definition empty_handle : handle := mkHandle 0 true.

(** [handle(T val)] *)
Definition of_value (val : Z) : handle := mkHandle val (val =? 0).

(** [~handle()] *)
Definition destroy (h : handle) (t : Trail) : Trail :=
  if _empty h then t else mkTrail (deleted t ++ [_val h]) (handed_back t).

(** [reset]: a temporary handle is made of the new value, swapped with this
    one and destroyed. *)
Definition reset (new_val : Z) (h : handle) (t : Trail) : handle * Trail :=
  let tmp := of_value new_val in
  (tmp, destroy h t).

(** [update]: the value held is overwritten, not deleted. *)
Definition update (new_val : Z) (h : handle) (t : Trail) : handle * Trail :=
  (mkHandle new_val (new_val =? 0),
   if _empty h then t else mkTrail (deleted t) (handed_back t ++ [_val h])).

(** [release]: the value is returned to the caller. *)
Definition release (h : handle) (t : Trail) : handle * Trail :=
  (mkHandle (_val h) true,
   if _empty h then t else mkTrail (deleted t) (handed_back t ++ [_val h])).

Inductive op :=
| Reset (new_val : Z)
| Update (new_val : Z)
| Release.

Definition step (o : op) (s : handle * Trail) : handle * Trail :=
  match o with
  | Reset v => reset v (fst s) (snd s)
  | Update v => update v (fst s) (snd s)
  | Release => release (fst s) (snd s)
  end.

(** The life of one handle: constructed empty, used, destroyed. *)
Definition life (ops : list op) : Trail :=
  let s := fold_left (fun s o => step o s) ops (empty_handle, no_trail) in
  destroy (fst s) (snd s).

(** The values given to the handle that are not null. *)
Definition given (ops : list op) : list Z :=
  omap (fun o => match o with
                 | Reset v | Update v => if v =? 0 then None else Some v
                 | Release => None
                 end) ops.

(** The value a handle is responsible for. *)
Definition owned (h : handle) : list Z := if _empty h then [] else [_val h].

Definition accounted (s : handle * Trail) : list Z :=
  deleted (snd s) ++ handed_back (snd s) ++ owned (fst s).

Lemma step_accounted o s :
  accounted (step o s) ≡ₚ accounted s ++ given [o].
Proof.
  destruct s as [[v e] [d hb]].
  destruct o as [new_val|new_val|];
    unfold accounted, given, owned, step, reset, update, release, destroy, of_value;
    cbn [fst snd _val _empty omap list_omap];
    try destruct (new_val =? 0); destruct e;
    cbn [deleted handed_back _val _empty]; rewrite ?app_nil_r;
    solve_Permutation.
Qed.

Lemma run_accounted ops : forall s,
  accounted (fold_left (fun s o => step o s) ops s) ≡ₚ accounted s ++ given ops.
Proof.
  induction ops as [|o ops IH]; intros s; cbn [fold_left].
  - unfold given. cbn. by rewrite app_nil_r.
  - rewrite IH, step_accounted, <- app_assoc. apply Permutation_app_head.
    unfold given. cbn [omap list_omap].
    by destruct o as [v|v|]; [destruct (v =? 0)|destruct (v =? 0)|].
Qed.

Lemma step_no_null o s :
  (_empty (fst s) = false -> _val (fst s) <> 0) -> 0 ∉ deleted (snd s) ->
  (_empty (fst (step o s)) = false -> _val (fst (step o s)) <> 0)
  /\ 0 ∉ deleted (snd (step o s)).
Proof.
  destruct s as [[v e] [d hb]]. cbn [fst snd _val _empty deleted]. intros Hv Hd.
  destruct o as [new_val|new_val|];
    cbn [step reset update release destroy of_value fst snd _val _empty deleted].
  - split; [intros Hne; by apply Z.eqb_neq in Hne|].
    unfold destroy. cbn [_empty _val deleted handed_back].
    destruct e; cbn [deleted]; [done|]. rewrite elem_of_app, list_elem_of_singleton.
    intros [?|Heq]; [done|]. by apply Hv.
  - split; [intros Hne; by apply Z.eqb_neq in Hne|by destruct e].
  - split; [done|by destruct e].
Qed.

Lemma run_no_null ops : forall s,
  (_empty (fst s) = false -> _val (fst s) <> 0) /\ 0 ∉ deleted (snd s) ->
  (_empty (fst (fold_left (fun s o => step o s) ops s)) = false ->
   _val (fst (fold_left (fun s o => step o s) ops s)) <> 0)
  /\ 0 ∉ deleted (snd (fold_left (fun s o => step o s) ops s)).
Proof.
  induction ops as [|o ops IH]; intros s Hs; cbn [fold_left]; [exact Hs|].
  apply IH. destruct Hs as [Hv Hd]. by apply step_no_null.
Qed.

(** X26. Over the life of a handle, from its construction to its
    destruction and through any sequence of [reset], [update] and
    [release], every value given to it that is not null is either passed to
    the deleter once or handed back once ([release] returns it, [update]
    overwrites it), as many times as it was given; null is never passed to
    the deleter. *)
Theorem handle_accounts (ops : list op) :
  deleted (life ops) ++ handed_back (life ops) ≡ₚ given ops
  /\ 0 ∉ deleted (life ops).
Proof.
  unfold life.
  pose proof (run_accounted ops (empty_handle, no_trail)) as Hacc.
  assert (Hnull := run_no_null ops (empty_handle, no_trail)
                      (conj (fun H : true = false => ltac:(discriminate H))
                            (not_elem_of_nil 0))).
  destruct (fold_left (fun s o => step o s) ops (empty_handle, no_trail)) as [[v e] [d hb]].
  unfold accounted, owned in Hacc. cbn [fst snd _val _empty deleted handed_back app] in *.
  unfold destroy. cbn [_empty _val deleted handed_back]. destruct Hnull as [Hv Hd].
  destruct e; cbn [deleted handed_back].
  - split; [|exact Hd]. by rewrite app_nil_r in Hacc.
  - split.
    + rewrite <- Hacc, <- app_assoc. apply Permutation_app_head, Permutation_app_comm.
    + rewrite elem_of_app, list_elem_of_singleton. intros [?|Heq]; [done|]. by apply Hv.
Qed.

End Handle.

(** ** The [backtrace_symbols] backend of Darwin *)

Module DarwinSymbol.
Import Stdlib.Strings.Ascii.

(** A C string is the list of its characters before the terminator. *)
Definition cstring : Type := list ascii.

Definition is_space (c : ascii) : bool := Ascii.eqb c " "%char.
Definition not_space (c : ascii) : bool := negb (is_space c).

(** A loop that advances a pointer while the character under it passes the
    test; it stops at the terminator. *)
Fixpoint skip (test : ascii -> bool) (s : cstring) : cstring :=
  match s with
  | c :: rest => if test c then skip test rest else s
  | [] => []
  end.

(** A loop that steps [p] back while [p > filename] and the character
    under it passes the test. A position is kept as the
    index one past [p], counted from [filename]: the pointer before the
    first character, where [p] starts on an empty line, is 0, and
    [p == filename] is 1. *)
Fixpoint back (test : ascii -> bool) (s : cstring) (q : nat) : nat :=
  match q with
  | O => O
  | Datatypes.S p =>
      match p with
      | O => q
      | Datatypes.S _ => if test (nth p s zero) then back test s p else q
      end
  end.

(** The three positions [resolve] computes in the line after its number:
    [filename_end], [funcname] and [funcname_end]. *)
Definition positions (s : cstring) : nat * nat * nat :=
  let q := length s in
  let q := back not_space s q in
  let q := back is_space s q in
  let q := back not_space s q in
  let q := back is_space s q in
  let funcname_end := q in
  let q := back not_space s q in
  let funcname := q in
  let q := back is_space s q in
  let q := back not_space s q in
  let q := back is_space s q in
  let filename_end := q in
  if (q =? 1)%nat then (length s, length s, funcname_end)
  else (filename_end, funcname, funcname_end).

(** [resolve]; the line is cut in place at [funcname_end]. *)
Definition resolve (demangle : string -> string) (symbols : list cstring)
    (trace : ResolvedTrace) : list cstring * ResolvedTrace :=
  match symbols !! Z.to_nat (idx trace) with
  | None => (symbols, trace)
  | Some line =>
      let s := skip is_space (skip not_space line) in
      let '(filename_end, funcname, funcname_end) := positions s in
      let trace :=
        set_object_filename (string_of_list_ascii (take filename_end s)) trace in
      if (funcname <? length s)%nat then
        let name := take (funcname_end - funcname) (drop funcname s) in
        let f := demangle (string_of_list_ascii name) +:+ " "
                 +:+ string_of_list_ascii (drop (Datatypes.S funcname_end) s) in
        (<[Z.to_nat (idx trace) :=
             take (length line - length s + funcname_end) line]> symbols,
         set_source_function f (set_object_function f trace))
      else (symbols, trace)
  end.

(** *** Scanning backwards *)

Lemma back_step test s p :
  back test s (Datatypes.S (Datatypes.S p))
  = if test (nth (Datatypes.S p) s zero) then back test s (Datatypes.S p)
    else Datatypes.S (Datatypes.S p).
Proof. reflexivity. Qed.

Lemma back_le test s q : (back test s q <= q)%nat.
Proof.
  induction q as [|p IH]; [done|]. cbn [back].
  destruct p as [|p']; [done|]. destruct (test _); [|done].
  etransitivity; [exact IH|lia].
Qed.

Lemma back_small test s q : (q <= 1)%nat -> back test s q = q.
Proof. destruct q as [|[|q]]; [done|done|lia]. Qed.

(** A scan that does not move stands at the start or on a character that
    fails the test. *)
Lemma back_fixed test s q :
  back test s q = q -> (q <= 1)%nat \/ test (nth (q - 1) s zero) = false.
Proof.
  destruct q as [|[|p]]; [left; lia|left; lia|]. rewrite back_step.
  replace (Datatypes.S (Datatypes.S p) - 1)%nat with (Datatypes.S p) by lia.
  destruct (test _) eqn:Ht; [|by right].
  intros Heq. pose proof (back_le test s (Datatypes.S p)). lia.
Qed.

(** A scan goes back over a run of characters that pass the test and stops
    behind the character before the run, which fails it. *)
Lemma back_run test (pre w post : cstring) (c : ascii) :
  Forall (fun x => test x = true) w -> test c = false ->
  back test ((pre ++ [c]) ++ w ++ post) (length ((pre ++ [c]) ++ w))
  = length (pre ++ [c]).
Proof.
  intros Hw Hc. revert post. induction w as [|x w IH] using rev_ind; intros post.
  - rewrite app_nil_r. cbn [app]. set (s := (pre ++ [c]) ++ post).
    rewrite length_app. cbn [length].
    replace (length pre + 1)%nat with (Datatypes.S (length pre)) by lia.
    destruct (length pre) as [|n] eqn:Hn; [done|]. rewrite back_step.
    replace (nth (Datatypes.S n) s zero) with c; [by rewrite Hc|].
    unfold s. rewrite <- app_assoc, app_nth2 by lia. by rewrite Hn, Nat.sub_diag.
  - apply Forall_app in Hw as [Hw Hx]. apply Forall_inv in Hx.
    replace ((pre ++ [c]) ++ (w ++ [x]) ++ post)
      with ((pre ++ [c]) ++ w ++ (x :: post)) by (by rewrite <- !app_assoc).
    replace (length ((pre ++ [c]) ++ w ++ [x]))
      with (Datatypes.S (Datatypes.S (length pre + length w)))
      by (rewrite !length_app; cbn [length]; lia).
    rewrite back_step.
    replace (nth (Datatypes.S (length pre + length w))
               ((pre ++ [c]) ++ w ++ x :: post) zero) with x.
    + rewrite Hx.
      replace (Datatypes.S (length pre + length w)) with (length ((pre ++ [c]) ++ w))
        by (rewrite !length_app; cbn [length]; lia).
      by apply IH.
    + rewrite app_assoc, app_nth2 by (rewrite !length_app; cbn [length]; lia).
      rewrite !length_app. cbn [length].
      by replace (Datatypes.S (length pre + length w) - (length pre + 1 + length w))%nat
        with O by lia.
Qed.

(** X27. Whenever [resolve] takes a function name from a line, the name
    ends inside the line: [funcname <= funcname_end < strlen], so that the
    terminator written at [funcname_end] falls on a character of the line
    and the text appended from [funcname_end + 1] starts no further than the
    terminator of the line. *)
Theorem positions_inside (s : cstring) :
  let '(filename_end, funcname, funcname_end) := positions s in
  (filename_end <= length s)%nat
  /\ ((funcname < length s)%nat ->
      (funcname <= funcname_end)%nat /\ (funcname_end < length s)%nat).
Proof.
  unfold positions.
  set (q1 := back not_space s (length s)).
  set (q2 := back is_space s q1).
  set (q3 := back not_space s q2).
  set (q4 := back is_space s q3).
  set (q5 := back not_space s q4).
  set (q6 := back is_space s q5).
  set (q7 := back not_space s q6).
  set (q8 := back is_space s q7).
  pose proof (back_le not_space s (length s)) as H1. fold q1 in H1.
  pose proof (back_le is_space s q1) as H2. fold q2 in H2.
  pose proof (back_le not_space s q2) as H3. fold q3 in H3.
  pose proof (back_le is_space s q3) as H4. fold q4 in H4.
  pose proof (back_le not_space s q4) as H5. fold q5 in H5.
  pose proof (back_le is_space s q5) as H6. fold q6 in H6.
  pose proof (back_le not_space s q6) as H7. fold q7 in H7.
  pose proof (back_le is_space s q7) as H8. fold q8 in H8.
  destruct (q8 =? 1)%nat; [split; [done|lia]|].
  split; [lia|]. intros Hfn. split; [exact H5|].
  destruct (decide (q4 = length s)) as [Hend|Hne]; [|lia].
  assert (Hq1 : q1 = length s) by lia. assert (Hq2 : q2 = length s) by lia.
  destruct (back_fixed not_space s (length s) Hq1) as [Hsmall|Hns].
  { rewrite Hend in H5. unfold q5 in Hfn. rewrite Hend, back_small in Hfn by done. lia. }
  unfold q2 in Hq2. rewrite Hq1 in Hq2.
  destruct (back_fixed is_space s (length s) Hq2) as [Hsmall|Hsp].
  { unfold q5 in Hfn. rewrite Hend, back_small in Hfn by done. lia. }
  unfold not_space in Hns. rewrite Hsp in Hns. done.
Qed.

(** *** A well-formed line *)

(** A non-empty run of characters that pass the test. *)
Definition run_of (test : ascii -> bool) (w : cstring) : bool :=
  negb (match w with [] => true | _ => false end) && forallb test w.

Lemma run_of_Forall test w :
  run_of test w = true -> w <> [] /\ Forall (fun x => test x = true) w.
Proof.
  unfold run_of. intros H. apply andb_prop in H as [Hne Hall].
  split; [by destruct w|]. apply Forall_forall. intros x Hx.
  apply (proj1 (forallb_forall test w) Hall). by apply list_elem_of_In.
Qed.

(** What comes before a run ends with a character that fails its test. *)
Definition ends_off (test : ascii -> bool) (pre : cstring) : Prop :=
  exists l c, pre = l ++ [c] /\ test c = false.

Lemma ends_off_run (test other : ascii -> bool) (pre w : cstring) :
  (forall x, other x = true -> test x = false) ->
  run_of other w = true -> ends_off test (pre ++ w).
Proof.
  intros Hother Hw. destruct (run_of_Forall _ _ Hw) as [Hne Hall].
  destruct w as [|x w _] using rev_ind; [done|].
  apply Forall_app in Hall as [_ Hx]. apply Forall_inv in Hx.
  exists (pre ++ w), x. split; [by rewrite app_assoc|by apply Hother].
Qed.

Lemma back_over test (pre w post : cstring) :
  ends_off test pre -> run_of test w = true ->
  back test (pre ++ w ++ post) (length (pre ++ w)) = length pre.
Proof.
  intros (l & c & -> & Hc) Hw. destruct (run_of_Forall _ _ Hw) as [_ Hall].
  by apply back_run.
Qed.

Lemma space_not_space x : is_space x = true -> not_space x = false.
Proof. unfold not_space. by intros ->. Qed.

Lemma not_space_space x : not_space x = true -> is_space x = false.
Proof. unfold not_space. by destruct (is_space x). Qed.

Lemma skip_run test (w rest : cstring) :
  forallb test w = true ->
  match rest with [] => True | c :: _ => test c = false end ->
  skip test (w ++ rest) = rest.
Proof.
  intros Hw Hrest. induction w as [|x w IH]; cbn [app skip].
  - destruct rest as [|c rest]; [done|]. cbn [skip]. by rewrite Hrest.
  - cbn [forallb] in Hw. apply andb_prop in Hw as [Hx Hw]. rewrite Hx. by apply IH.
Qed.

(** The positions in a well-formed line [file addr name + offset]. *)
Lemma positions_well_formed (file sp1 addr sp2 name sp3 plus sp4 off : cstring) :
  ends_off is_space file ->
  run_of is_space sp1 = true -> run_of not_space addr = true ->
  run_of is_space sp2 = true -> run_of not_space name = true ->
  run_of is_space sp3 = true -> run_of not_space plus = true ->
  run_of is_space sp4 = true -> run_of not_space off = true ->
  positions (file ++ sp1 ++ addr ++ sp2 ++ name ++ sp3 ++ plus ++ sp4 ++ off)
  = if (length file =? 1)%nat
    then (length (file ++ sp1 ++ addr ++ sp2 ++ name ++ sp3 ++ plus ++ sp4 ++ off),
          length (file ++ sp1 ++ addr ++ sp2 ++ name ++ sp3 ++ plus ++ sp4 ++ off),
          length (file ++ sp1 ++ addr ++ sp2 ++ name))
    else (length file,
          length (file ++ sp1 ++ addr ++ sp2),
          length (file ++ sp1 ++ addr ++ sp2 ++ name)).
Proof.
  intros Hfile H1 Haddr H2 Hname H3 Hplus H4 Hoff.
  set (s := file ++ sp1 ++ addr ++ sp2 ++ name ++ sp3 ++ plus ++ sp4 ++ off).
  set (P2 := file ++ sp1). set (P3 := P2 ++ addr). set (P4 := P3 ++ sp2).
  set (P5 := P4 ++ name). set (P6 := P5 ++ sp3). set (P7 := P6 ++ plus).
  set (P8 := P7 ++ sp4).
  assert (E2 : ends_off not_space P2) by (apply (ends_off_run _ is_space); [apply space_not_space|done]).
  assert (E3 : ends_off is_space P3) by (apply (ends_off_run _ not_space); [apply not_space_space|done]).
  assert (E4 : ends_off not_space P4) by (apply (ends_off_run _ is_space); [apply space_not_space|done]).
  assert (E5 : ends_off is_space P5) by (apply (ends_off_run _ not_space); [apply not_space_space|done]).
  assert (E6 : ends_off not_space P6) by (apply (ends_off_run _ is_space); [apply space_not_space|done]).
  assert (E7 : ends_off is_space P7) by (apply (ends_off_run _ not_space); [apply not_space_space|done]).
  assert (E8 : ends_off not_space P8) by (apply (ends_off_run _ is_space); [apply space_not_space|done]).
  assert (S8 : s = P8 ++ off ++ []) by (unfold s, P8, P7, P6, P5, P4, P3, P2; by rewrite app_nil_r, <- !app_assoc).
  assert (S7 : s = P7 ++ sp4 ++ off) by (unfold s, P7, P6, P5, P4, P3, P2; by rewrite <- !app_assoc).
  assert (S6 : s = P6 ++ plus ++ sp4 ++ off) by (unfold s, P6, P5, P4, P3, P2; by rewrite <- !app_assoc).
  assert (S5 : s = P5 ++ sp3 ++ plus ++ sp4 ++ off) by (unfold s, P5, P4, P3, P2; by rewrite <- !app_assoc).
  assert (S4 : s = P4 ++ name ++ sp3 ++ plus ++ sp4 ++ off) by (unfold s, P4, P3, P2; by rewrite <- !app_assoc).
  assert (S3 : s = P3 ++ sp2 ++ name ++ sp3 ++ plus ++ sp4 ++ off) by (unfold s, P3, P2; by rewrite <- !app_assoc).
  assert (S2 : s = P2 ++ addr ++ sp2 ++ name ++ sp3 ++ plus ++ sp4 ++ off) by (unfold s, P2; by rewrite <- !app_assoc).
  assert (L8 : length s = length (P8 ++ off)) by (by rewrite S8, app_nil_r).
  assert (Q1 : back not_space s (length s) = length P8)
    by (rewrite L8, S8; by apply back_over).
  assert (Q2 : back is_space s (length P8) = length P7)
    by (rewrite S7; by apply (back_over is_space P7 sp4 off)).
  assert (Q3 : back not_space s (length P7) = length P6)
    by (rewrite S6; by apply (back_over not_space P6 plus (sp4 ++ off))).
  assert (Q4 : back is_space s (length P6) = length P5)
    by (rewrite S5; by apply (back_over is_space P5 sp3 (plus ++ sp4 ++ off))).
  assert (Q5 : back not_space s (length P5) = length P4)
    by (rewrite S4; by apply (back_over not_space P4 name (sp3 ++ plus ++ sp4 ++ off))).
  assert (Q6 : back is_space s (length P4) = length P3)
    by (rewrite S3; by apply (back_over is_space P3 sp2 (name ++ sp3 ++ plus ++ sp4 ++ off))).
  assert (Q7 : back not_space s (length P3) = length P2)
    by (rewrite S2; by apply (back_over not_space P2 addr
                                (sp2 ++ name ++ sp3 ++ plus ++ sp4 ++ off))).
  assert (Q8 : back is_space s (length P2) = length file)
    by (by apply (back_over is_space file sp1
                    (addr ++ sp2 ++ name ++ sp3 ++ plus ++ sp4 ++ off))).
  unfold positions. fold s. rewrite Q1, Q2, Q3, Q4, Q5, Q6, Q7, Q8.
  unfold P5, P4, P3, P2. rewrite <- !app_assoc. by destruct (length file =? 1)%nat.
Qed.

(** X28. For a line [number file address name + offset], in which the
    fields are separated by spaces, only the file may contain spaces and the
    file has at least two characters, [resolve] gives the file as the object
    file and, as the object function and the source function, the demangled
    name followed by a space and the text after the character that follows
    the name (the sign and the offset); the line is left cut after the
    name. *)
Theorem resolve_well_formed
    (demangle : string -> string) (symbols : list cstring) (trace : ResolvedTrace)
    (number sp0 file sp1 addr sp2 name sp3 plus sp4 off : cstring) :
  symbols !! Z.to_nat (idx trace)
  = Some (number ++ sp0 ++ file ++ sp1 ++ addr ++ sp2 ++ name ++ sp3 ++ plus ++ sp4 ++ off) ->
  forallb not_space number = true -> run_of is_space sp0 = true ->
  match file with [] => False | c :: _ => is_space c = false end ->
  ends_off is_space file -> length file <> 1%nat ->
  run_of is_space sp1 = true -> run_of not_space addr = true ->
  run_of is_space sp2 = true -> run_of not_space name = true ->
  run_of is_space sp3 = true -> run_of not_space plus = true ->
  run_of is_space sp4 = true -> run_of not_space off = true ->
  let f := demangle (string_of_list_ascii name) +:+ " "
           +:+ string_of_list_ascii (drop 1 (sp3 ++ plus ++ sp4 ++ off)) in
  resolve demangle symbols trace
  = (<[Z.to_nat (idx trace) :=
         number ++ sp0 ++ file ++ sp1 ++ addr ++ sp2 ++ name]> symbols,
     set_source_function f
       (set_object_function f
          (set_object_filename (string_of_list_ascii file) trace))).
Proof.
  intros Hline Hnumber H0 Hfirst Hfile Hlen H1 Haddr H2 Hname H3 Hplus H4 Hoff f.
  set (s := file ++ sp1 ++ addr ++ sp2 ++ name ++ sp3 ++ plus ++ sp4 ++ off) in *.
  unfold resolve. unfold cstring in *. rewrite Hline.
  assert (Hs0 : match s with [] => True | c :: _ => is_space c = false end).
  { unfold s. destruct file as [|c file']; [done|exact Hfirst]. }
  assert (Hskip : skip is_space (skip not_space (number ++ sp0 ++ s)) = s).
  { destruct (run_of_Forall _ _ H0) as [Hne0 _].
    unfold run_of in H0. apply andb_prop in H0 as [_ Hall0].
    rewrite (skip_run not_space number (sp0 ++ s) Hnumber).
    - by apply skip_run.
    - destruct sp0 as [|c sp0']; [done|]. cbn [app forallb] in *.
      apply andb_prop in Hall0 as [Hc _]. by apply space_not_space. }
  rewrite Hskip. unfold s at 1.
  rewrite (positions_well_formed file sp1 addr sp2 name sp3 plus sp4 off)
    by assumption.
  replace (length file =? 1)%nat with false by (symmetry; by apply Nat.eqb_neq).
  assert (Hname_ne : (0 < length name)%nat).
  { destruct (run_of_Forall _ _ Hname) as [Hne _]. destruct name; [done|cbn; lia]. }
  assert (Hlt : (length (file ++ sp1 ++ addr ++ sp2) <? length s)%nat = true).
  { apply Nat.ltb_lt. unfold s. rewrite !length_app. lia. }
  rewrite Hlt.
  assert (Htake_file : take (length file) s = file) by (unfold s; by rewrite take_app_length).
  assert (Hs4 : s = (file ++ sp1 ++ addr ++ sp2) ++ name ++ sp3 ++ plus ++ sp4 ++ off)
    by (unfold s; by rewrite <- !app_assoc).
  assert (Hs5 : s = (file ++ sp1 ++ addr ++ sp2 ++ name) ++ sp3 ++ plus ++ sp4 ++ off)
    by (unfold s; by rewrite <- !app_assoc).
  assert (Hname_take : take (length (file ++ sp1 ++ addr ++ sp2 ++ name)
                             - length (file ++ sp1 ++ addr ++ sp2))
                         (drop (length (file ++ sp1 ++ addr ++ sp2)) s) = name).
  { rewrite Hs4 at 1. rewrite drop_app_length.
    replace (length (file ++ sp1 ++ addr ++ sp2 ++ name)
             - length (file ++ sp1 ++ addr ++ sp2))%nat with (length name)
      by (rewrite !length_app; lia).
    by rewrite take_app_length. }
  assert (Hrest : drop (Datatypes.S (length (file ++ sp1 ++ addr ++ sp2 ++ name))) s
                  = drop 1 (sp3 ++ plus ++ sp4 ++ off)).
  { rewrite Hs5 at 1.
    replace (Datatypes.S (length (file ++ sp1 ++ addr ++ sp2 ++ name)))
      with (length (file ++ sp1 ++ addr ++ sp2 ++ name) + 1)%nat by lia.
    by rewrite <- drop_drop, drop_app_length. }
  assert (Hcut : take (length (number ++ sp0 ++ s) - length s
                       + length (file ++ sp1 ++ addr ++ sp2 ++ name))
                   (number ++ sp0 ++ s)
                 = number ++ sp0 ++ file ++ sp1 ++ addr ++ sp2 ++ name).
  { rewrite Hs5 at 3.
    replace (length (number ++ sp0 ++ s) - length s
             + length (file ++ sp1 ++ addr ++ sp2 ++ name))%nat
      with (length (number ++ sp0 ++ file ++ sp1 ++ addr ++ sp2 ++ name))
      by (rewrite !length_app; lia).
    replace (number ++ sp0 ++ (file ++ sp1 ++ addr ++ sp2 ++ name)
             ++ sp3 ++ plus ++ sp4 ++ off)
      with ((number ++ sp0 ++ file ++ sp1 ++ addr ++ sp2 ++ name)
            ++ sp3 ++ plus ++ sp4 ++ off) by (by rewrite <- !app_assoc).
    by rewrite take_app_length. }
  by rewrite Htake_file, Hname_take, Hrest, Hcut.
Qed.

Definition example_line : cstring :=
  list_ascii_of_string "3   my app   0x0000000100003f50 _Z4workv + 32".

Lemma resolve_well_formed_witness :
  let r := resolve (fun s => s) [[]; example_line] (mk_trace 4294983504 1) in
  object_filename (snd r) = "my app"
  /\ object_function (snd r) = "_Z4workv + 32"
  /\ sl_function (source (snd r)) = "_Z4workv + 32".
Proof.
  assert (Hfile : ends_off is_space (list_ascii_of_string "my app")).
  { exists (list_ascii_of_string "my ap"), "p"%char. by split. }
  rewrite (resolve_well_formed (fun s => s) [[]; example_line] (mk_trace 4294983504 1)
             (list_ascii_of_string "3") (list_ascii_of_string "   ")
             (list_ascii_of_string "my app") (list_ascii_of_string "   ")
             (list_ascii_of_string "0x0000000100003f50") (list_ascii_of_string " ")
             (list_ascii_of_string "_Z4workv") (list_ascii_of_string " ")
             (list_ascii_of_string "+") (list_ascii_of_string " ")
             (list_ascii_of_string "32")
             eq_refl eq_refl eq_refl eq_refl Hfile ltac:(cbn; lia)
             eq_refl eq_refl eq_refl eq_refl eq_refl eq_refl eq_refl eq_refl).
  by repeat split.
Defined.

(** X29. A file of one character in an otherwise well-formed line is taken
    for a failed parse, since the scan then ends on the first character of
    the line: the whole line after the number becomes the object file, no
    function name is set and the line is not cut. *)
Theorem resolve_short_file
    (demangle : string -> string) (symbols : list cstring) (trace : ResolvedTrace)
    (number sp0 sp1 addr sp2 name sp3 plus sp4 off : cstring) (c : ascii) :
  symbols !! Z.to_nat (idx trace)
  = Some (number ++ sp0 ++ [c] ++ sp1 ++ addr ++ sp2 ++ name ++ sp3 ++ plus ++ sp4 ++ off) ->
  forallb not_space number = true -> run_of is_space sp0 = true ->
  is_space c = false ->
  run_of is_space sp1 = true -> run_of not_space addr = true ->
  run_of is_space sp2 = true -> run_of not_space name = true ->
  run_of is_space sp3 = true -> run_of not_space plus = true ->
  run_of is_space sp4 = true -> run_of not_space off = true ->
  resolve demangle symbols trace
  = (symbols,
     set_object_filename
       (string_of_list_ascii
          ([c] ++ sp1 ++ addr ++ sp2 ++ name ++ sp3 ++ plus ++ sp4 ++ off)) trace).
Proof.
  intros Hline Hnumber H0 Hc H1 Haddr H2 Hname H3 Hplus H4 Hoff.
  set (s := [c] ++ sp1 ++ addr ++ sp2 ++ name ++ sp3 ++ plus ++ sp4 ++ off) in *.
  unfold resolve. unfold cstring in *. rewrite Hline.
  assert (Hskip : skip is_space (skip not_space (number ++ sp0 ++ s)) = s).
  { destruct (run_of_Forall _ _ H0) as [Hne0 _].
    unfold run_of in H0. apply andb_prop in H0 as [_ Hall0].
    rewrite (skip_run not_space number (sp0 ++ s) Hnumber).
    - by apply skip_run.
    - destruct sp0 as [|x sp0']; [done|]. cbn [app forallb] in *.
      apply andb_prop in Hall0 as [Hx _]. by apply space_not_space. }
  rewrite Hskip. unfold s at 1.
  rewrite (positions_well_formed [c] sp1 addr sp2 name sp3 plus sp4 off);
    [|by exists [], c|assumption..].
  cbn [length Nat.eqb]. fold s. rewrite Nat.ltb_irrefl. by rewrite firstn_all.
Qed.

Lemma resolve_short_file_witness :
  object_filename
    (snd (resolve (fun s => s)
            [list_ascii_of_string "0 a 0x0000000100003f50 main + 7"] (mk_trace 0 0)))
  = "a 0x0000000100003f50 main + 7".
Proof.
  rewrite (resolve_short_file (fun s => s)
             [list_ascii_of_string "0 a 0x0000000100003f50 main + 7"] (mk_trace 0 0)
             (list_ascii_of_string "0") (list_ascii_of_string " ")
             (list_ascii_of_string " ") (list_ascii_of_string "0x0000000100003f50")
             (list_ascii_of_string " ") (list_ascii_of_string "main")
             (list_ascii_of_string " ") (list_ascii_of_string "+")
             (list_ascii_of_string " ") (list_ascii_of_string "7") "a"%char
             eq_refl eq_refl eq_refl eq_refl eq_refl eq_refl eq_refl eq_refl eq_refl
             eq_refl eq_refl eq_refl).
  reflexivity.
Defined.

End DarwinSymbol.
